(** * chatbot-UI: the intent-resolution engine of [chatbotService.js]

    A shallow embedding of [ChatbotService] (catalog loading, the
    similarity primitives, the pattern scorer, the intent resolver, the
    response facade and the chat history) and of the effect of
    [ChatbotComponent] that fills the chat window, together with the
    properties its specification states about it and further properties
    of the code.

    Modelling conventions.
    - A JavaScript value is a term of [JsVal]; only own data properties
      of plain objects are modelled, so reading a property of any other
      non-nullish value gives [undefined].
    - The scorer, the resolver and the facade are embedded twice.  In
      [Binary64] a JavaScript number is a binary64 float and every
      operation rounds as the source rounds: the properties that depend
      on the value of a score or of [Math.random() * n] (the score of a
      pattern and of an intent, the intent the resolver returns, the
      response selected) are about this embedding.  In the other
      embedding a number is an exact rational ([Q]) and [NaN] is a value
      of its own; the remaining properties are stated on it.
    - A JavaScript string is a [string]: a sequence of 8-bit code units
      (the Latin-1 range of UTF-16 code units).
    - [throw] / [try]-[catch]-[finally] are modelled with [Outcome];
      the mutable service object is passed explicitly; calls to the
      injected logger and metrics collaborators are recorded in a trace
      (the collaborators themselves are assumed not to throw).
      [console.*] diagnostics of these methods are not part of the
      state.
    - [Math.random()] is an explicit argument of [generateResponse].
    - For the chat history, [localStorage] is a finite map from keys to
      strings; whether the page may use it and when it is full are
      parameters of the browser, [JSON.parse] and [JSON.stringify] are
      parameters ([JSON]), and the calls to [console.error] are
      recorded. *)

From Stdlib Require Import Ascii.
From stdpp Require Import base list strings numbers gmap pretty.
From Stdlib Require Import QArith Qround Qminmax Lqa.
From Stdlib Require Floats.

Set Warnings "-inexact-float".
Local Open Scope Z_scope.
Local Open Scope nat_scope.

(** ** Loops *)

(** [for (let k = start; k < start + count; k++) s = body k s]. *)
Fixpoint for_loop {S : Type} (count start : nat) (body : nat → S → S) (s : S) : S :=
  match count with
  | O => s
  | Datatypes.S count' => for_loop count' (Datatypes.S start) body (body start s)
  end.

(** ** Similarity primitives: the edit-distance table *)

Module Levenshtein.
(** The table [matrix], indexed [matrix[j][i]]; a cell that has not
  been written yet ([null] in the source) reads as [0]. *)
Abbreviation Matrix := (list (list nat)).

Section WithAlphabet.
Context {A : Type} `{EqDecision A}.

Definition mget (m : Matrix) (j i : nat) : nat :=
  default 0 (m !! j ≫= λ row, row !! i).

(** [matrix[j][i] = v] for a row that exists. *)
Definition mset (m : Matrix) (j i v : nat) : Matrix :=
  match m !! j with
  | Some row => <[j := <[i := v]> row]> m
  | None => m
  end.

Definition substitutionCost (str1 str2 : list A) (i j : nat) : nat :=
  if decide (str1 !! (i - 1) = str2 !! (j - 1)) then 0 else 1.

Definition fill_cell (str1 str2 : list A) (j i : nat) (m : Matrix) : Matrix :=
  mset m j i
    (Nat.min (Nat.min (mget m j (i - 1) + 1)       (* deletion *)
                      (mget m (j - 1) i + 1))      (* insertion *)
             (mget m (j - 1) (i - 1) + substitutionCost str1 str2 i j)).

Definition fill_table (str1 str2 : list A) : Matrix :=
  let matrix := replicate (length str2 + 1) (replicate (length str1 + 1) 0) in
  let matrix := for_loop (length str1 + 1) 0 (λ i m, mset m 0 i i) matrix in
  let matrix := for_loop (length str2 + 1) 0 (λ j m, mset m j 0 j) matrix in
  for_loop (length str2) 1
    (λ j m, for_loop (length str1) 1 (fill_cell str1 str2 j) m) matrix.

Definition _calculateLevenshteinDistance (str1 str2 : list A) : nat :=
  mget (fill_table str1 str2) (length str2) (length str1).

(** *** Reference notions the table is compared with *)

(** One single-character edit: insert, delete or substitute a
    character anywhere in the string. *)
Inductive edit1 : list A → list A → Prop :=
| edit1_insert pre c post : edit1 (pre ++ post) (pre ++ c :: post)
| edit1_delete pre c post : edit1 (pre ++ c :: post) (pre ++ post)
| edit1_subst pre c d post : edit1 (pre ++ c :: post) (pre ++ d :: post).

(** [edits n a b]: [b] is obtained from [a] by [n] single-character edits. *)
Inductive edits : nat → list A → list A → Prop :=
| edits_nil a : edits 0 a a
| edits_step n a b c : edit1 a b → edits n b c → edits (Datatypes.S n) a c.

(** [n] is the minimum number of edits that transform [a] into [b]. *)
Definition min_edits (a b : list A) (n : nat) : Prop :=
  edits n a b ∧ ∀ m, edits m a b → n ≤ m.

(** An alignment of two strings read from the left, with its cost. *)
Inductive align : list A → list A → nat → Prop :=
| align_nil : align [] [] 0
| align_keep c a b n : align a b n → align (c :: a) (c :: b) n
| align_subst c d a b n : align a b n → align (c :: a) (d :: b) (Datatypes.S n)
| align_delete c a b n : align a b n → align (c :: a) b (Datatypes.S n)
| align_insert d a b n : align a b n → align a (d :: b) (Datatypes.S n).

(** [n] is the cost of a cheapest alignment of [a] and [b]. *)
Definition cheapest_alignment (a b : list A) (n : nat) : Prop :=
  align a b n ∧ ∀ k, align a b k → n ≤ k.

(** The table has [rows] rows of [cols] cells each. *)
Definition shape (rows cols : nat) (m : Matrix) : Prop :=
  length m = rows ∧ ∀ j row, m !! j = Some row → length row = cols.

(** The recurrence the table implements, on prefix lengths:
    [cell j i] is the entry for the first [i] characters of [str1] and
    the first [j] characters of [str2]. *)
Fixpoint cell (str1 str2 : list A) (j : nat) : nat → nat :=
  match j with
  | O => λ i, i
  | Datatypes.S j' =>
      fix row (i : nat) : nat :=
        match i with
        | O => Datatypes.S j'
        | Datatypes.S i' =>
            Nat.min (Nat.min (row i' + 1) (cell str1 str2 j' (Datatypes.S i') + 1))
                    (cell str1 str2 j' i'
                     + substitutionCost str1 str2 (Datatypes.S i') (Datatypes.S j'))
        end
  end.
End WithAlphabet.
End Levenshtein.

(** ** JavaScript strings *)

Module JsString.
(** [String.prototype.toLowerCase] on the Latin-1 range: [A]-[Z] and
    the accented capitals U+00C0-U+00DE other than the multiplication
    sign U+00D7 move up by 32. *)
Definition lower_char (c : ascii) : ascii :=
  let n := nat_of_ascii c in
  if (65 <=? n) && (n <=? 90) || (192 <=? n) && (n <=? 222) && negb (n =? 215)
  then ascii_of_nat (n + 32) else c.

Fixpoint toLowerCase (s : string) : string :=
  match s with
  | EmptyString => EmptyString
  | String c s' => String (lower_char c) (toLowerCase s')
  end.

(** White space and line terminators of the Latin-1 range:
    TAB, LF, VT, FF, CR, SP and NBSP. *)
Definition is_white_space (c : ascii) : bool :=
  match c with
  | "009" | "010" | "011" | "012" | "013" | " " | "160" => true
  | _ => false
  end%char.

Fixpoint trimStart (s : string) : string :=
  match s with
  | EmptyString => EmptyString
  | String c s' => if is_white_space c then trimStart s' else s
  end.

Fixpoint trimEnd (s : string) : string :=
  match s with
  | EmptyString => EmptyString
  | String c s' =>
      match trimEnd s' with
      | EmptyString => if is_white_space c then EmptyString else String c EmptyString
      | rest => String c rest
      end
  end.

Definition trim (s : string) : string := trimEnd (trimStart s).

(** [s.split(' ')]: the pieces between single spaces, empty pieces
    included; the result is never an empty array. *)
Fixpoint split_space (s : string) : list string :=
  match s with
  | EmptyString => [EmptyString]
  | String c s' =>
      if Ascii.eqb c " " then EmptyString :: split_space s'
      else match split_space s' with
           | piece :: pieces => String c piece :: pieces
           | [] => [String c EmptyString]
           end
  end.

(** [s.split(' ').filter(word => word.length > 0)] *)
Definition words (s : string) : list string :=
  filter (λ word, 0 < String.length word) (split_space s).

Fixpoint startsWith (s prefix : string) : bool :=
  match prefix, s with
  | EmptyString, _ => true
  | String p prefix', String c s' => Ascii.eqb c p && startsWith s' prefix'
  | String _ _, EmptyString => false
  end.

Fixpoint includes (s sub : string) : bool :=
  startsWith s sub ||
  match s with
  | EmptyString => false
  | String _ s' => includes s' sub
  end.

Definition chars (s : string) : list ascii := String.list_ascii_of_string s.
End JsString.

(** ** JavaScript values, errors and completions *)

#[warnings="-register-all"] Inductive JsVal : Type :=
| JUndefined
| JNull
| JBool (b : bool)
| JNum (q : Q)
| JNaN
| JStr (s : string)
| JArr (elems : list JsVal)
| JObj (props : list (string * JsVal))
| JFun.

(** ToBoolean *)
Definition truthy (v : JsVal) : bool :=
  match v with
  | JUndefined | JNull | JNaN => false
  | JBool b => b
  | JNum q => negb (Qeq_bool q 0)
  | JStr s => negb (String.eqb s "")
  | JArr _ | JObj _ | JFun => true
  end.

(** [typeof v === 'string'] *)
Definition is_string (v : JsVal) : bool :=
  match v with JStr _ => true | _ => false end.

(** [Array.isArray(v)] *)
Definition isArray (v : JsVal) : bool :=
  match v with JArr _ => true | _ => false end.

Inductive ErrorClass : Type :=
| TypeError
| ChatbotError
| IntentLoadError
| IntentMatchError
| ResponseGenerationError
| ChatHistoryError.

(** An error message; the interpolated value of a template literal
    [`prefix${v}`] is kept as it is. *)
Inductive Message : Type :=
| Text (s : string)
| Template (prefix : string) (v : JsVal).

(** ['prefix' + error.message] *)
Definition prepend (prefix : string) (m : Message) : Message :=
  match m with
  | Text s => Text (prefix +:+ s)
  | Template p v => Template (prefix +:+ p) v
  end.

Record JsError : Type := mkError { err_class : ErrorClass; err_message : Message }.

(** [error instanceof ChatbotError] *)
Definition instanceof_ChatbotError (e : JsError) : bool :=
  match err_class e with
  | TypeError => false
  | _ => true
  end.

(** [error instanceof IntentMatchError] *)
Definition instanceof_IntentMatchError (e : JsError) : bool :=
  match err_class e with
  | IntentMatchError => true
  | _ => false
  end.

(** How an evaluation ends: with a value, or with a thrown error. *)
Inductive Outcome (A : Type) : Type :=
| Normal (a : A)
| Throw (e : JsError).
Arguments Normal {A} a.
Arguments Throw {A} e.

Definition obind {A B : Type} (o : Outcome A) (k : A → Outcome B) : Outcome B :=
  match o with
  | Normal a => k a
  | Throw e => Throw e
  end.

Declare Scope outcome_scope.
Delimit Scope outcome_scope with outcome.
Notation "'let!' x := o 'in' k" := (obind o (λ x, k))
  (at level 10, x name, o at level 100, k at level 200) : outcome_scope.

Fixpoint assoc (name : string) (props : list (string * JsVal)) : JsVal :=
  match props with
  | [] => JUndefined
  | (key, v) :: props' => if String.eqb key name then v else assoc name props'
  end.

(** [v.name]: a [TypeError] on [undefined] and [null], the own property
    of a plain object, [length] of an array or a string, and [undefined]
    everywhere else. *)
Definition get_prop (v : JsVal) (name : string) : Outcome JsVal :=
  match v with
  | JUndefined =>
      Throw (mkError TypeError
        (Text ("Cannot read properties of undefined (reading '" +:+ name +:+ "')")))
  | JNull =>
      Throw (mkError TypeError
        (Text ("Cannot read properties of null (reading '" +:+ name +:+ "')")))
  | JObj props => Normal (assoc name props)
  | JArr elems =>
      Normal (if String.eqb name "length" then JNum (inject_Z (Z.of_nat (length elems)))
              else JUndefined)
  | JStr s =>
      Normal (if String.eqb name "length" then JNum (inject_Z (Z.of_nat (String.length s)))
              else JUndefined)
  | _ => Normal JUndefined
  end.

(** [arr[index]] for an integer index: [undefined] out of range. *)
Definition js_index (elems : list JsVal) (index : Z) : JsVal :=
  if (index <? 0)%Z then JUndefined else default JUndefined (elems !! Z.to_nat index).

(** ** Numbers *)

(** [x > y] *)
Definition Qgtb (x y : Q) : bool :=
  match (x ?= y)%Q with Gt => true | _ => false end.

(** [x >= y] *)
Definition Qgeb (x y : Q) : bool :=
  match (x ?= y)%Q with Lt => false | _ => true end.

Arguments Qgtb (x y)%_Q_scope.
Arguments Qgeb (x y)%_Q_scope.

Definition Qnat (n : nat) : Q := inject_Z (Z.of_nat n).

(** ** The service object and its collaborators *)

(** Calls made to the injected logger and metrics collaborators. *)
Inductive Event : Type :=
| LoggerCall (context : string) (error : JsError)
| RecordError (kind : string) (message : Message)
| RecordIntentMatch (tag : JsVal)
| RecordResponseTime.

(** [this]: the installed catalog, whether a metrics collaborator was
    injected, and the calls made to the collaborators so far. *)
Record Service : Type := mkService {
  intents : JsVal;
  metrics : bool;
  trace : list Event
}.

(** Computations on the service object that may throw. *)
Definition Method (A : Type) : Type := Service → Service * Outcome A.

Definition ret {A : Type} (a : A) : Method A := λ this, (this, Normal a).

Definition throw {A : Type} (e : JsError) : Method A := λ this, (this, Throw e).

Definition lift {A : Type} (o : Outcome A) : Method A := λ this, (this, o).

Definition bind {A B : Type} (m : Method A) (k : A → Method B) : Method B :=
  λ this, match m this with
          | (this', Normal a) => k a this'
          | (this', Throw e) => (this', Throw e)
          end.

(** [try { body } catch (error) { handler error }] *)
Definition try_catch {A : Type} (body : Method A) (handler : JsError → Method A) : Method A :=
  λ this, match body this with
          | (this', Throw e) => handler e this'
          | done => done
          end.

(** [try { body } finally { final }] *)
Definition try_finally {A : Type} (body : Method A) (final : Method unit) : Method A :=
  λ this, match body this with
          | (this', o) =>
              match final this' with
              | (this'', Normal _) => (this'', o)
              | (this'', Throw e) => (this'', Throw e)
              end
          end.

Declare Scope method_scope.
Delimit Scope method_scope with method.
Notation "'do' x <- m ; k" := (bind m (λ x, k))
  (at level 10, x name, m at level 100, k at level 200) : method_scope.
Notation "m ;; k" := (bind m (λ _, k))
  (at level 100, k at level 200, right associativity) : method_scope.

Definition emit (ev : Event) : Method unit :=
  λ this, (mkService (intents this) (metrics this) (trace this ++ [ev]), Normal tt).

(** [if (this.metrics) { this.metrics.... }] *)
Definition with_metrics (ev : Event) : Method unit :=
  λ this, if metrics this then emit ev this else (this, Normal tt).

(** [this.intents = v] *)
Definition set_intents (v : JsVal) : Method unit :=
  λ this, (mkService v (metrics this) (trace this), Normal tt).

(** ** Catalog loader *)

Definition load_error (message : string) : JsError := mkError IntentLoadError (Text message).

(** The body of the validation loop for one entry. *)
Definition validate_intent (intent : JsVal) : Outcome unit :=
  (let! tag := get_prop intent "tag" in
   let! patterns := get_prop intent "patterns" in
   let! responses := get_prop intent "responses" in
   if negb (truthy tag) || negb (truthy patterns) || negb (truthy responses)
   then Throw (load_error "Invalid intent structure: missing required properties")
   else if negb (isArray patterns) || negb (isArray responses)
   then Throw (load_error "Invalid intent structure: patterns and responses must be arrays")
   else Normal tt)%outcome.

Fixpoint validate_all (entries : list JsVal) : Outcome unit :=
  match entries with
  | [] => Normal tt
  | intent :: rest => (let! _ := validate_intent intent in validate_all rest)%outcome
  end.

(** The checks of the [try] block, up to the assignment; the result is
    the value of [intentsData.intents]. *)
Definition validate_intentsData (intentsData : JsVal) : Outcome JsVal :=
  if negb (truthy intentsData) then Throw (load_error "Intent data is missing")
  else
    (let! entries := get_prop intentsData "intents" in
     if negb (truthy entries)
     then Throw (load_error "Invalid intent data structure: missing intents property")
     else match entries with
          | JArr elems =>
              if length elems =? 0 then Throw (load_error "Intent data is empty")
              else let! _ := validate_all elems in Normal entries
          | _ => Throw (load_error "Invalid intent data structure: intents must be an array")
          end)%outcome.

Definition loadIntents (intentsData : JsVal) : Method unit :=
  try_catch
    (do entries <- lift (validate_intentsData intentsData);
     set_intents entries)%method
    (λ error,
       emit (LoggerCall "Error loading intents:" error);;
       let wrappedError :=
         if instanceof_ChatbotError error then error
         else mkError IntentLoadError
                (prepend "Failed to load intent data: " (err_message error)) in
       with_metrics (RecordError "INTENT_LOAD_ERROR" (err_message wrappedError));;
       throw wrappedError)%method.

(** [new ChatbotService({ intentsData, metrics })]: the object built,
    and whether the constructor returned or threw. *)
Definition new_ChatbotService (intentsData : JsVal) (has_metrics : bool)
  : Service * Outcome unit :=
  let this := mkService (JArr []) has_metrics [] in
  if truthy intentsData then loadIntents intentsData this else (this, Normal tt).

(** ** Similarity primitives *)

Definition _calculateLevenshteinDistance (str1 str2 : string) : nat :=
  Levenshtein._calculateLevenshteinDistance (JsString.chars str1) (JsString.chars str2).

Definition _calculateStringSimilarity (str1 str2 : string) : Q :=
  if String.eqb str1 "" || String.eqb str2 "" then 0
  else
    let maxLength := Nat.max (String.length str1) (String.length str2) in
    if maxLength =? 0 then 1
    else
      let distance := _calculateLevenshteinDistance str1 str2 in
      1 - Qnat distance / Qnat maxLength.

(** ** Pattern scorer *)

Definition medicalKeywords : list string :=
  ["cuts"; "fever"; "headache"; "pain"; "treatment"; "cure"].

(** [words[index]]; the source reads it only at an index of the array. *)
Definition word_at (words : list string) (index : Z) : string :=
  if (index <? 0)%Z then "" else default "" (words !! Z.to_nat index).

(** The inner loop of [_calculateWordOrderSimilarity]: the state is
    [(bestMatchScore, bestMatchIndex)]. *)
Definition best_match (queryWord : string) (patternWords : list string) : Q * Z :=
  for_loop (length patternWords) 0
    (λ j '(bestMatchScore, bestMatchIndex),
       let similarity := _calculateStringSimilarity queryWord (word_at patternWords (Z.of_nat j)) in
       if Qgtb similarity bestMatchScore then (similarity, Z.of_nat j)
       else (bestMatchScore, bestMatchIndex))
    (0%Q, (-1)%Z).

Definition is_keyword_match (queryWord patternWord : string) : bool :=
  existsb (λ keyword,
             JsString.includes (JsString.toLowerCase queryWord) keyword
             || JsString.includes (JsString.toLowerCase patternWord) keyword)
          medicalKeywords.

(** The state of the outer loop. *)
Record OrderState : Type := mkOrderState {
  matchCount : nat;
  orderScore : Q;
  keywordMatches : nat
}.

Definition word_order_step (queryWords patternWords : list string) (i : nat)
    (st : OrderState) : OrderState :=
  let queryWord := word_at queryWords (Z.of_nat i) in
  let '(bestMatchScore, bestMatchIndex) := best_match queryWord patternWords in
  if Qgtb bestMatchScore 0.6 then
    let positionDiff := Z.abs (Z.of_nat i - bestMatchIndex) in
    mkOrderState
      (matchCount st + 1)
      (orderScore st
       + (1 - inject_Z positionDiff
              / Qnat (Nat.max (length queryWords) (length patternWords))))
      (if is_keyword_match queryWord (word_at patternWords bestMatchIndex)
       then keywordMatches st + 1 else keywordMatches st)
  else st.

Definition _calculateWordOrderSimilarity (queryWords patternWords : list string) : Q :=
  if (length queryWords =? 0) || (length patternWords =? 0) then 0
  else
    let st := for_loop (length queryWords) 0 (word_order_step queryWords patternWords)
                (mkOrderState 0 0 0) in
    let baseScore :=
      (if 0 <? matchCount st then orderScore st / Qnat (matchCount st) else 0)%Q in
    let keywordBonus := (Qnat (keywordMatches st) * 0.2)%Q in
    Qmin 1 (baseScore + keywordBonus).

(** The word-level loop of [findMatchingIntent]: the state is
    [(wordSimilarityScore, matchedWords)]. *)
Definition bestWordScore (queryWord : string) (patternWords : list string) : Q :=
  fold_left (λ best patternWord,
               Qmax best (_calculateStringSimilarity queryWord patternWord))
            patternWords 0%Q.

Definition word_level_step (patternWords : list string) (st : Q * nat)
    (queryWord : string) : Q * nat :=
  let '(wordSimilarityScore, matchedWords) := st in
  let best := bestWordScore queryWord patternWords in
  ((wordSimilarityScore + best)%Q,
   if Qgtb best 0.6 then matchedWords + 1 else matchedWords).

Definition word_level (queryWords patternWords : list string) : Q * nat :=
  fold_left (word_level_step patternWords) queryWords (0%Q, 0).

(** The body of the loop over the patterns of one intent, for a pattern
    that is a string. *)
Definition patternScore (normalizedQuery : string) (queryWords : list string)
    (pattern : string) : Q :=
  let normalizedPattern := JsString.toLowerCase pattern in
  let patternWords := JsString.words normalizedPattern in
  let exactMatchScore := (if String.eqb normalizedQuery normalizedPattern then 1 else 0)%Q in
  let wordOrderScore := _calculateWordOrderSimilarity queryWords patternWords in
  let '(wordSimilarityScore, matchedWords) := word_level queryWords patternWords in
  let wordSimilarityScore := (wordSimilarityScore / Qnat (length queryWords))%Q in
  (exactMatchScore * 1.0
   + wordSimilarityScore * 0.7
   + wordOrderScore * 0.6
   + (Qnat matchedWords / Qnat (Nat.max (length queryWords) (length patternWords))) * 0.9)
  / 3.2.

(** The loop over [intent.patterns]; a pattern that is not a string is
    skipped. *)
Definition intentScore_step (normalizedQuery : string) (queryWords : list string)
    (score : Q) (pattern : JsVal) : Q :=
  match pattern with
  | JStr p => Qmax score (patternScore normalizedQuery queryWords p)
  | _ => score
  end.

Definition intentScore (normalizedQuery : string) (queryWords : list string)
    (patterns : list JsVal) : Q :=
  fold_left (intentScore_step normalizedQuery queryWords) patterns 0%Q.

(** ** Intent resolver *)

Record BestMatch : Type := mkBestMatch { bm_intent : JsVal; bm_score : Q }.

Definition match_error (message : string) : JsError := mkError IntentMatchError (Text message).

(** The loop over [this.intents]. *)
Fixpoint scan_intents (normalizedQuery : string) (queryWords : list string)
    (entries : list JsVal) (bestMatch : BestMatch) : Outcome BestMatch :=
  match entries with
  | [] => Normal bestMatch
  | intent :: rest =>
      (let! patterns := get_prop intent "patterns" in
       match patterns with
       | JArr elems =>
           let score := intentScore normalizedQuery queryWords elems in
           scan_intents normalizedQuery queryWords rest
             (if Qgtb score (bm_score bestMatch) then mkBestMatch intent score else bestMatch)
       | _ => scan_intents normalizedQuery queryWords rest bestMatch
       end)%outcome
  end.

(** The [try] block of [findMatchingIntent]. *)
Definition match_intent (this : Service) (query : JsVal) : Outcome JsVal :=
  if negb (truthy query) then Normal JNull
  else match query with
       | JStr text =>
           match intents this with
           | JArr entries =>
               if length entries =? 0
               then Throw (match_error "No intents available for matching")
               else
                 let normalizedQuery := JsString.trim (JsString.toLowerCase text) in
                 if String.length normalizedQuery =? 0 then Normal JNull
                 else
                   let queryWords := JsString.words normalizedQuery in
                   (let! bestMatch :=
                      scan_intents normalizedQuery queryWords entries (mkBestMatch JNull 0) in
                    Normal (if Qgeb (bm_score bestMatch) 0.25 then bm_intent bestMatch
                            else JNull))%outcome
           | _ => Throw (match_error "No intents available for matching")
           end
       | _ => Throw (match_error "Query must be a string")
       end.

Definition findMatchingIntent (this : Service) (query : JsVal) : Outcome JsVal :=
  match match_intent this query with
  | Normal result => Normal result
  | Throw error =>
      Throw (if instanceof_ChatbotError error then error
             else mkError IntentMatchError
                    (prepend "Failed to match intent: " (err_message error)))
  end.

(** ** Response facade *)

Arguments findMatchingIntent : simpl never.

Definition result_object (answer : string) (intent error : JsVal) : JsVal :=
  JObj [("answer", JStr answer); ("intent", intent); ("error", error)].

Definition EMPTY_QUERY_result : JsVal :=
  result_object
    "I'm sorry, I don't understand empty queries. Please ask a medical question."
    JNull (JStr "EMPTY_QUERY").

Definition NO_MATCH_result : JsVal :=
  result_object
    "I'm sorry, I don't understand that medical query. Could you please rephrase it or ask about a specific medical condition?"
    JNull (JStr "NO_MATCH").

Definition INTENT_MATCH_ERROR_result : JsVal :=
  result_object
    "Sorry, there was an error matching your query. Please try rephrasing your question."
    JNull (JStr "INTENT_MATCH_ERROR").

Definition INTERNAL_ERROR_result : JsVal :=
  result_object
    "Sorry, I encountered an error processing your query. Please try again."
    JNull (JStr "INTERNAL_ERROR").

Definition generation_error (message : Message) : JsError :=
  mkError ResponseGenerationError message.

(** [Math.floor(random * n)] *)
Definition random_index (random : Q) (n : nat) : Z := Qfloor (random * Qnat n).

(** The part of the [try] block that follows a successful match. *)
Definition select_response (random : Q) (matchedIntent : JsVal) : Method JsVal :=
  (do responses <- lift (get_prop matchedIntent "responses");
   do tag <- lift (get_prop matchedIntent "tag");
   match responses with
   | JArr elems =>
       if length elems =? 0
       then throw (generation_error (Template "No responses available for intent: " tag))
       else
         let randomIndex := random_index random (length elems) in
         match js_index elems randomIndex with
         | JStr response =>
             if String.length (JsString.trim response) =? 0
             then throw (generation_error (Template "Invalid response for intent: " tag))
             else
               with_metrics (RecordIntentMatch tag);;
               with_metrics RecordResponseTime;;
               ret (result_object response tag JNull)
         | _ => throw (generation_error (Template "Invalid response for intent: " tag))
         end
   | _ => throw (generation_error (Template "No responses available for intent: " tag))
   end)%method.

(** [generateResponse(query)], with the value [Math.random()] returns. *)
Definition generateResponse (query : JsVal) (random : Q) : Method JsVal :=
  try_finally
    (try_catch
       (if negb (truthy query) then ret EMPTY_QUERY_result
        else if negb (is_string query)
        then throw (generation_error (Text "Query must be a string"))
        else
          do matchedIntent <- (λ this, (this, findMatchingIntent this query));
          if negb (truthy matchedIntent)
          then with_metrics (RecordIntentMatch JNull);; ret NO_MATCH_result
          else select_response random matchedIntent)%method
       (λ error,
          with_metrics
            (RecordError (if instanceof_IntentMatchError error then "INTENT_MATCH_ERROR"
                          else "INTERNAL_ERROR")
                         (err_message error));;
          if instanceof_IntentMatchError error then ret INTENT_MATCH_ERROR_result
          else ret INTERNAL_ERROR_result)%method)
    (with_metrics RecordResponseTime).

(** * The scorer, the resolver and the facade in double precision *)

(** A JavaScript number is an IEEE 754 binary64 value, and the
    arithmetic of the source rounds after every operation.  Here the
    numbers are the kernel's binary64 floats, so that every sum, product
    and quotient is rounded as the source rounds it, and the comparisons
    are those of the source.  Lengths, indices and counters are integers
    below [2^53], every one of which is a number: they are kept as
    integers and become numbers where they enter a division or a
    product. *)

(** ** Numbers *)

Module Number.
Import PrimFloat.

(** [Number.MAX_SAFE_INTEGER], [2^53 - 1]: the length of a string or of
    an array is at most this. *)
Definition MAX_SAFE_INTEGER : Z := 9007199254740991.

(** The number that a length, an index or a counter is; an integer
    above [MAX_SAFE_INTEGER], which none of them is, is read as
    [MAX_SAFE_INTEGER]. *)
Definition of_nat (n : nat) : float :=
  of_uint63 (Uint63Axioms.of_Z (Z.min (Z.of_nat n) MAX_SAFE_INTEGER)).

(** [Math.max(x, y)] *)
Definition Math_max (x y : float) : float :=
  if is_nan x || is_nan y then nan
  else if (x <? y)%float then y
  else if (y <? x)%float then x
  else if is_zero x && get_sign x then y else x.

(** [Math.min(x, y)] *)
Definition Math_min (x y : float) : float :=
  if is_nan x || is_nan y then nan
  else if (x <? y)%float then x
  else if (y <? x)%float then y
  else if is_zero x && get_sign x then x else y.

(** [Math.floor(x)] as an integer, for a number that is not [NaN] or
    infinite. *)
Definition Math_floor (x : float) : option Z :=
  match FloatOps.Prim2SF x with
  | SpecFloat.S754_zero _ => Some 0%Z
  | SpecFloat.S754_finite s m e => Some (Z.shiftl (if s then Z.neg m else Z.pos m) e)
  | _ => None
  end.

(** The place of a number in the order of the numbers: its sign class,
    then its exponent, then its mantissa; [NaN] has none. *)
Definition rank (x : SpecFloat.spec_float) : option (Z * Z * Z) :=
  match x with
  | SpecFloat.S754_nan => None
  | SpecFloat.S754_infinity true => Some ((-2)%Z, 0%Z, 0%Z)
  | SpecFloat.S754_finite true m e => Some ((-1)%Z, (- e)%Z, Z.neg m)
  | SpecFloat.S754_zero _ => Some (0%Z, 0%Z, 0%Z)
  | SpecFloat.S754_finite false m e => Some (1%Z, e, Z.pos m)
  | SpecFloat.S754_infinity false => Some (2%Z, 0%Z, 0%Z)
  end.

Definition lex_compare (k1 k2 : Z * Z * Z) : comparison :=
  match (k1.1.1 ?= k2.1.1)%Z with
  | Eq => match (k1.1.2 ?= k2.1.2)%Z with
          | Eq => (k1.2 ?= k2.2)%Z
          | c => c
          end
  | c => c
  end.

Definition rank_compare (x y : float) : option comparison :=
  match rank (FloatOps.Prim2SF x), rank (FloatOps.Prim2SF y) with
  | Some kx, Some ky => Some (lex_compare kx ky)
  | _, _ => None
  end.
End Number.

Module Binary64.
Import PrimFloat Number.

(** [elems[index]] for the number [index] that [Math.floor] returned:
    [undefined] when it is not an index of the array. *)
Definition element (elems : list JsVal) (index : option Z) : JsVal :=
  match index with
  | Some i => js_index elems i
  | None => JUndefined
  end.

(** ** Similarity primitives *)

Definition _calculateStringSimilarity (str1 str2 : string) : float :=
  if String.eqb str1 "" || String.eqb str2 "" then 0%float
  else
    let maxLength := Nat.max (String.length str1) (String.length str2) in
    if maxLength =? 0 then 1%float
    else
      let distance := _calculateLevenshteinDistance str1 str2 in
      (1 - of_nat distance / of_nat maxLength)%float.

(** ** Pattern scorer *)

(** The inner loop of [_calculateWordOrderSimilarity]: the state is
    [(bestMatchScore, bestMatchIndex)]. *)
Definition best_match_step (queryWord : string) (patternWords : list string) (j : nat)
    (st : float * Z) : float * Z :=
  let similarity := _calculateStringSimilarity queryWord (word_at patternWords (Z.of_nat j)) in
  if (st.1 <? similarity)%float then (similarity, Z.of_nat j) else st.

Definition best_match (queryWord : string) (patternWords : list string) : float * Z :=
  for_loop (length patternWords) 0 (best_match_step queryWord patternWords)
    (0%float, (-1)%Z).

(** The state of the outer loop. *)
Record OrderState : Type := mkOrderState {
  matchCount : nat;
  orderScore : float;
  keywordMatches : nat
}.

Definition word_order_step (queryWords patternWords : list string) (i : nat)
    (st : OrderState) : OrderState :=
  let queryWord := word_at queryWords (Z.of_nat i) in
  let '(bestMatchScore, bestMatchIndex) := best_match queryWord patternWords in
  if (0.6 <? bestMatchScore)%float then
    let positionDiff := Z.to_nat (Z.abs (Z.of_nat i - bestMatchIndex)) in
    mkOrderState
      (matchCount st + 1)
      (orderScore st
       + (1 - of_nat positionDiff
              / of_nat (Nat.max (length queryWords) (length patternWords))))%float
      (if is_keyword_match queryWord (word_at patternWords bestMatchIndex)
       then keywordMatches st + 1 else keywordMatches st)
  else st.

Definition _calculateWordOrderSimilarity (queryWords patternWords : list string) : float :=
  if (length queryWords =? 0) || (length patternWords =? 0) then 0%float
  else
    let st := for_loop (length queryWords) 0 (word_order_step queryWords patternWords)
                (mkOrderState 0 0%float 0) in
    let baseScore :=
      if 0 <? matchCount st then (orderScore st / of_nat (matchCount st))%float
      else 0%float in
    let keywordBonus := (of_nat (keywordMatches st) * 0.2)%float in
    Math_min 1%float (baseScore + keywordBonus)%float.

(** The word-level loop of [findMatchingIntent]: the state is
    [(wordSimilarityScore, matchedWords)]. *)
Definition bestWordScore (queryWord : string) (patternWords : list string) : float :=
  fold_left (λ best patternWord,
               Math_max best (_calculateStringSimilarity queryWord patternWord))
            patternWords 0%float.

Definition word_level_step (patternWords : list string) (st : float * nat)
    (queryWord : string) : float * nat :=
  let best := bestWordScore queryWord patternWords in
  ((st.1 + best)%float, if (0.6 <? best)%float then st.2 + 1 else st.2).

Definition word_level (queryWords patternWords : list string) : float * nat :=
  fold_left (word_level_step patternWords) queryWords (0%float, 0).

(** The body of the loop over the patterns of one intent, for a pattern
    that is a string. *)
Definition patternScore (normalizedQuery : string) (queryWords : list string)
    (pattern : string) : float :=
  let normalizedPattern := JsString.toLowerCase pattern in
  let patternWords := JsString.words normalizedPattern in
  let exactMatchScore := if String.eqb normalizedQuery normalizedPattern then 1%float
                         else 0%float in
  let wordOrderScore := _calculateWordOrderSimilarity queryWords patternWords in
  let '(wordSimilarityScore, matchedWords) := word_level queryWords patternWords in
  let wordSimilarityScore := (wordSimilarityScore / of_nat (length queryWords))%float in
  ((exactMatchScore * 1.0
    + wordSimilarityScore * 0.7
    + wordOrderScore * 0.6
    + (of_nat matchedWords / of_nat (Nat.max (length queryWords) (length patternWords)))
      * 0.9)
   / 3.2)%float.

(** The loop over [intent.patterns]; a pattern that is not a string is
    skipped. *)
Definition intentScore_step (normalizedQuery : string) (queryWords : list string)
    (score : float) (pattern : JsVal) : float :=
  match pattern with
  | JStr p => Math_max score (patternScore normalizedQuery queryWords p)
  | _ => score
  end.

Definition intentScore (normalizedQuery : string) (queryWords : list string)
    (patterns : list JsVal) : float :=
  fold_left (intentScore_step normalizedQuery queryWords) patterns 0%float.

(** ** Intent resolver *)

Record BestMatch : Type := mkBestMatch { bm_intent : JsVal; bm_score : float }.

(** The loop over [this.intents]. *)
Fixpoint scan_intents (normalizedQuery : string) (queryWords : list string)
    (entries : list JsVal) (bestMatch : BestMatch) : Outcome BestMatch :=
  match entries with
  | [] => Normal bestMatch
  | intent :: rest =>
      (let! patterns := get_prop intent "patterns" in
       match patterns with
       | JArr elems =>
           let score := intentScore normalizedQuery queryWords elems in
           scan_intents normalizedQuery queryWords rest
             (if (bm_score bestMatch <? score)%float then mkBestMatch intent score
              else bestMatch)
       | _ => scan_intents normalizedQuery queryWords rest bestMatch
       end)%outcome
  end.

(** The [try] block of [findMatchingIntent]. *)
Definition match_intent (this : Service) (query : JsVal) : Outcome JsVal :=
  if negb (truthy query) then Normal JNull
  else match query with
       | JStr text =>
           match intents this with
           | JArr entries =>
               if length entries =? 0
               then Throw (match_error "No intents available for matching")
               else
                 let normalizedQuery := JsString.trim (JsString.toLowerCase text) in
                 if String.length normalizedQuery =? 0 then Normal JNull
                 else
                   let queryWords := JsString.words normalizedQuery in
                   (let! bestMatch :=
                      scan_intents normalizedQuery queryWords entries
                        (mkBestMatch JNull 0%float) in
                    Normal (if (0.25 <=? bm_score bestMatch)%float then bm_intent bestMatch
                            else JNull))%outcome
           | _ => Throw (match_error "No intents available for matching")
           end
       | _ => Throw (match_error "Query must be a string")
       end.

Definition findMatchingIntent (this : Service) (query : JsVal) : Outcome JsVal :=
  match match_intent this query with
  | Normal result => Normal result
  | Throw error =>
      Throw (if instanceof_ChatbotError error then error
             else mkError IntentMatchError
                    (prepend "Failed to match intent: " (err_message error)))
  end.

(** ** Response facade *)

(** [Math.floor(random * n)] *)
Definition random_index (random : float) (n : nat) : option Z :=
  Math_floor (random * of_nat n)%float.

(** The part of the [try] block that follows a successful match. *)
Definition select_response (random : float) (matchedIntent : JsVal) : Method JsVal :=
  (do responses <- lift (get_prop matchedIntent "responses");
   do tag <- lift (get_prop matchedIntent "tag");
   match responses with
   | JArr elems =>
       if length elems =? 0
       then throw (generation_error (Template "No responses available for intent: " tag))
       else
         let randomIndex := random_index random (length elems) in
         match element elems randomIndex with
         | JStr response =>
             if String.length (JsString.trim response) =? 0
             then throw (generation_error (Template "Invalid response for intent: " tag))
             else
               with_metrics (RecordIntentMatch tag);;
               with_metrics RecordResponseTime;;
               ret (result_object response tag JNull)
         | _ => throw (generation_error (Template "Invalid response for intent: " tag))
         end
   | _ => throw (generation_error (Template "No responses available for intent: " tag))
   end)%method.

(** [generateResponse(query)], with the value [Math.random()] returns. *)
Definition generateResponse (query : JsVal) (random : float) : Method JsVal :=
  try_finally
    (try_catch
       (if negb (truthy query) then ret EMPTY_QUERY_result
        else if negb (is_string query)
        then throw (generation_error (Text "Query must be a string"))
        else
          do matchedIntent <- (λ this, (this, findMatchingIntent this query));
          if negb (truthy matchedIntent)
          then with_metrics (RecordIntentMatch JNull);; ret NO_MATCH_result
          else select_response random matchedIntent)%method
       (λ error,
          with_metrics
            (RecordError (if instanceof_IntentMatchError error then "INTENT_MATCH_ERROR"
                          else "INTERNAL_ERROR")
                         (err_message error));;
          if instanceof_IntentMatchError error then ret INTENT_MATCH_ERROR_result
          else ret INTERNAL_ERROR_result)%method)
    (with_metrics RecordResponseTime).

End Binary64.

(** * The Pattern Scorer as the specification words it *)

(** The definitions of this module follow sections 4.2 and 4.3 of the
    specification, not the code; the properties compare them with the
    code.  A score is a binary64 number, as the specification asks for
    when it wants the coefficients and the normalizer preserved bit for
    bit; a sum adds its terms in their order, and an average is the sum
    over the count.  Where the specification leaves a choice open, the
    reading taken is stated at the definition. *)
Module PatternScorer.
Import PrimFloat Number.

(** [editDistance]: the classic recurrence with unit costs, on the two
    strings read from the left. *)
Fixpoint editDistance (a : list ascii) : list ascii → nat :=
  match a with
  | [] => λ b, length b
  | c :: a' =>
      fix against (b : list ascii) : nat :=
        match b with
        | [] => length a
        | d :: b' =>
            Nat.min (Nat.min (editDistance a' b + 1) (against b' + 1))
                    (editDistance a' b' + (if decide (c = d) then 0 else 1))
        end
  end.

Local Open Scope float_scope.

(** [similarity]: [1.0] when both strings are empty, [0.0] when one of
    them is, [1 - editDistance(a,b)/max(len(a),len(b))] otherwise. *)
Definition similarity (a b : string) : float :=
  match a, b with
  | EmptyString, EmptyString => 1
  | EmptyString, _ | _, EmptyString => 0
  | _, _ =>
      1 - of_nat (editDistance (JsString.chars a) (JsString.chars b))
          / of_nat (Nat.max (String.length a) (String.length b))
  end.

(** A normalized string: lower-cased and trimmed. *)
Definition normalized (s : string) : string := JsString.trim (JsString.toLowerCase s).

(** The pieces of a string between its white-space characters. *)
Fixpoint pieces (s : string) : list string :=
  match s with
  | EmptyString => [EmptyString]
  | String c s' =>
      if JsString.is_white_space c then EmptyString :: pieces s'
      else match pieces s' with
           | piece :: rest => String c piece :: rest
           | [] => [String c EmptyString]
           end
  end.

(** The whitespace-delimited word sequence of a string. *)
Definition word_sequence (s : string) : list string :=
  List.filter (λ piece, negb (String.eqb piece "")) (pieces s).

Definition maximum (l : list float) : float := fold_left Math_max l 0.

Definition sum (l : list float) : float := fold_left add l 0.

Definition exactMatchScore (normalizedQuery normalizedPattern : string) : float :=
  if decide (normalizedQuery = normalizedPattern) then 1 else 0.

(** The best similarity of a query word against any pattern word. *)
Definition bestSimilarity (queryWord : string) (patternWords : list string) : float :=
  maximum (map (similarity queryWord) patternWords).

(** A query word matches a pattern word when its best similarity
    exceeds [0.6]. *)
Definition has_match (queryWord : string) (patternWords : list string) : bool :=
  (0.6 <? bestSimilarity queryWord patternWords).

(** The average over the query words of their best similarity. *)
Definition wordSimilarityScore (queryWords patternWords : list string) : float :=
  sum (map (λ queryWord, bestSimilarity queryWord patternWords) queryWords)
  / of_nat (length queryWords).

Definition matchedWordCount (queryWords patternWords : list string) : nat :=
  length (List.filter (λ queryWord, has_match queryWord patternWords) queryWords).

Definition matchedWordCoverage (queryWords patternWords : list string) : float :=
  of_nat (matchedWordCount queryWords patternWords)
  / of_nat (Nat.max (length queryWords) (length patternWords)).

(** The pattern word a query word with a match is matched with, and
    its index.  The specification says "some pattern word"; it is read
    as the first pattern word whose similarity to the query word is the
    best similarity. *)
Definition matched_word (queryWord : string) (patternWords : list string)
  : option (nat * string) :=
  if has_match queryWord patternWords
  then list_find (λ patternWord,
                    (similarity queryWord patternWord
                     =? bestSimilarity queryWord patternWords) = true)
         patternWords
  else None.

(** The matched word pairs, in the order of the query words: the query
    word and the pattern word, each with its index. *)
Definition matched_pairs (queryWords patternWords : list string)
  : list ((nat * string) * (nat * string)) :=
  omap (λ queryWord, pair queryWord <$> matched_word queryWord.2 patternWords)
       (imap pair queryWords).

(** [1 - |i-j| / max(queryLen, patternLen)] *)
Definition positionScore (longest : nat) (matched : (nat * string) * (nat * string)) : float :=
  1 - of_nat (Z.abs_nat (Z.of_nat matched.1.1 - Z.of_nat matched.2.1)) / of_nat longest.

Definition contains_keyword (keywords : list string) (word : string) : bool :=
  existsb (JsString.includes word) keywords.

(** Either the query word or the matched pattern word contains a
    keyword. *)
Definition has_keyword (keywords : list string) (matched : (nat * string) * (nat * string))
  : bool :=
  contains_keyword keywords matched.1.2 || contains_keyword keywords matched.2.2.

(** The average position score of the matched pairs ([0] if there is
    none), plus [0.2] for each pair with a keyword, clamped to at most
    [1.0]. *)
Definition wordOrderScore (keywords : list string) (queryWords patternWords : list string)
  : float :=
  let pairs := matched_pairs queryWords patternWords in
  let longest := Nat.max (length queryWords) (length patternWords) in
  let average :=
    match pairs with
    | [] => 0
    | _ => sum (map (positionScore longest) pairs) / of_nat (length pairs)
    end in
  let bonus := of_nat (length (List.filter (has_keyword keywords) pairs)) * 0.2 in
  Math_min 1 (average + bonus).

Definition patternScore (keywords : list string) (query pattern : string) : float :=
  let normalizedQuery := normalized query in
  let normalizedPattern := normalized pattern in
  let queryWords := word_sequence normalizedQuery in
  let patternWords := word_sequence normalizedPattern in
  (exactMatchScore normalizedQuery normalizedPattern * 1.0
   + wordSimilarityScore queryWords patternWords * 0.7
   + wordOrderScore keywords queryWords patternWords * 0.6
   + matchedWordCoverage queryWords patternWords * 0.9)
  / 3.2.

(** The patterns of an intent that are strings. *)
Definition string_patterns (patterns : list JsVal) : list string :=
  omap (λ pattern, match pattern with JStr p => Some p | _ => None end) patterns.

(** The score of an intent: the maximum pattern score over its
    string-typed patterns. *)
Definition intentScore (keywords : list string) (query : string) (patterns : list JsVal)
  : float :=
  maximum (map (patternScore keywords query) (string_patterns patterns)).

(** The score of a catalog entry. *)
Definition score (keywords : list string) (query : string) (intent : JsVal) : float :=
  match get_prop intent "patterns" with
  | Normal (JArr patterns) => intentScore keywords query patterns
  | _ => 0
  end.

(** [e], at index [i], is the first entry in catalog order with the
    highest score: no entry scores higher, and no entry before it
    scores as much.  The comparisons are those of the numbers. *)
Definition first_with_highest_score (score : JsVal → float) (entries : list JsVal)
    (i : nat) (e : JsVal) : Prop :=
  entries !! i = Some e
  ∧ (∀ e', e' ∈ entries → (score e <? score e') = false)
  ∧ (∀ k e', k < i → entries !! k = Some e' → (score e <=? score e') = false).

(** The acceptance threshold. *)
Definition accepted (score : float) : bool := (0.25 <=? score).
End PatternScorer.

(** The only white space of the string is the space character. *)
Fixpoint spaces_only (s : string) : bool :=
  match s with
  | EmptyString => true
  | String c s' => (negb (JsString.is_white_space c) || Ascii.eqb c " ") && spaces_only s'
  end.

(** A pattern in which the only white space is single or repeated
    spaces between its words: none at its ends, and no other
    white-space character. *)
Definition plain_pattern (pattern : string) : bool :=
  spaces_only pattern && String.eqb (JsString.trim pattern) pattern.

(** A word as the scorer compares it: not empty, and in lower case. *)
Definition scorer_word (word : string) : Prop :=
  word ≠ "" ∧ JsString.toLowerCase word = word.

(** The patterns of the entry that are strings are plain. *)
Definition plain_patterns (intent : JsVal) : bool :=
  match get_prop intent "patterns" with
  | Normal (JArr patterns) =>
      forallb (λ pattern, match pattern with JStr p => plain_pattern p | _ => true end)
        patterns
  | _ => true
  end.

(** The string patterns of the installed catalog are plain. *)
Definition plain_catalog (this : Service) : bool :=
  match intents this with
  | JArr entries => forallb plain_patterns entries
  | _ => true
  end.

(** ** Notions used in the statements *)

(** An entry the validation loop accepts: an object with a truthy [tag]
    whose [patterns] and [responses] are arrays. *)
Definition well_formed_intent (intent : JsVal) : Prop :=
  ∃ tag patterns responses,
    get_prop intent "tag" = Normal tag ∧ truthy tag = true
    ∧ get_prop intent "patterns" = Normal (JArr patterns)
    ∧ get_prop intent "responses" = Normal (JArr responses).

(** An entry one of whose required properties is missing or falsy. *)
Definition missing_required_property (intent : JsVal) : Prop :=
  ∃ tag patterns responses,
    get_prop intent "tag" = Normal tag
    ∧ get_prop intent "patterns" = Normal patterns
    ∧ get_prop intent "responses" = Normal responses
    ∧ (truthy tag = false ∨ truthy patterns = false ∨ truthy responses = false).

(** The catalog is empty or missing: [this.intents] is not a non-empty array. *)
Definition no_intents_available (this : Service) : Prop :=
  ∀ entries, intents this = JArr entries → entries = [].

(** The score of a catalog entry against the query: the result of the
    loop over its patterns. *)
Definition entry_score (normalizedQuery : string) (queryWords : list string)
    (intent : JsVal) : Q :=
  match get_prop intent "patterns" with
  | Normal (JArr patterns) => intentScore normalizedQuery queryWords patterns
  | _ => 0
  end.

(** A response entry the facade accepts: a string that is not blank. *)
Definition valid_response (v : JsVal) : Prop :=
  ∃ response, v = JStr response ∧ JsString.trim response ≠ "".

(** ** Sample data *)

Definition intent_entry (tag : string) (patterns responses : list JsVal) : JsVal :=
  JObj [("tag", JStr tag); ("patterns", JArr patterns); ("responses", JArr responses)].

Definition catalog_of (entries : list JsVal) : JsVal := JObj [("intents", JArr entries)].

(** The service object as the constructor leaves it before loading. *)
Definition fresh_service : Service := mkService (JArr []) false [].

(** The three-intent catalog of the test suite. *)
Definition sample_intents : list JsVal :=
  [ intent_entry "Cuts"
      [JStr "What to do if Cuts?"; JStr "How to cure Cuts?"; JStr "cuts treatment"]
      [JStr "Clean the cut and apply pressure to stop bleeding."];
    intent_entry "Fever"
      [JStr "How do you treat a mild Fever?"; JStr "what to do if i get a mild fever?";
       JStr "fever treatment"]
      [JStr "Take rest and drink plenty of fluids.";
       JStr "Stay hydrated and monitor temperature."];
    intent_entry "Headache"
      [JStr "how to cure headache"; JStr "headache treatment"; JStr "head pain relief"]
      [JStr "Take ibuprofen for pain relief"] ].

Definition sample_service : Service := mkService (JArr sample_intents) false [].

(** An entry whose pattern has a space at each end, and one whose
    pattern has none. *)
Definition padded_entry : JsVal := intent_entry "Padded" [JStr " cuts "] [JStr "Clean it."].

Definition unpadded_entry : JsVal := intent_entry "Unpadded" [JStr "cuts"] [JStr "Clean it."].

(** ** Further notions used in the statements *)

(** What the inner loop has found after [k] pattern words. *)
Definition best_so_far (queryWord : string) (patternWords : list string)
    (k : nat) (st : Q * Z) : Prop :=
  (st = (0%Q, (-1)%Z)
   ∧ ∀ i w, i < k → patternWords !! i = Some w →
            (_calculateStringSimilarity queryWord w <= 0)%Q)
  ∨ ∃ j w,
      j < k ∧ patternWords !! j = Some w
      ∧ st = (_calculateStringSimilarity queryWord w, Z.of_nat j)
      ∧ (∀ i w', i < k → patternWords !! i = Some w' →
                 (_calculateStringSimilarity queryWord w'
                  <= _calculateStringSimilarity queryWord w)%Q)
      ∧ (∀ i w', i < j → patternWords !! i = Some w' →
                 (_calculateStringSimilarity queryWord w'
                  < _calculateStringSimilarity queryWord w)%Q).

(** The service object once the metrics collaborator, if there is one,
    has recorded [events]. *)
Definition after_recording (this : Service) (events : list Event) : Service :=
  mkService (intents this) (metrics this)
    (if metrics this then trace this ++ events else trace this).

(** Every entry of the installed catalog has a non-empty array of valid
    responses, as the catalog format has it. *)
Definition catalog_responses_are_valid (this : Service) : Prop :=
  ∀ entries e,
    intents this = JArr entries → e ∈ entries →
    ∃ responses,
      get_prop e "responses" = Normal (JArr responses)
      ∧ responses ≠ [] ∧ Forall valid_response responses.

(** ** Chat history *)

(** The values [JSON.parse] returns. *)
#[warnings="-register-all"] Inductive Json : Type :=
| JsonNull
| JsonBool (b : bool)
| JsonNum (q : Q)
| JsonStr (s : string)
| JsonArr (elems : list Json)
| JsonObj (props : list (string * Json)).

Fixpoint of_json (j : Json) : JsVal :=
  match j with
  | JsonNull => JNull
  | JsonBool b => JBool b
  | JsonNum q => JNum q
  | JsonStr s => JStr s
  | JsonArr elems => JArr (map of_json elems)
  | JsonObj props => JObj (map (λ '(key, v), (key, of_json v)) props)
  end.

(** What the chat-history methods catch: the [SyntaxError] of
    [JSON.parse], a [DOMException] of the storage, or an error of the
    service's own code. *)
Inductive Thrown : Type :=
| SyntaxError (message : Message)
| DOMException (name : string) (message : Message)
| Raised (error : JsError).

(** [error.message] *)
Definition message_of (error : Thrown) : Message :=
  match error with
  | SyntaxError message => message
  | DOMException _ message => message
  | Raised error => err_message error
  end.

(** The platform's [JSON] object.  [JSON_parse] returns the value, or
    the message of the [SyntaxError] it throws; [JSON_stringify] is
    applied to arrays only, so that it returns a string or throws. *)
Class JSON : Type := {
  JSON_parse : string → Json + Message;
  JSON_stringify : JsVal → Outcome string
}.

(** The globals the methods use: the items of [localStorage] and the
    calls made to [console.error]; and what the platform decides about
    the storage: [storage_denied] is the message of the [SecurityError]
    that reading [localStorage] throws when the page may not use the
    storage, and [storage_full items] is the message of the
    [QuotaExceededError] that [setItem] throws when the storage would
    hold [items]. *)
Record Browser : Type := Build_Browser {
  localStorage : gmap string string;
  console : list (string * Thrown);
  storage_denied : option Message;
  storage_full : gmap string string → option Message
}.

(** A browser whose storage may be used and is never full. *)
Definition mkBrowser (items : gmap string string) (calls : list (string * Thrown))
  : Browser :=
  Build_Browser items calls None (λ _, None).

Definition set_localStorage (items : gmap string string) (env : Browser) : Browser :=
  Build_Browser items (console env) (storage_denied env) (storage_full env).

Definition CHAT_HISTORY_KEY : string := "medical_chatbot_history".

Definition MAX_HISTORY_LENGTH : nat := 50.

(** Statements of a [try] block. *)
Definition Script (A : Type) : Type := Browser → Browser * (A + Thrown).

Definition sbind {A B : Type} (m : Script A) (k : A → Script B) : Script B :=
  λ env, match m env with
         | (env', inl a) => k a env'
         | (env', inr error) => (env', inr error)
         end.

Declare Scope script_scope.
Delimit Scope script_scope with script.
Notation "'do' x <- m ; k" := (sbind m (λ x, k))
  (at level 10, x name, m at level 100, k at level 200) : script_scope.
Notation "m ;; k" := (sbind m (λ _, k))
  (at level 100, k at level 200, right associativity) : script_scope.

(** Reading the global [localStorage]. *)
Definition the_localStorage : Script unit :=
  λ env, match storage_denied env with
         | Some reason => (env, inr (DOMException "SecurityError" reason))
         | None => (env, inl tt)
         end.

(** [getItem(key)] of the storage: [None] is [null]. *)
Definition getItem (key : string) : Script (option string) :=
  λ env, (env, inl (localStorage env !! key)).

(** [setItem(key, value)] of the storage *)
Definition setItem (key value : string) : Script unit :=
  λ env, match storage_full env (<[key := value]> (localStorage env)) with
         | Some reason => (env, inr (DOMException "QuotaExceededError" reason))
         | None => (set_localStorage (<[key := value]> (localStorage env)) env, inl tt)
         end.

(** [removeItem(key)] of the storage *)
Definition removeItem (key : string) : Script unit :=
  λ env, (set_localStorage (delete key (localStorage env)) env, inl tt).

(** A call of a method of the service, or of a built-in that throws an
    error of the service's error classes. *)
Definition call {A : Type} (m : Browser → Browser * Outcome A) : Script A :=
  λ env, match m env with
         | (env', Normal a) => (env', inl a)
         | (env', Throw error) => (env', inr (Raised error))
         end.

Definition console_error (label : string) (error : Thrown) (env : Browser) : Browser :=
  Build_Browser (localStorage env) (console env ++ [(label, error)])
    (storage_denied env) (storage_full env).

(** [console.error(label, error);
    throw new ChatHistoryError(prefix + error.message);] *)
Definition rethrown {A : Type} (label prefix : string) (error : Thrown)
  : Browser → Browser * Outcome A :=
  λ env, (console_error label error env,
          Throw (mkError ChatHistoryError (prepend prefix (message_of error)))).

(** [try { body } catch (error) { console.error(label, error);
    throw new ChatHistoryError(prefix + error.message); }] *)
Definition guarded {A : Type} (body : Script A) (label prefix : string)
  : Browser → Browser * Outcome A :=
  λ env, match body env with
         | (env', inl a) => (env', Normal a)
         | (env', inr error) => rethrown label prefix error env'
         end.

(** [history.push(message)], giving the elements of the array after the
    call. *)
Definition push (history : Json) (message : JsVal) : Outcome (list JsVal) :=
  match history with
  | JsonArr elems => Normal (map of_json elems ++ [message])
  | JsonNull =>
      Throw (mkError TypeError (Text "Cannot read properties of null (reading 'push')"))
  | _ => Throw (mkError TypeError (Text "history.push is not a function"))
  end.

(** [history.slice(-n)] *)
Definition slice_from_end {A : Type} (n : nat) (history : list A) : list A :=
  drop (length history - n) history.

Section ChatHistory.
Context `{JSON}.

Definition loadChatHistory : Browser → Browser * Outcome Json :=
  guarded
    (the_localStorage;;
     do history <- getItem CHAT_HISTORY_KEY;
     match history with
     | Some text =>
         if String.eqb text "" then λ env, (env, inl (JsonArr []))
         else λ env, (env, match JSON_parse text with
                           | inl v => inl v
                           | inr message => inr (SyntaxError message)
                           end)
     | None => λ env, (env, inl (JsonArr []))
     end)%script
    "Error loading chat history:" "Failed to load chat history: ".

Definition saveMessageToHistory (message : JsVal) : Browser → Browser * Outcome unit :=
  guarded
    (do history <- call loadChatHistory;
     do pushed <- call (λ env, (env, push history message));
     let history :=
       if MAX_HISTORY_LENGTH <? length pushed
       then slice_from_end MAX_HISTORY_LENGTH pushed else pushed in
     the_localStorage;;
     do text <- call (λ env, (env, JSON_stringify (JArr history)));
     setItem CHAT_HISTORY_KEY text)%script
    "Error saving message to history:" "Failed to save message to history: ".

Definition clearChatHistory : Browser → Browser * Outcome unit :=
  guarded (the_localStorage;; removeItem CHAT_HISTORY_KEY)%script
    "Error clearing chat history:" "Failed to clear chat history: ".

End ChatHistory.

(** ** The chat window: the messages shown at first *)

(** [a === b] for two values read from different messages of a parsed
    history: no two of them are the same object. *)
Definition strict_equal (a b : JsVal) : bool :=
  match a, b with
  | JUndefined, JUndefined => true
  | JNull, JNull => true
  | JBool x, JBool y => Bool.eqb x y
  | JNum x, JNum y => Qeq_bool x y
  | JStr x, JStr y => String.eqb x y
  | _, _ => false
  end.

(** [m.timestamp === message.timestamp && m.text === message.text &&
    m.sender === message.sender] *)
Definition same_message (m message : Json) : Outcome bool :=
  (let! a := get_prop (of_json m) "timestamp" in
   let! b := get_prop (of_json message) "timestamp" in
   if strict_equal a b then
     let! a := get_prop (of_json m) "text" in
     let! b := get_prop (of_json message) "text" in
     if strict_equal a b then
       let! a := get_prop (of_json m) "sender" in
       let! b := get_prop (of_json message) "sender" in
       Normal (strict_equal a b)
     else Normal false
   else Normal false)%outcome.

(** [acc.some(m => ...)] *)
Fixpoint isDuplicate (acc : list Json) (message : Json) : Outcome bool :=
  match acc with
  | [] => Normal false
  | m :: rest =>
      (let! same := same_message m message in
       if same then Normal true else isDuplicate rest message)%outcome
  end.

(** [history.reduce((acc, message) => ..., acc)] on the elements of an
    array. *)
Fixpoint reduce_unique (elems acc : list Json) : Outcome (list Json) :=
  match elems with
  | [] => Normal acc
  | message :: rest =>
      (let! duplicate := isDuplicate acc message in
       reduce_unique rest (if duplicate then acc else acc ++ [message]))%outcome
  end.

Definition uniqueMessages (history : Json) : Outcome (list Json) :=
  match history with
  | JsonArr elems => reduce_unique elems []
  | JsonNull =>
      Throw (mkError TypeError (Text "Cannot read properties of null (reading 'reduce')"))
  | _ => Throw (mkError TypeError (Text "history.reduce is not a function"))
  end.

(** The effect run when the component is mounted: the browser after it,
    and the argument of [setMessages]. *)
Definition load_messages `{JSON} (env : Browser) : Browser * list Json :=
  match call loadChatHistory env with
  | (env', inl history) =>
      match uniqueMessages history with
      | Normal messages => (env', messages)
      | Throw error => (console_error "Error loading chat history:" (Raised error) env', [])
      end
  | (env', inr error) => (console_error "Error loading chat history:" error env', [])
  end.

(** The messages of [msgs] differ pairwise, for the comparison of the
    component. *)
Definition pairwise_different (msgs : list Json) : Prop :=
  ∀ i j mi mj,
    i < j → msgs !! i = Some mi → msgs !! j = Some mj →
    same_message mi mj = Normal false.

(** ** A [JSON] for the examples *)

(** Integers, strings, arrays and objects in the compact form that
    [JSON.stringify] writes; in a string, only the quotation mark and
    the reverse solidus are escaped. *)
Module SampleJSON.

Definition quotation_mark : ascii := ascii_of_nat 34.

Definition reverse_solidus : ascii := ascii_of_nat 92.

Fixpoint escape (s : string) : string :=
  match s with
  | EmptyString => EmptyString
  | String c rest =>
      if Ascii.eqb c quotation_mark || Ascii.eqb c reverse_solidus
      then String reverse_solidus (String c (escape rest))
      else String c (escape rest)
  end.

Definition quote (s : string) : string :=
  String quotation_mark (escape s +:+ String quotation_mark EmptyString).

Fixpoint join (parts : list string) : string :=
  match parts with
  | [] => ""
  | [part] => part
  | part :: rest => part +:+ "," +:+ join rest
  end.

Fixpoint print (j : Json) : string :=
  match j with
  | JsonNull => "null"
  | JsonBool true => "true"
  | JsonBool false => "false"
  | JsonNum q => pretty (Qnum q)
  | JsonStr s => quote s
  | JsonArr elems => "[" +:+ join (map print elems) +:+ "]"
  | JsonObj props =>
      "{" +:+ join (map (λ '(key, v), quote key +:+ ":" +:+ print v) props) +:+ "}"
  end.

(** The numbers the sample writes are the integers. *)
Fixpoint supported (j : Json) : bool :=
  match j with
  | JsonNum q => Pos.eqb (Qden q) 1
  | JsonArr elems => forallb supported elems
  | JsonObj props => forallb (λ '(_, v), supported v) props
  | _ => true
  end.

(** What is written for a value: nothing for [undefined] and functions,
    which become [null] in an array and are left out of an object. *)
Fixpoint to_json (v : JsVal) : option Json :=
  match v with
  | JUndefined | JFun => None
  | JNull | JNaN => Some JsonNull
  | JBool b => Some (JsonBool b)
  | JNum q => Some (JsonNum q)
  | JStr s => Some (JsonStr s)
  | JArr elems => Some (JsonArr (map (λ e, default JsonNull (to_json e)) elems))
  | JObj props =>
      Some (JsonObj (omap (λ '(key, e), option_map (pair key) (to_json e)) props))
  end.

Definition stringify (v : JsVal) : Outcome string :=
  match to_json v with
  | Some j =>
      if supported j then Normal (print j)
      else Throw (mkError TypeError (Text "Do not know how to serialize a fraction"))
  | None => Throw (mkError TypeError (Text "Do not know how to serialize undefined"))
  end.

(** After the opening quotation mark. *)
Fixpoint parse_string (input : list ascii) : option (string * list ascii) :=
  match input with
  | [] => None
  | c :: rest =>
      if Ascii.eqb c quotation_mark then Some (EmptyString, rest)
      else if Ascii.eqb c reverse_solidus then
        match rest with
        | escaped :: rest' =>
            match parse_string rest' with
            | Some (s, out) => Some (String escaped s, out)
            | None => None
            end
        | [] => None
        end
      else
        match parse_string rest with
        | Some (s, out) => Some (String c s, out)
        | None => None
        end
  end.

Definition digit (c : ascii) : option Z :=
  let n := nat_of_ascii c in
  if (48 <=? n) && (n <=? 57) then Some (Z.of_nat (n - 48)) else None.

Fixpoint parse_digits (acc : Z) (input : list ascii) : Z * list ascii :=
  match input with
  | [] => (acc, [])
  | c :: rest =>
      match digit c with
      | Some d => parse_digits (10 * acc + d)%Z rest
      | None => (acc, input)
      end
  end.

Definition parse_number (input : list ascii) : option (Json * list ascii) :=
  match input with
  | "-"%char :: c :: rest =>
      match digit c with
      | Some d => let '(n, out) := parse_digits d rest in
                  Some (JsonNum (inject_Z (- n)), out)
      | None => None
      end
  | c :: rest =>
      match digit c with
      | Some d => let '(n, out) := parse_digits d rest in
                  Some (JsonNum (inject_Z n), out)
      | None => None
      end
  | [] => None
  end.

Fixpoint parse_value (fuel : nat) (input : list ascii) {struct fuel}
  : option (Json * list ascii) :=
  match fuel with
  | 0 => None
  | S fuel =>
      match input with
      | "n"%char :: "u"%char :: "l"%char :: "l"%char :: out => Some (JsonNull, out)
      | "t"%char :: "r"%char :: "u"%char :: "e"%char :: out => Some (JsonBool true, out)
      | "f"%char :: "a"%char :: "l"%char :: "s"%char :: "e"%char :: out =>
          Some (JsonBool false, out)
      | "["%char :: "]"%char :: out => Some (JsonArr [], out)
      | "["%char :: rest =>
          match parse_elements fuel rest with
          | Some (elems, out) => Some (JsonArr elems, out)
          | None => None
          end
      | "{"%char :: "}"%char :: out => Some (JsonObj [], out)
      | "{"%char :: rest =>
          match parse_members fuel rest with
          | Some (props, out) => Some (JsonObj props, out)
          | None => None
          end
      | c :: rest =>
          if Ascii.eqb c quotation_mark then
            match parse_string rest with
            | Some (s, out) => Some (JsonStr s, out)
            | None => None
            end
          else parse_number input
      | [] => None
      end
  end
with parse_elements (fuel : nat) (input : list ascii) {struct fuel}
  : option (list Json * list ascii) :=
  match fuel with
  | 0 => None
  | S fuel =>
      match parse_value fuel input with
      | Some (v, ","%char :: rest) =>
          match parse_elements fuel rest with
          | Some (elems, out) => Some (v :: elems, out)
          | None => None
          end
      | Some (v, "]"%char :: out) => Some ([v], out)
      | _ => None
      end
  end
with parse_members (fuel : nat) (input : list ascii) {struct fuel}
  : option (list (string * Json) * list ascii) :=
  match fuel with
  | 0 => None
  | S fuel =>
      match input with
      | c :: rest =>
          if Ascii.eqb c quotation_mark then
            match parse_string rest with
            | Some (key, ":"%char :: rest') =>
                match parse_value fuel rest' with
                | Some (v, ","%char :: rest'') =>
                    match parse_members fuel rest'' with
                    | Some (props, out) => Some ((key, v) :: props, out)
                    | None => None
                    end
                | Some (v, "}"%char :: out) => Some ([(key, v)], out)
                | _ => None
                end
            | _ => None
            end
          else None
      | [] => None
      end
  end.

Definition parse (text : string) : Json + Message :=
  match parse_value (S (String.length text)) (String.list_ascii_of_string text) with
  | Some (v, []) => inl v
  | _ => inr (Text "Unexpected token in JSON")
  end.

End SampleJSON.

Definition sample_JSON : JSON :=
  {| JSON_parse := SampleJSON.parse; JSON_stringify := SampleJSON.stringify |}.

Definition chat_message (text sender timestamp : string) : Json :=
  JsonObj [("text", JsonStr text); ("sender", JsonStr sender);
           ("timestamp", JsonStr timestamp)].

Definition sample_history : list Json :=
  [ chat_message "I have a fever" "user" "2024-01-01T10:00:00.000Z";
    chat_message "Take rest and drink plenty of fluids." "bot" "2024-01-01T10:00:01.000Z" ].

(** A browser whose storage holds [history] under the key of the chat
    history, as [saveMessageToHistory] writes it. *)
Definition browser_with (history : list Json) : Browser :=
  mkBrowser {[ CHAT_HISTORY_KEY := SampleJSON.print (JsonArr history) ]} [].

Definition empty_browser : Browser := mkBrowser ∅ [].

(** * Properties *)

(** ** The edit-distance table computes the minimum number of edits *)

Lemma for_loop_invariant {S : Type} (P : nat → S → Prop) count start body (s : S) :
  P start s →
  (∀ k s', start ≤ k < start + count → P k s' → P (Datatypes.S k) (body k s')) →
  P (start + count) (for_loop count start body s).
Proof.
  revert start s. induction count as [|count IH]; intros start s Hs Hstep; simpl.
  - by rewrite Nat.add_0_r.
  - replace (start + Datatypes.S count) with (Datatypes.S start + count) by lia.
    apply IH.
    + apply Hstep; [lia | done].
    + intros k s' Hk. apply Hstep. lia.
Qed.

Module LevenshteinFacts.
Import Levenshtein.
Section WithAlphabet.
Context {A : Type} `{EqDecision A}.
Implicit Types (a b l t : list A) (m : Matrix).

(** *** Reading and writing the table *)

Lemma shape_replicate rows cols : shape rows cols (replicate rows (replicate cols 0)).
Proof.
  split; [by rewrite length_replicate|].
  intros j row Hrow. apply lookup_replicate in Hrow as [-> _].
  by rewrite length_replicate.
Qed.

Lemma shape_mset rows cols m j i v :
  shape rows cols m → shape rows cols (mset m j i v).
Proof.
  intros [Hlen Hrows]. unfold mset.
  destruct (m !! j) as [row|] eqn:Hj; [|done].
  split; [by rewrite length_insert|].
  intros j' row' Hrow'.
  destruct (decide (j = j')) as [<-|Hne].
  - rewrite list_lookup_insert_eq in Hrow' by (by eapply lookup_lt_Some).
    injection Hrow' as <-. rewrite length_insert. by eapply Hrows.
  - rewrite list_lookup_insert_ne in Hrow' by done. by eapply Hrows.
Qed.

Lemma mget_mset_eq rows cols m j i v :
  shape rows cols m → j < rows → i < cols → mget (mset m j i v) j i = v.
Proof.
  intros [Hlen Hrows] Hj Hi. unfold mget, mset.
  destruct (m !! j) as [row|] eqn:Hrow.
  - rewrite list_lookup_insert_eq by lia. simpl.
    rewrite list_lookup_insert_eq; [done|]. by rewrite (Hrows _ _ Hrow).
  - apply lookup_ge_None in Hrow. lia.
Qed.

Lemma mget_mset_ne m j i v j' i' :
  (j, i) ≠ (j', i') → mget (mset m j i v) j' i' = mget m j' i'.
Proof.
  intros Hne. unfold mget, mset.
  destruct (m !! j) as [row|] eqn:Hrow; [|done].
  destruct (decide (j = j')) as [<-|Hj].
  - rewrite list_lookup_insert_eq by (by eapply lookup_lt_Some).
    rewrite Hrow. simpl.
    rewrite list_lookup_insert_ne; [done|]. congruence.
  - by rewrite list_lookup_insert_ne.
Qed.

(** *** The recurrence *)

Lemma cell_0 a b i : cell a b 0 i = i.
Proof. done. Qed.

Lemma cell_S_0 a b j : cell a b (Datatypes.S j) 0 = Datatypes.S j.
Proof. done. Qed.

Lemma cell_col0 a b j : cell a b j 0 = j.
Proof. by destruct j. Qed.

Lemma cell_S_S a b j i :
  cell a b (Datatypes.S j) (Datatypes.S i) =
  Nat.min (Nat.min (cell a b (Datatypes.S j) i + 1) (cell a b j (Datatypes.S i) + 1))
          (cell a b j i + substitutionCost a b (Datatypes.S i) (Datatypes.S j)).
Proof. done. Qed.

Lemma substitutionCost_le_1 a b i j : substitutionCost a b i j ≤ 1.
Proof. unfold substitutionCost. case_decide; lia. Qed.

Lemma cell_le_max a b j i : cell a b j i ≤ Nat.max i j.
Proof.
  revert i. induction j as [|j IHj]; intros i; [rewrite cell_0; lia|].
  induction i as [|i IHi]; [rewrite cell_S_0; lia|].
  rewrite cell_S_S. specialize (IHj i).
  pose proof (substitutionCost_le_1 a b (Datatypes.S i) (Datatypes.S j)). lia.
Qed.

(** *** The loops fill the table with the recurrence *)

Lemma fill_cell_spec a b rows cols m j i :
  shape rows cols m → Datatypes.S j < rows → Datatypes.S i < cols →
  mget m (Datatypes.S j) i = cell a b (Datatypes.S j) i →
  mget m j (Datatypes.S i) = cell a b j (Datatypes.S i) →
  mget m j i = cell a b j i →
  mget (fill_cell a b (Datatypes.S j) (Datatypes.S i) m) (Datatypes.S j) (Datatypes.S i)
  = cell a b (Datatypes.S j) (Datatypes.S i).
Proof.
  intros Hshape Hj Hi Hleft Hup Hdiag. unfold fill_cell.
  rewrite (mget_mset_eq rows cols) by done.
  rewrite cell_S_S. simpl. rewrite !Nat.sub_0_r.
  by rewrite Hleft, Hup, Hdiag.
Qed.

Lemma fill_table_spec a b :
  shape (length b + 1) (length a + 1) (fill_table a b) ∧
  ∀ j i, j ≤ length b → i ≤ length a → mget (fill_table a b) j i = cell a b j i.
Proof.
  unfold fill_table.
  set (rows := length b + 1). set (cols := length a + 1).
  set (m0 := replicate rows (replicate cols 0)).
  (* first row *)
  set (m1 := for_loop cols 0 _ m0).
  assert (shape rows cols m1 ∧ ∀ i, i < 0 + cols → mget m1 0 i = i) as [Hs1 Hrow0].
  { subst m1. apply (for_loop_invariant
      (λ k m, shape rows cols m ∧ ∀ i, i < k → mget m 0 i = i)).
    - split; [apply shape_replicate | lia].
    - intros k m Hk [Hs Hm]. split; [by apply shape_mset|].
      intros i Hi. destruct (decide (i = k)) as [->|Hne].
      + apply (mget_mset_eq rows cols); [done | unfold rows; lia | lia].
      + rewrite mget_mset_ne by congruence. apply Hm. lia. }
  (* first column *)
  set (m2 := for_loop rows 0 _ m1).
  assert (shape rows cols m2 ∧ (∀ i, i < cols → mget m2 0 i = i)
          ∧ ∀ j, j < 0 + rows → mget m2 j 0 = j) as (Hs2 & Hrow0' & Hcol0).
  { subst m2. apply (for_loop_invariant
      (λ k m, shape rows cols m ∧ (∀ i, i < cols → mget m 0 i = i)
              ∧ ∀ j, j < k → mget m j 0 = j)).
    - split; [done|]. split; [intros; apply Hrow0; lia | lia].
    - intros k m Hk (Hs & Hr & Hc). split; [by apply shape_mset|]. split.
      + intros i Hi. destruct (decide ((k, 0) = (0, i))) as [Heq|Hne].
        * injection Heq as -> <-.
          apply (mget_mset_eq rows cols); [done | lia | unfold cols; lia].
        * rewrite mget_mset_ne by done. by apply Hr.
      + intros j Hj. destruct (decide (j = k)) as [->|Hne].
        * apply (mget_mset_eq rows cols); [done | lia | unfold cols; lia].
        * rewrite mget_mset_ne by congruence. apply Hc. lia. }
  (* the remaining rows, one at a time *)
  set (m3 := for_loop (length b) 1 _ m2).
  assert (shape rows cols m3 ∧ (∀ j, j < rows → mget m3 j 0 = j)
          ∧ ∀ j i, j < 1 + length b → i < cols → mget m3 j i = cell a b j i)
    as (Hs3 & _ & Hall).
  { subst m3. apply (for_loop_invariant
      (λ k m, shape rows cols m ∧ (∀ j, j < rows → mget m j 0 = j)
              ∧ ∀ j i, j < k → i < cols → mget m j i = cell a b j i)).
    - split; [done|]. split; [intros; apply Hcol0; lia|].
      intros j i Hj Hi. replace j with 0 by lia. rewrite cell_0. by apply Hrow0'.
    - intros j m Hj (Hs & Hc & Hdone).
      assert (shape rows cols (for_loop (length a) 1 (fill_cell a b j) m)
              ∧ (∀ j', j' < rows → mget (for_loop (length a) 1 (fill_cell a b j) m) j' 0 = j')
              ∧ (∀ j' i, j' < j → i < cols →
                   mget (for_loop (length a) 1 (fill_cell a b j) m) j' i = cell a b j' i)
              ∧ ∀ i, i < 1 + length a →
                   mget (for_loop (length a) 1 (fill_cell a b j) m) j i = cell a b j i)
        as (Hs' & Hc' & Hdone' & Hrow).
      { apply (for_loop_invariant
          (λ k m', shape rows cols m' ∧ (∀ j', j' < rows → mget m' j' 0 = j')
                   ∧ (∀ j' i, j' < j → i < cols → mget m' j' i = cell a b j' i)
                   ∧ ∀ i, i < k → mget m' j i = cell a b j i)).
        - split; [done|]. split; [done|]. split; [done|].
          intros i Hi. replace i with 0 by lia. rewrite cell_col0.
          apply Hc. unfold rows. lia.
        - intros i m' Hi (Hs' & Hc' & Hdone' & Hrow).
          split; [by apply shape_mset|]. split; [|split].
          + intros j' Hj'. unfold fill_cell. rewrite mget_mset_ne; [by apply Hc'|].
            intros [= _ ->]. lia.
          + intros j' i' Hj' Hi'. unfold fill_cell.
            rewrite mget_mset_ne; [by apply Hdone'|]. intros [= -> _]. lia.
          + intros i' Hi'. destruct (decide (i' = i)) as [->|Hne].
            * destruct j as [|j0]; [lia|]. destruct i as [|i0]; [lia|].
              apply (fill_cell_spec a b rows cols); try done.
              -- unfold rows. lia.
              -- unfold cols. lia.
              -- apply Hrow. lia.
              -- apply Hdone'; [lia | unfold cols; lia].
              -- apply Hdone'; [lia | unfold cols; lia].
            * unfold fill_cell. rewrite mget_mset_ne by congruence. apply Hrow. lia. }
      split; [done|]. split; [done|].
      intros j' i Hj' Hi. destruct (decide (j' = j)) as [->|Hne].
      + apply Hrow. unfold cols in Hi. lia.
      + apply Hdone'; [lia | done]. }
  split; [done|].
  intros j i Hj Hi. apply Hall; [lia | unfold cols; lia].
Qed.

Lemma distance_is_cell a b :
  _calculateLevenshteinDistance a b = cell a b (length b) (length a).
Proof. unfold _calculateLevenshteinDistance. by apply fill_table_spec. Qed.

(** *** The recurrence is the cheapest alignment of the prefixes *)

Lemma align_nil_r a : align a [] (length a).
Proof. induction a; simpl; [constructor | by apply align_delete]. Qed.

Lemma align_nil_l b : align [] b (length b).
Proof. induction b; simpl; [constructor | by apply align_insert]. Qed.

Lemma align_refl a : align a a 0.
Proof. induction a; [constructor | by apply align_keep]. Qed.

Lemma align_length_l a n : align a [] n → n = length a.
Proof.
  revert n. induction a as [|c a IH]; intros n Hal; inversion Hal; subst; simpl; [done|].
  f_equal. by apply IH.
Qed.

Lemma align_length_r b n : align [] b n → n = length b.
Proof.
  revert n. induction b as [|d b IH]; intros n Hal; inversion Hal; subst; simpl; [done|].
  f_equal. by apply IH.
Qed.

Lemma substitutionCost_lookup a b i j x y :
  a !! i = Some x → b !! j = Some y →
  substitutionCost a b (Datatypes.S i) (Datatypes.S j) = if decide (x = y) then 0 else 1.
Proof.
  intros Hx Hy. unfold substitutionCost. simpl. rewrite !Nat.sub_0_r, Hx, Hy.
  repeat case_decide; congruence.
Qed.

Lemma cell_cheapest a b j i :
  j ≤ length b → i ≤ length a →
  cheapest_alignment (reverse (take i a)) (reverse (take j b)) (cell a b j i).
Proof.
  revert i. induction j as [|j IHj]; intros i Hj Hi.
  { rewrite cell_0, take_0. replace (reverse (@nil A)) with (@nil A) by done.
    split.
    - replace i with (length (reverse (take i a))) at 2
        by (rewrite length_reverse, length_take; lia).
      apply align_nil_r.
    - intros k Hk. apply align_length_l in Hk.
      rewrite length_reverse, length_take in Hk. lia. }
  induction i as [|i IHi].
  { rewrite cell_S_0, take_0. replace (reverse (@nil A)) with (@nil A) by done.
    split.
    - replace (Datatypes.S j) with (length (reverse (take (Datatypes.S j) b))) at 2
        by (rewrite length_reverse, length_take; lia).
      apply align_nil_l.
    - intros k Hk. apply align_length_r in Hk.
      rewrite length_reverse, length_take in Hk. lia. }
  destruct (lookup_lt_is_Some_2 a i) as [x Hx]; [lia|].
  destruct (lookup_lt_is_Some_2 b j) as [y Hy]; [lia|].
  rewrite (take_S_r a i x), (take_S_r b j y), !reverse_snoc by done.
  destruct (IHi ltac:(lia)) as [Hleft Hleft_min].
  rewrite (take_S_r b j y), reverse_snoc in Hleft, Hleft_min by done.
  destruct (IHj (Datatypes.S i) ltac:(lia) ltac:(lia)) as [Hup Hup_min].
  rewrite (take_S_r a i x), reverse_snoc in Hup, Hup_min by done.
  destruct (IHj i ltac:(lia) ltac:(lia)) as [Hdiag Hdiag_min].
  rewrite cell_S_S, (substitutionCost_lookup a b i j x y) by done.
  split.
  - destruct (Nat.min_spec
                (Nat.min (cell a b (Datatypes.S j) i + 1) (cell a b j (Datatypes.S i) + 1))
                (cell a b j i + if decide (x = y) then 0 else 1)) as [[_ ->]|[_ ->]].
    + destruct (Nat.min_spec (cell a b (Datatypes.S j) i + 1)
                             (cell a b j (Datatypes.S i) + 1)) as [[_ ->]|[_ ->]];
        rewrite Nat.add_1_r.
      * by apply align_delete.
      * by apply align_insert.
    + case_decide as Hxy.
      * subst y. rewrite Nat.add_0_r. by apply align_keep.
      * rewrite Nat.add_1_r. by apply align_subst.
  - intros k Hk. inversion Hk as [|? ? ? ? Hal|? ? ? ? ? Hal|? ? ? ? Hal|? ? ? ? Hal]; subst.
    + apply Hdiag_min in Hal. rewrite decide_True by done. lia.
    + apply Hdiag_min in Hal. case_decide; lia.
    + apply Hleft_min in Hal. lia.
    + apply Hup_min in Hal. lia.
Qed.

(** *** Alignments and sequences of single edits *)

Lemma edit1_cons c a b : edit1 a b → edit1 (c :: a) (c :: b).
Proof.
  intros [pre d post|pre d post|pre d e post].
  - apply (edit1_insert (c :: pre)).
  - apply (edit1_delete (c :: pre)).
  - apply (edit1_subst (c :: pre)).
Qed.

Lemma edits_cons c n a b : edits n a b → edits n (c :: a) (c :: b).
Proof.
  induction 1 as [|n a b b' Hstep _ IH]; [constructor|].
  eapply edits_step; [by apply edit1_cons | done].
Qed.

Lemma align_edits a b n : align a b n → edits n a b.
Proof.
  induction 1 as [|c a b n _ IH|c d a b n _ IH|c a b n _ IH|d a b n _ IH].
  - constructor.
  - by apply edits_cons.
  - eapply edits_step; [apply (edit1_subst [] c d) | by apply edits_cons].
  - eapply edits_step; [apply (edit1_delete [] c) | done].
  - eapply edits_step; [apply (edit1_insert [] d) | by apply edits_cons].
Qed.

(** Undoing one edit of the source string costs at most one more. *)
Lemma align_after_insert l t n x post :
  align l t n → ∀ pre, l = pre ++ x :: post →
  ∃ k, k ≤ Datatypes.S n ∧ align (pre ++ post) t k.
Proof.
  induction 1 as [|e a b n Hal IH|e d a b n Hal IH|e a b n Hal IH|d a b n Hal IH];
    intros pre Heq.
  - by destruct pre.
  - destruct pre as [|p pre]; simplify_eq/=.
    + exists (Datatypes.S n). split; [lia | by apply align_insert].
    + destruct (IH pre eq_refl) as (k & Hk & Hal').
      exists k. split; [lia | by apply align_keep].
  - destruct pre as [|p pre]; simplify_eq/=.
    + exists (Datatypes.S n). split; [lia | by apply align_insert].
    + destruct (IH pre eq_refl) as (k & Hk & Hal').
      exists (Datatypes.S k). split; [lia | by apply align_subst].
  - destruct pre as [|p pre]; simplify_eq/=.
    + exists n. split; [lia | done].
    + destruct (IH pre eq_refl) as (k & Hk & Hal').
      exists (Datatypes.S k). split; [lia | by apply align_delete].
  - destruct (IH pre Heq) as (k & Hk & Hal').
    exists (Datatypes.S k). split; [lia | by apply align_insert].
Qed.

Lemma align_after_delete l t n x post :
  align l t n → ∀ pre, l = pre ++ post →
  ∃ k, k ≤ Datatypes.S n ∧ align (pre ++ x :: post) t k.
Proof.
  induction 1 as [|e a b n Hal IH|e d a b n Hal IH|e a b n Hal IH|d a b n Hal IH];
    intros pre Heq.
  - destruct pre, post; simplify_eq/=.
    exists 1. split; [lia | apply align_delete; constructor].
  - destruct pre as [|p pre]; simplify_eq/=.
    + exists (Datatypes.S n). split; [lia | by apply align_delete, align_keep].
    + destruct (IH pre eq_refl) as (k & Hk & Hal').
      exists k. split; [lia | by apply align_keep].
  - destruct pre as [|p pre]; simplify_eq/=.
    + exists (Datatypes.S (Datatypes.S n)). split; [lia | by apply align_delete, align_subst].
    + destruct (IH pre eq_refl) as (k & Hk & Hal').
      exists (Datatypes.S k). split; [lia | by apply align_subst].
  - destruct pre as [|p pre]; simplify_eq/=.
    + exists (Datatypes.S (Datatypes.S n)). split; [lia | by apply align_delete, align_delete].
    + destruct (IH pre eq_refl) as (k & Hk & Hal').
      exists (Datatypes.S k). split; [lia | by apply align_delete].
  - destruct (IH pre Heq) as (k & Hk & Hal').
    exists (Datatypes.S k). split; [lia | by apply align_insert].
Qed.

Lemma align_after_subst l t n x y post :
  align l t n → ∀ pre, l = pre ++ y :: post →
  ∃ k, k ≤ Datatypes.S n ∧ align (pre ++ x :: post) t k.
Proof.
  induction 1 as [|e a b n Hal IH|e d a b n Hal IH|e a b n Hal IH|d a b n Hal IH];
    intros pre Heq.
  - by destruct pre.
  - destruct pre as [|p pre]; simplify_eq/=.
    + exists (Datatypes.S n). split; [lia | by apply align_subst].
    + destruct (IH pre eq_refl) as (k & Hk & Hal').
      exists k. split; [lia | by apply align_keep].
  - destruct pre as [|p pre]; simplify_eq/=.
    + exists (Datatypes.S n). split; [lia | by apply align_subst].
    + destruct (IH pre eq_refl) as (k & Hk & Hal').
      exists (Datatypes.S k). split; [lia | by apply align_subst].
  - destruct pre as [|p pre]; simplify_eq/=.
    + exists (Datatypes.S n). split; [lia | by apply align_delete].
    + destruct (IH pre eq_refl) as (k & Hk & Hal').
      exists (Datatypes.S k). split; [lia | by apply align_delete].
  - destruct (IH pre Heq) as (k & Hk & Hal').
    exists (Datatypes.S k). split; [lia | by apply align_insert].
Qed.

Lemma align_after_edit a b t n :
  edit1 a b → align b t n → ∃ k, k ≤ Datatypes.S n ∧ align a t k.
Proof.
  intros [pre x post|pre x post|pre x y post] Hal.
  - by eapply align_after_insert.
  - by eapply align_after_delete.
  - by eapply align_after_subst.
Qed.

Lemma edits_align n a b : edits n a b → ∃ k, k ≤ n ∧ align a b k.
Proof.
  induction 1 as [a|n a b c Hstep _ (k & Hk & Hal)].
  - exists 0. split; [done | apply align_refl].
  - destruct (align_after_edit a b c k Hstep Hal) as (k' & Hk' & Hal').
    exists k'. split; [lia | done].
Qed.

Lemma cheapest_alignment_min_edits a b n : cheapest_alignment a b n → min_edits a b n.
Proof.
  intros [Hal Hmin]. split; [by apply align_edits|].
  intros m Hm. destruct (edits_align m a b Hm) as (k & Hk & Hal').
  apply Hmin in Hal'. lia.
Qed.

(** *** Reading both strings backwards, and swapping them *)

Lemma edit1_reverse a b : edit1 a b → edit1 (reverse a) (reverse b).
Proof.
  intros [pre x post|pre x post|pre x y post];
    rewrite !reverse_app, ?reverse_cons, <-?(assoc_L (++)); simpl; constructor.
Qed.

Lemma edits_reverse n a b : edits n a b → edits n (reverse a) (reverse b).
Proof.
  induction 1 as [|n a b c Hstep _ IH]; [constructor|].
  eapply edits_step; [by apply edit1_reverse | done].
Qed.

Lemma min_edits_reverse a b n : min_edits (reverse a) (reverse b) n → min_edits a b n.
Proof.
  intros [He Hmin]. split.
  - apply edits_reverse in He. by rewrite !reverse_involutive in He.
  - intros m Hm. by apply Hmin, edits_reverse.
Qed.

Lemma edit1_sym a b : edit1 a b → edit1 b a.
Proof. intros [pre x post|pre x post|pre x y post]; constructor. Qed.

Lemma edits_snoc n a b t : edits n a b → edit1 b t → edits (Datatypes.S n) a t.
Proof.
  induction 1 as [a|n a b b' Hstep _ IH]; intros Hlast.
  - eapply edits_step; [done | constructor].
  - eapply edits_step; [done | by apply IH].
Qed.

Lemma edits_sym n a b : edits n a b → edits n b a.
Proof.
  induction 1 as [|n a b c Hstep _ IH]; [constructor|].
  eapply edits_snoc; [done | by apply edit1_sym].
Qed.

Lemma min_edits_sym a b n : min_edits a b n → min_edits b a n.
Proof.
  intros [He Hmin]. split; [by apply edits_sym|].
  intros m Hm. by apply Hmin, edits_sym.
Qed.

Lemma min_edits_unique a b (n k : nat) : min_edits a b n → min_edits a b k → n = k.
Proof. intros [He1 Hmin1] [He2 Hmin2]. apply Hmin1 in He2. apply Hmin2 in He1. lia. Qed.

(** *** The distance function *)

Lemma distance_min_edits a b : min_edits a b (_calculateLevenshteinDistance a b).
Proof.
  rewrite distance_is_cell. apply min_edits_reverse, cheapest_alignment_min_edits.
  rewrite <-(firstn_all a) at 1. rewrite <-(firstn_all b) at 1.
  by apply cell_cheapest.
Qed.

Lemma distance_sym a b :
  _calculateLevenshteinDistance a b = _calculateLevenshteinDistance b a.
Proof.
  eapply min_edits_unique; [apply distance_min_edits|].
  apply min_edits_sym, distance_min_edits.
Qed.

Lemma distance_refl a : _calculateLevenshteinDistance a a = 0.
Proof.
  eapply min_edits_unique; [apply distance_min_edits|].
  split; [constructor | lia].
Qed.

Lemma distance_le_max_length a b :
  _calculateLevenshteinDistance a b ≤ Nat.max (length a) (length b).
Proof. rewrite distance_is_cell. apply cell_le_max. Qed.
End WithAlphabet.
End LevenshteinFacts.

(** ** Numbers *)

Lemma Qgtb_true x y : Qgtb x y = true ↔ (y < x)%Q.
Proof. unfold Qgtb. rewrite Qgt_alt. destruct (x ?= y)%Q; split; congruence. Qed.

Lemma Qgtb_false x y : Qgtb x y = false ↔ (x <= y)%Q.
Proof. unfold Qgtb. rewrite Qle_alt. destruct (x ?= y)%Q; split; congruence. Qed.

Lemma Qgeb_true x y : Qgeb x y = true ↔ (y <= x)%Q.
Proof. unfold Qgeb. rewrite Qge_alt. destruct (x ?= y)%Q; split; congruence. Qed.

Lemma Qgeb_false x y : Qgeb x y = false ↔ (x < y)%Q.
Proof. unfold Qgeb. rewrite Qlt_alt. destruct (x ?= y)%Q; split; congruence. Qed.

Lemma Qnat_nonneg n : (0 <= Qnat n)%Q.
Proof. unfold Qnat. replace 0%Q with (inject_Z 0) by done. rewrite <-Zle_Qle. lia. Qed.

Lemma Qnat_pos n : 0 < n → (0 < Qnat n)%Q.
Proof. intros Hn. unfold Qnat. replace 0%Q with (inject_Z 0) by done. rewrite <-Zlt_Qlt. lia. Qed.

Lemma Qnat_le n m : n ≤ m → (Qnat n <= Qnat m)%Q.
Proof. intros Hnm. unfold Qnat. rewrite <-Zle_Qle. lia. Qed.

Lemma Qnat_to_nat z : (0 ≤ z)%Z → Qnat (Z.to_nat z) = inject_Z z.
Proof. intros Hz. unfold Qnat. by rewrite Z2Nat.id. Qed.

Lemma Qnat_S n : (Qnat (n + 1) == Qnat n + 1)%Q.
Proof. unfold Qnat. rewrite Nat2Z.inj_add, inject_Z_plus. done. Qed.

(** A quotient of a smaller by a larger positive number lies in [0,1]. *)
Lemma Qdiv_unit_interval (x y : Q) :
  (0 <= x)%Q → (x <= y)%Q → (0 < y)%Q → (0 <= x / y <= 1)%Q.
Proof.
  intros Hx Hxy Hy. split.
  - apply Qle_shift_div_l; [done|]. by rewrite Qmult_0_l.
  - apply Qle_shift_div_r; [done|]. by rewrite Qmult_1_l.
Qed.

(** ** Strings *)

Lemma length_chars s : length (JsString.chars s) = String.length s.
Proof. induction s as [|c s IH]; simpl; [done | by rewrite IH]. Qed.

Lemma eqb_empty_false s : s ≠ "" → String.eqb s "" = false.
Proof. intros Hs. by apply String.eqb_neq. Qed.

Lemma length_pos_nonempty s : s ≠ "" → 0 < String.length s.
Proof. destruct s; [done | simpl; lia]. Qed.

(** ** Similarity *)

Lemma distance_le_max str1 str2 :
  _calculateLevenshteinDistance str1 str2 ≤ Nat.max (String.length str1) (String.length str2).
Proof.
  unfold _calculateLevenshteinDistance. rewrite <-!length_chars.
  apply LevenshteinFacts.distance_le_max_length.
Qed.

Lemma similarity_nonempty str1 str2 :
  str1 ≠ "" → str2 ≠ "" →
  _calculateStringSimilarity str1 str2
  = (1 - Qnat (_calculateLevenshteinDistance str1 str2)
         / Qnat (Nat.max (String.length str1) (String.length str2)))%Q.
Proof.
  intros H1 H2. unfold _calculateStringSimilarity.
  rewrite !eqb_empty_false by done. simpl.
  apply length_pos_nonempty in H1.
  destruct (Nat.eqb_spec (Nat.max (String.length str1) (String.length str2)) 0); [lia | done].
Qed.

Lemma similarity_unit_interval str1 str2 :
  (0 <= _calculateStringSimilarity str1 str2 <= 1)%Q.
Proof.
  destruct (decide (str1 = "")) as [->|H1]; [done|].
  destruct (decide (str2 = "")) as [->|H2].
  { unfold _calculateStringSimilarity. by rewrite eqb_empty_false. }
  rewrite similarity_nonempty by done.
  pose proof (distance_le_max str1 str2) as Hle.
  apply length_pos_nonempty in H1.
  destruct (Qdiv_unit_interval
              (Qnat (_calculateLevenshteinDistance str1 str2))
              (Qnat (Nat.max (String.length str1) (String.length str2))))
    as [Hlo Hhi]; [apply Qnat_nonneg | by apply Qnat_le | apply Qnat_pos; lia |].
  split; lra.
Qed.

Lemma similarity_sym str1 str2 :
  _calculateStringSimilarity str1 str2 = _calculateStringSimilarity str2 str1.
Proof.
  unfold _calculateStringSimilarity, _calculateLevenshteinDistance.
  rewrite (orb_comm (String.eqb str1 "")), (Nat.max_comm (String.length str1)).
  by rewrite (LevenshteinFacts.distance_sym (JsString.chars str1)).
Qed.

Lemma similarity_refl str : str ≠ "" → (_calculateStringSimilarity str str == 1)%Q.
Proof.
  intros Hs. rewrite similarity_nonempty by done.
  unfold _calculateLevenshteinDistance. rewrite LevenshteinFacts.distance_refl.
  unfold Qnat at 1. simpl. unfold Qdiv. rewrite Qmult_0_l. ring.
Qed.

(** [C9] The value [_calculateLevenshteinDistance] returns is the classic
    edit distance: some sequence of that many single-character
    insertions, deletions and substitutions transforms the first string
    into the second, and no shorter sequence does.  It is a natural
    number, hence non-negative. *)
Theorem editDistance_is_minimum_number_of_edits (str1 str2 : string) :
  Levenshtein.min_edits (JsString.chars str1) (JsString.chars str2)
    (_calculateLevenshteinDistance str1 str2).
Proof. apply LevenshteinFacts.distance_min_edits. Qed.

(** [C3] On two empty strings [_calculateStringSimilarity] returns [0],
    not [1]: the guard [!str1 || !str2] returns before the
    [maxLength === 0] test is reached.  Everything else the
    specification says about similarity holds: the formula
    [1 - editDistance / max(len, len)] on non-empty strings, [0] against
    the empty string, symmetry, and [1] on equal non-empty strings. *)
Theorem similarity_of_two_empty_strings_is_zero :
  _calculateStringSimilarity "" "" = 0%Q
  ∧ ¬ (_calculateStringSimilarity "" "" == 1)%Q
  ∧ (∀ a b, a ≠ "" → b ≠ "" →
       _calculateStringSimilarity a b
       = (1 - Qnat (_calculateLevenshteinDistance a b)
              / Qnat (Nat.max (String.length a) (String.length b)))%Q)
  ∧ (∀ a, a ≠ "" → _calculateStringSimilarity a "" = 0%Q)
  ∧ (∀ a b, _calculateStringSimilarity a b = _calculateStringSimilarity b a)
  ∧ (∀ a, a ≠ "" → (_calculateStringSimilarity a a == 1)%Q).
Proof.
  split; [done|]. split; [by intros ?|].
  split; [apply similarity_nonempty|].
  split; [|split; [apply similarity_sym | apply similarity_refl]].
  intros a Ha. unfold _calculateStringSimilarity. by rewrite eqb_empty_false.
Qed.

(** ** Catalog loader *)

Lemma get_prop_throws v name error :
  get_prop v name = Throw error → err_class error = TypeError.
Proof. destruct v; simpl; try done; by intros [= <-]. Qed.

Lemma loadIntents_unfold intentsData this :
  loadIntents intentsData this =
  match validate_intentsData intentsData with
  | Normal entries => (mkService entries (metrics this) (trace this), Normal tt)
  | Throw error =>
      let wrappedError :=
        if instanceof_ChatbotError error then error
        else mkError IntentLoadError
               (prepend "Failed to load intent data: " (err_message error)) in
      (mkService (intents this) (metrics this)
         (if metrics this
          then (trace this ++ [LoggerCall "Error loading intents:" error])
               ++ [RecordError "INTENT_LOAD_ERROR" (err_message wrappedError)]
          else trace this ++ [LoggerCall "Error loading intents:" error]),
       Throw wrappedError)
  end.
Proof.
  unfold loadIntents, try_catch, bind, lift, set_intents, with_metrics, emit, throw.
  destruct (validate_intentsData intentsData) as [entries|error]; simpl; [done|].
  by destruct (metrics this).
Qed.

Lemma validate_intent_well_formed intent :
  validate_intent intent = Normal tt ↔ well_formed_intent intent.
Proof.
  unfold validate_intent, well_formed_intent. split.
  - destruct (get_prop intent "tag") as [tag|]; simpl; [|done].
    destruct (get_prop intent "patterns") as [patterns|]; simpl; [|done].
    destruct (get_prop intent "responses") as [responses|]; simpl; [|done].
    destruct (truthy tag) eqn:Htag; simpl; [|done].
    destruct (truthy patterns), (truthy responses); simpl; try done.
    destruct patterns, responses; simpl; try done. eauto 10.
  - intros (tag & patterns & responses & -> & Htag & -> & ->). simpl. by rewrite Htag.
Qed.

Lemma validate_intent_missing intent :
  missing_required_property intent →
  validate_intent intent
  = Throw (load_error "Invalid intent structure: missing required properties").
Proof.
  intros (tag & patterns & responses & Htag & Hpatterns & Hresponses & Hfalsy).
  unfold validate_intent. rewrite Htag, Hpatterns, Hresponses. simpl.
  destruct Hfalsy as [->|[->| ->]]; simpl; [done| |].
  - by destruct (truthy tag).
  - by destruct (truthy tag), (truthy patterns).
Qed.

Lemma validate_all_well_formed entries :
  validate_all entries = Normal tt ↔ Forall well_formed_intent entries.
Proof.
  induction entries as [|intent rest IH]; simpl.
  - split; [by constructor | done].
  - split.
    + destruct (validate_intent intent) as [[]|] eqn:Hintent; simpl; [|done].
      intros Hrest. constructor; [by apply validate_intent_well_formed | by apply IH].
    + intros Hall. inversion Hall as [|? ? Hintent Hrest]; subst.
      apply validate_intent_well_formed in Hintent. rewrite Hintent. simpl. by apply IH.
Qed.

Lemma validate_all_app_missing before intent after :
  Forall well_formed_intent before → missing_required_property intent →
  validate_all (before ++ intent :: after)
  = Throw (load_error "Invalid intent structure: missing required properties").
Proof.
  intros Hbefore Hmissing. induction Hbefore as [|first before Hfirst _ IH]; simpl.
  - by rewrite validate_intent_missing.
  - apply validate_intent_well_formed in Hfirst. by rewrite Hfirst.
Qed.

(** What a successful load installs. *)
Lemma loadIntents_success intentsData this this' :
  loadIntents intentsData this = (this', Normal tt) →
  ∃ entries, intents this' = JArr entries ∧ entries ≠ []
             ∧ Forall well_formed_intent entries
             ∧ get_prop intentsData "intents" = Normal (JArr entries).
Proof.
  rewrite loadIntents_unfold. unfold validate_intentsData.
  destruct (truthy intentsData); simpl; [|done].
  destruct (get_prop intentsData "intents") as [entries|]; simpl; [|done].
  destruct (truthy entries); simpl; [|done].
  destruct entries as [| | | | | |elems| |]; simpl; try done.
  destruct (Nat.eqb_spec (length elems) 0) as [|Hlen]; simpl; [done|].
  destruct (validate_all elems) as [[]|] eqn:Hall; simpl; [|done].
  intros [= <-]. exists elems. simpl. split; [done|].
  split; [by destruct elems|]. split; [by apply validate_all_well_formed | done].
Qed.

(** [C10] When [loadIntents] throws, [this.intents] is what it was before
    the call: the assignment is the last statement of the [try] block. *)
Theorem loadIntents_failure_keeps_catalog intentsData this this' error :
  loadIntents intentsData this = (this', Throw error) →
  intents this' = intents this.
Proof.
  rewrite loadIntents_unfold.
  destruct (validate_intentsData intentsData) as [entries|e]; [done|].
  by intros [= <- _].
Qed.

Lemma loadIntents_failure_keeps_catalog_witness :
  loadIntents (catalog_of []) sample_service
  = (mkService (JArr sample_intents) false
       [LoggerCall "Error loading intents:" (load_error "Intent data is empty")],
     Throw (load_error "Intent data is empty"))
  ∧ intents (mkService (JArr sample_intents) false
       [LoggerCall "Error loading intents:" (load_error "Intent data is empty")])
    = intents sample_service.
Proof.
  split; [reflexivity|].
  apply (loadIntents_failure_keeps_catalog (catalog_of []) sample_service _
           (load_error "Intent data is empty")).
  reflexivity.
Defined.

Lemma missing_property_not_well_formed intent :
  missing_required_property intent → ¬ well_formed_intent intent.
Proof.
  intros (tag & patterns & responses & Htag & Hpatterns & Hresponses & Hfalsy)
         (tag' & patterns' & responses' & Htag' & Htruthy & Hpatterns' & Hresponses').
  rewrite Htag in Htag'. rewrite Hpatterns in Hpatterns'. rewrite Hresponses in Hresponses'.
  simplify_eq. destruct Hfalsy as [?|[?|?]]; simpl in *; congruence.
Qed.

Lemma validate_intent_throws intent error :
  validate_intent intent = Throw error →
  err_class error = IntentLoadError ∨ err_class error = TypeError.
Proof.
  unfold validate_intent.
  destruct (get_prop intent "tag") as [tag|e] eqn:Htag; simpl.
  2:{ intros [= <-]. right. by eapply get_prop_throws. }
  destruct (get_prop intent "patterns") as [patterns|e] eqn:Hpatterns; simpl.
  2:{ intros [= <-]. right. by eapply get_prop_throws. }
  destruct (get_prop intent "responses") as [responses|e] eqn:Hresponses; simpl.
  2:{ intros [= <-]. right. by eapply get_prop_throws. }
  destruct (_ || _); [by intros [= <-]; left|].
  destruct (_ || _); [by intros [= <-]; left | done].
Qed.

Lemma validate_all_throws entries error :
  validate_all entries = Throw error →
  err_class error = IntentLoadError ∨ err_class error = TypeError.
Proof.
  induction entries as [|intent rest IH]; simpl; [done|].
  destruct (validate_intent intent) as [[]|e] eqn:Hintent; simpl; [done|].
  intros [= <-]. by eapply validate_intent_throws.
Qed.

(** [C6, as amended] A catalog with an entry whose [tag], [patterns] or
    [responses] is missing or falsy is rejected: [loadIntents] throws an
    [IntentLoadError] and installs nothing, and when the entries before
    the offending one are well formed the error is
    [IntentLoadError("Invalid intent structure: missing required properties")]. *)
Theorem loadIntents_rejects_missing_properties this intentsData before intent after :
  truthy intentsData = true →
  get_prop intentsData "intents" = Normal (JArr (before ++ intent :: after)) →
  missing_required_property intent →
  ∃ this' error,
    loadIntents intentsData this = (this', Throw error)
    ∧ err_class error = IntentLoadError
    ∧ intents this' = intents this
    ∧ (Forall well_formed_intent before →
       error = load_error "Invalid intent structure: missing required properties").
Proof.
  intros Htruthy Hprop Hmissing.
  rewrite loadIntents_unfold. unfold validate_intentsData.
  rewrite Htruthy, Hprop. simpl.
  destruct (Nat.eqb_spec (length (before ++ intent :: after)) 0) as [Hlen|_].
  { rewrite length_app in Hlen. simpl in Hlen. lia. }
  destruct (validate_all (before ++ intent :: after)) as [[]|error] eqn:Hall; simpl.
  { apply validate_all_well_formed, Forall_app in Hall as [_ Hall].
    inversion Hall as [|? ? Hintent _]; subst.
    by apply missing_property_not_well_formed in Hintent. }
  eexists _, _. split; [reflexivity|].
  split; [|split; [done|]].
  - destruct (validate_all_throws _ _ Hall) as [Hclass|Hclass];
      unfold instanceof_ChatbotError; by rewrite Hclass.
  - intros Hbefore. rewrite validate_all_app_missing in Hall by done.
    injection Hall as <-. done.
Qed.

Lemma loadIntents_rejects_missing_properties_witness :
  ∃ this' error,
    loadIntents
      (catalog_of [intent_entry "Cuts" [JStr "cuts treatment"] [JStr "Clean the cut."];
                   JObj [("tag", JStr "Test")]])
      fresh_service
    = (this', Throw error)
    ∧ err_class error = IntentLoadError
    ∧ intents this' = intents fresh_service
    ∧ error = load_error "Invalid intent structure: missing required properties".
Proof.
  destruct (loadIntents_rejects_missing_properties fresh_service
              (catalog_of [intent_entry "Cuts" [JStr "cuts treatment"]
                             [JStr "Clean the cut."];
                           JObj [("tag", JStr "Test")]])
              [intent_entry "Cuts" [JStr "cuts treatment"] [JStr "Clean the cut."]]
              (JObj [("tag", JStr "Test")]) [])
    as (this' & error & Hrun & Hclass & Hkept & Hmessage).
  - reflexivity.
  - reflexivity.
  - exists (JStr "Test"), JUndefined, JUndefined.
    repeat split; try reflexivity. right. left. reflexivity.
  - exists this', error. repeat split; try assumption.
    apply Hmessage. constructor; [|constructor].
    exists (JStr "Cuts"), [JStr "cuts treatment"], [JStr "Clean the cut."].
    repeat split; reflexivity.
Defined.

(** [C6, counterexample] An entry with no patterns and no responses is
    accepted: empty arrays are truthy, so the catalog is installed. *)
Lemma loadIntents_accepts_empty_arrays :
  loadIntents (catalog_of [intent_entry "Test" [] []]) fresh_service
  = (mkService (JArr [intent_entry "Test" [] []]) false [], Normal tt).
Proof. reflexivity. Qed.

(** ** Intent resolver *)

Lemma normalized_nonempty text :
  JsString.trim (JsString.toLowerCase text) ≠ "" → text ≠ "".
Proof. by intros Hn ->. Qed.

Lemma truthy_JStr text : text ≠ "" → truthy (JStr text) = true.
Proof. intros Ht. simpl. by rewrite eqb_empty_false. Qed.

Lemma length_eqb_0 s : (String.length s =? 0) = false ↔ s ≠ "".
Proof. destruct s; simpl; split; done. Qed.

(** [C5, as amended] The guards of [findMatchingIntent], in the order
    the code applies them: a falsy query of any type gives [null]; a
    truthy query that is not a string fails with "Query must be a
    string"; a non-empty string fails with "No intents available for
    matching" when the catalog is empty or missing, also when the string
    is blank; a blank string gives [null] when a catalog is installed. *)
Theorem findMatchingIntent_guards :
  (∀ this query, truthy query = false → findMatchingIntent this query = Normal JNull)
  ∧ (∀ this query,
       truthy query = true → is_string query = false →
       findMatchingIntent this query = Throw (match_error "Query must be a string"))
  ∧ (∀ this text,
       text ≠ "" → no_intents_available this →
       findMatchingIntent this (JStr text)
       = Throw (match_error "No intents available for matching"))
  ∧ (∀ this text entries,
       text ≠ "" → intents this = JArr entries → entries ≠ [] →
       JsString.trim (JsString.toLowerCase text) = "" →
       findMatchingIntent this (JStr text) = Normal JNull).
Proof.
  repeat split.
  - intros this query Hfalsy. unfold findMatchingIntent, match_intent. by rewrite Hfalsy.
  - intros this query Htruthy Hstring. unfold findMatchingIntent, match_intent.
    rewrite Htruthy. by destruct query.
  - intros this text Htext Hnone. unfold findMatchingIntent, match_intent.
    rewrite truthy_JStr by done. simpl.
    destruct (intents this) as [| | | | | |entries| |] eqn:Hintents; try done.
    by rewrite (Hnone entries Hintents).
  - intros this text entries Htext Hintents Hentries Hblank.
    unfold findMatchingIntent, match_intent.
    rewrite truthy_JStr, Hintents, Hblank by done. simpl.
    by destruct entries.
Qed.

Lemma findMatchingIntent_guards_witness :
  findMatchingIntent sample_service JUndefined = Normal JNull
  ∧ findMatchingIntent sample_service (JNum 123)
    = Throw (match_error "Query must be a string")
  ∧ findMatchingIntent fresh_service (JStr "test")
    = Throw (match_error "No intents available for matching")
  ∧ findMatchingIntent sample_service (JStr "   ") = Normal JNull.
Proof.
  destruct findMatchingIntent_guards as (Hfalsy & Hstring & Hnone & Hblank).
  split; [apply Hfalsy; reflexivity|].
  split; [apply Hstring; reflexivity|].
  split.
  - apply Hnone; [discriminate|]. intros entries [= <-]. reflexivity.
  - apply (Hblank sample_service "   " sample_intents);
      [discriminate | reflexivity | discriminate | reflexivity].
Defined.

(** [C5, counterexample] Falsy values that are not strings give [null]
    instead of failing; the empty string gives [null] although the
    catalog is empty; and a blank string fails on an empty catalog
    although it is empty after trimming. *)
Lemma findMatchingIntent_guard_order_counterexample :
  findMatchingIntent sample_service (JNum 0) = Normal JNull
  ∧ findMatchingIntent sample_service (JBool false) = Normal JNull
  ∧ findMatchingIntent fresh_service (JStr "") = Normal JNull
  ∧ findMatchingIntent fresh_service (JStr "   ")
    = Throw (match_error "No intents available for matching").
Proof. repeat split; reflexivity. Qed.

Section Scan.
Variables (normalizedQuery : string) (queryWords : list string).

Lemma scan_intents_cons intent rest bestMatch patterns :
  get_prop intent "patterns" = Normal (JArr patterns) →
  scan_intents normalizedQuery queryWords (intent :: rest) bestMatch
  = scan_intents normalizedQuery queryWords rest
      (if Qgtb (entry_score normalizedQuery queryWords intent) (bm_score bestMatch)
       then mkBestMatch intent (entry_score normalizedQuery queryWords intent)
       else bestMatch).
Proof. intros Hp. simpl. unfold entry_score. by rewrite Hp. Qed.

(** The loop keeps the first entry that beats everything before it
    and is not beaten by anything after it. *)
Lemma scan_intents_spec entries bestMatch :
  Forall well_formed_intent entries →
  ∃ result,
    scan_intents normalizedQuery queryWords entries bestMatch = Normal result
    ∧ ((result = bestMatch
        ∧ ∀ e, e ∈ entries →
               (entry_score normalizedQuery queryWords e <= bm_score bestMatch)%Q)
       ∨ ∃ i e,
           entries !! i = Some e
           ∧ result = mkBestMatch e (entry_score normalizedQuery queryWords e)
           ∧ (bm_score bestMatch < entry_score normalizedQuery queryWords e)%Q
           ∧ (∀ k e', k < i → entries !! k = Some e' →
                      (entry_score normalizedQuery queryWords e'
                       < entry_score normalizedQuery queryWords e)%Q)
           ∧ ∀ e', e' ∈ entries →
                   (entry_score normalizedQuery queryWords e'
                    <= entry_score normalizedQuery queryWords e)%Q).
Proof.
  intros Hwf. revert bestMatch.
  induction Hwf as [|intent rest Hintent _ IH]; intros bestMatch.
  { exists bestMatch. split; [done|]. left. split; [done|].
    intros e He. by apply elem_of_nil in He. }
  destruct Hintent as (tag & patterns & responses & _ & _ & Hpatterns & _).
  rewrite (scan_intents_cons _ _ _ patterns) by done.
  destruct (Qgtb (entry_score normalizedQuery queryWords intent) (bm_score bestMatch))
    eqn:Hgt.
  - apply Qgtb_true in Hgt.
    destruct (IH (mkBestMatch intent (entry_score normalizedQuery queryWords intent)))
      as (result & -> & [[-> Hrest]|(i & e & Hi & -> & Hlt & Hbefore & Hall)]).
    + eexists. split; [done|]. right. exists 0, intent. simpl in Hrest.
      repeat split; [done| |].
      * intros k e' Hk. lia.
      * intros e' [->|He']%elem_of_cons; [lra | by apply Hrest].
    + eexists. split; [done|]. right. exists (Datatypes.S i), e. simpl in Hlt.
      repeat split; [done|lra| |].
      * intros [|k] e' Hk Hlook; simpl in Hlook.
        -- by injection Hlook as <-.
        -- apply (Hbefore k); [lia | done].
      * intros e' [->|He']%elem_of_cons; [lra | by apply Hall].
  - apply Qgtb_false in Hgt.
    destruct (IH bestMatch)
      as (result & -> & [[-> Hrest]|(i & e & Hi & -> & Hlt & Hbefore & Hall)]).
    + eexists. split; [done|]. left. split; [done|].
      intros e' [->|He']%elem_of_cons; [done | by apply Hrest].
    + eexists. split; [done|]. right. exists (Datatypes.S i), e.
      repeat split; [done|done| |].
      * intros [|k] e' Hk Hlook; simpl in Hlook.
        -- injection Hlook as <-. lra.
        -- apply (Hbefore k); [lia | done].
      * intros e' [->|He']%elem_of_cons; [lra | by apply Hall].
Qed.

(** Whatever the entries are, the intent the loop ends with is the
    one it started with or an entry of the catalog. *)
Lemma scan_intents_intent entries bestMatch result :
  scan_intents normalizedQuery queryWords entries bestMatch = Normal result →
  bm_intent result = bm_intent bestMatch ∨ bm_intent result ∈ entries.
Proof.
  revert bestMatch. induction entries as [|intent rest IH]; intros bestMatch; simpl.
  { intros [= <-]. by left. }
  destruct (get_prop intent "patterns") as [patterns|]; simpl; [|done].
  intros Hscan.
  assert (∀ bm, bm = bestMatch ∨ bm_intent bm = intent →
                scan_intents normalizedQuery queryWords rest bm = Normal result →
                bm_intent result = bm_intent bestMatch
                ∨ bm_intent result ∈ intent :: rest) as Hstep.
  { intros bm Hbm Hrest. destruct (IH _ Hrest) as [Heq|Hin].
    - destruct Hbm as [->|Hbm]; [by left|]. right. rewrite Heq, Hbm. by left.
    - right. by right. }
  destruct patterns; try (by apply (Hstep bestMatch); [left|]).
  eapply Hstep; [|done].
  destruct (Qgtb _ _); [by right | by left].
Qed.
End Scan.

Lemma findMatchingIntent_scan this text entries :
  intents this = JArr entries → entries ≠ [] →
  JsString.trim (JsString.toLowerCase text) ≠ "" →
  findMatchingIntent this (JStr text)
  = match scan_intents (JsString.trim (JsString.toLowerCase text))
            (JsString.words (JsString.trim (JsString.toLowerCase text)))
            entries (mkBestMatch JNull 0) with
    | Normal bestMatch =>
        Normal (if Qgeb (bm_score bestMatch) 0.25 then bm_intent bestMatch else JNull)
    | Throw error =>
        Throw (if instanceof_ChatbotError error then error
               else mkError IntentMatchError
                      (prepend "Failed to match intent: " (err_message error)))
    end.
Proof.
  intros Hintents Hentries Hquery.
  unfold findMatchingIntent, match_intent.
  rewrite truthy_JStr, Hintents by (by apply normalized_nonempty). simpl.
  destruct (Nat.eqb_spec (length entries) 0) as [Hlen|_].
  { by destruct entries. }
  apply length_eqb_0 in Hquery. rewrite Hquery.
  by destruct (scan_intents _ _ entries _).
Qed.

(** ** The words of a normalized query *)

Lemma trimStart_head s c r :
  JsString.trimStart s = String c r → JsString.is_white_space c = false.
Proof.
  induction s as [|d s IH]; simpl; [done|].
  destruct (JsString.is_white_space d) eqn:Hd; [done|]. by intros [= <- _].
Qed.

Lemma trimEnd_head s c r : JsString.trimEnd s = String c r → ∃ r', s = String c r'.
Proof.
  destruct s as [|d s]; simpl; [done|].
  destruct (JsString.trimEnd s); [destruct (JsString.is_white_space d)|];
    intros [= <- _]; eauto.
Qed.

Lemma trim_head s c r : JsString.trim s = String c r → Ascii.eqb c " " = false.
Proof.
  unfold JsString.trim. intros [r' Hstart%trimStart_head]%trimEnd_head.
  apply Ascii.eqb_neq. by intros ->.
Qed.

Lemma split_space_not_nil s : JsString.split_space s ≠ [].
Proof.
  destruct s as [|c s]; simpl; [done|].
  destruct (Ascii.eqb c " "); [done|]. by destruct (JsString.split_space s).
Qed.

Lemma words_of_trimmed_not_nil s :
  JsString.trim s ≠ "" → JsString.words (JsString.trim s) ≠ [].
Proof.
  destruct (JsString.trim s) as [|c r] eqn:Htrim; [done|]. intros _.
  apply trim_head in Htrim. unfold JsString.words. simpl. rewrite Htrim.
  destruct (JsString.split_space r) as [|piece pieces] eqn:Hsplit.
  { by apply split_space_not_nil in Hsplit. }
  rewrite filter_cons_True; [done | simpl; lia].
Qed.

(** ** Bounds on the components of the pattern score *)

Lemma fold_max_unit_interval {X : Type} (f : X → Q) (l : list X) (start : Q) :
  (∀ x, 0 <= f x <= 1)%Q → (0 <= start <= 1)%Q →
  (0 <= fold_left (λ best x, Qmax best (f x)) l start <= 1)%Q.
Proof.
  intros Hf. revert start. induction l as [|x l IH]; intros start Hstart; simpl; [done|].
  apply IH. specialize (Hf x).
  destruct (Q.max_spec start (f x)) as [[? ->]|[? ->]]; lra.
Qed.

Lemma bestWordScore_unit_interval queryWord patternWords :
  (0 <= bestWordScore queryWord patternWords <= 1)%Q.
Proof.
  apply fold_max_unit_interval; [|lra].
  intros patternWord. apply similarity_unit_interval.
Qed.

Lemma word_level_bounds_from queryWords patternWords (sum : Q) (matched : nat) :
  (sum <= (fold_left (word_level_step patternWords) queryWords (sum, matched)).1
       <= sum + Qnat (length queryWords))%Q
  ∧ matched ≤ (fold_left (word_level_step patternWords) queryWords (sum, matched)).2
            ≤ matched + length queryWords.
Proof.
  revert sum matched. induction queryWords as [|queryWord rest IH]; intros sum matched.
  { simpl. change (Qnat 0) with 0%Q. split; [lra | lia]. }
  pose proof (bestWordScore_unit_interval queryWord patternWords) as Hbest.
  cbn [fold_left length].
  replace (word_level_step patternWords (sum, matched) queryWord)
    with ((sum + bestWordScore queryWord patternWords)%Q,
          if Qgtb (bestWordScore queryWord patternWords) 0.6
          then matched + 1 else matched) by done.
  revert Hbest. generalize (bestWordScore queryWord patternWords). intros best Hbest.
  destruct (IH (sum + best)%Q (if Qgtb best 0.6 then matched + 1 else matched))
    as [Hsum Hmatched].
  assert (Qnat (Datatypes.S (length rest)) == Qnat (length rest) + 1)%Q as Hlen.
  { rewrite <-Qnat_S. by rewrite Nat.add_1_r. }
  split; [rewrite Hlen; lra|].
  destruct (Qgtb best 0.6); lia.
Qed.

Lemma word_level_bounds queryWords patternWords :
  (0 <= (word_level queryWords patternWords).1 <= Qnat (length queryWords))%Q
  ∧ (word_level queryWords patternWords).2 ≤ length queryWords.
Proof.
  destruct (word_level_bounds_from queryWords patternWords 0 0) as [Hsum Hmatched].
  unfold word_level. split; [lra | lia].
Qed.

Lemma best_match_index queryWord patternWords :
  (-1 ≤ (best_match queryWord patternWords).2 < Z.of_nat (length patternWords))%Z.
Proof.
  unfold best_match.
  set (body := λ (j : nat) (st : Q * Z), _).
  assert ((-1 ≤ (for_loop (length patternWords) 0 body (0%Q, (-1)%Z)).2)%Z
          ∧ ((for_loop (length patternWords) 0 body (0%Q, (-1)%Z)).2
             < Z.of_nat (0 + length patternWords))%Z) as [Hlo Hhi]; [|simpl in Hhi; lia].
  apply (for_loop_invariant (λ k (st : Q * Z), (-1 ≤ st.2)%Z ∧ (st.2 < Z.of_nat k)%Z)).
  - simpl. lia.
  - intros k [bestMatchScore bestMatchIndex] Hk Hst. subst body. simpl in *.
    destruct (Qgtb _ _); simpl; lia.
Qed.

Lemma word_order_step_nonneg queryWords patternWords i st :
  i < length queryWords → (0 <= orderScore st)%Q →
  (0 <= orderScore (word_order_step queryWords patternWords i st))%Q.
Proof.
  intros Hi Hst. unfold word_order_step.
  pose proof (best_match_index (word_at queryWords (Z.of_nat i)) patternWords) as Hindex.
  destruct (best_match _ patternWords) as [bestMatchScore bestMatchIndex].
  simpl in Hindex. destruct (Qgtb bestMatchScore 0.6); [|done]. simpl.
  destruct (Qdiv_unit_interval
              (inject_Z (Z.abs (Z.of_nat i - bestMatchIndex)))
              (Qnat (Nat.max (length queryWords) (length patternWords))))
    as [Hlo Hhi].
  - replace 0%Q with (inject_Z 0) by done. rewrite <-Zle_Qle. lia.
  - unfold Qnat. rewrite <-Zle_Qle. lia.
  - apply Qnat_pos. lia.
  - lra.
Qed.

Lemma wordOrderSimilarity_unit_interval queryWords patternWords :
  (0 <= _calculateWordOrderSimilarity queryWords patternWords <= 1)%Q.
Proof.
  unfold _calculateWordOrderSimilarity.
  destruct ((length queryWords =? 0) || (length patternWords =? 0)); [lra|].
  set (st := for_loop _ _ _ _).
  assert (0 <= orderScore st)%Q as Horder.
  { subst st.
    apply (for_loop_invariant (λ _ st, (0 <= orderScore st)%Q)); simpl; [lra|].
    intros k st Hk Hst. apply word_order_step_nonneg; [lia | done]. }
  assert (0 <= (if 0 <? matchCount st then orderScore st / Qnat (matchCount st) else 0))%Q
    as Hbase.
  { destruct (Nat.ltb_spec 0 (matchCount st)) as [Hpos|_]; [|lra].
    apply Qle_shift_div_l; [by apply Qnat_pos | lra]. }
  pose proof (Qnat_nonneg (keywordMatches st)) as Hbonus.
  revert Hbase Hbonus.
  generalize (if 0 <? matchCount st then orderScore st / Qnat (matchCount st) else 0)%Q.
  generalize (Qnat (keywordMatches st)). clear st Horder.
  intros keywordCount baseScore Hbase Hbonus.
  destruct (Q.min_spec 1 (baseScore + keywordCount * 0.2)) as [[? ->]|[? ->]]; lra.
Qed.

Lemma patternScore_unit_interval normalizedQuery queryWords pattern :
  queryWords ≠ [] →
  (0 <= patternScore normalizedQuery queryWords pattern <= 1)%Q.
Proof.
  intros Hwords. unfold patternScore.
  set (patternWords := JsString.words (JsString.toLowerCase pattern)).
  pose proof (wordOrderSimilarity_unit_interval queryWords patternWords) as Horder.
  pose proof (word_level_bounds queryWords patternWords) as [Hsum Hmatched].
  destruct (word_level queryWords patternWords) as [wordSimilarityScore matchedWords].
  simpl in Hsum, Hmatched.
  assert (0 < length queryWords) as Hlen by (destruct queryWords; [done | simpl; lia]).
  destruct (Qdiv_unit_interval wordSimilarityScore (Qnat (length queryWords)))
    as [Hsim_lo Hsim_hi]; [lra | lra | by apply Qnat_pos |].
  destruct (Qdiv_unit_interval (Qnat matchedWords)
              (Qnat (Nat.max (length queryWords) (length patternWords))))
    as [Hcov_lo Hcov_hi];
    [apply Qnat_nonneg | apply Qnat_le; lia | apply Qnat_pos; lia |].
  set (exactMatchScore :=
         (if String.eqb normalizedQuery (JsString.toLowerCase pattern) then 1 else 0)%Q).
  assert (0 <= exactMatchScore <= 1)%Q as Hexact
    by (subst exactMatchScore; destruct (String.eqb _ _); lra).
  split.
  - apply Qle_shift_div_l; [lra|]. lra.
  - apply Qle_shift_div_r; [lra|]. lra.
Qed.

(** ** The score of an intent *)

Lemma intentScore_from normalizedQuery queryWords patterns (start : Q) :
  queryWords ≠ [] → (0 <= start)%Q →
  (start <= fold_left (intentScore_step normalizedQuery queryWords) patterns start)%Q
  ∧ (∀ p, JStr p ∈ patterns →
       (patternScore normalizedQuery queryWords p
        <= fold_left (intentScore_step normalizedQuery queryWords) patterns start)%Q)
  ∧ ((fold_left (intentScore_step normalizedQuery queryWords) patterns start == start)%Q
     ∨ ∃ p, JStr p ∈ patterns
            ∧ (fold_left (intentScore_step normalizedQuery queryWords) patterns start
               == patternScore normalizedQuery queryWords p)%Q).
Proof.
  intros Hwords. revert start.
  induction patterns as [|pattern rest IH]; intros start Hstart; cbn [fold_left].
  { split; [lra|]. split; [|by left]. intros p Hp. by apply elem_of_nil in Hp. }
  assert (∀ next : Q,
            (start <= next)%Q →
            (next == start)%Q
            ∨ (∃ p, pattern = JStr p
                    ∧ (next == patternScore normalizedQuery queryWords p)%Q) →
            (∀ p, pattern = JStr p →
                  (patternScore normalizedQuery queryWords p <= next)%Q) →
            (start <= fold_left (intentScore_step normalizedQuery queryWords) rest next)%Q
            ∧ (∀ p, JStr p ∈ pattern :: rest →
                 (patternScore normalizedQuery queryWords p
                  <= fold_left (intentScore_step normalizedQuery queryWords) rest next)%Q)
            ∧ ((fold_left (intentScore_step normalizedQuery queryWords) rest next
                == start)%Q
               ∨ ∃ p, JStr p ∈ pattern :: rest
                      ∧ (fold_left (intentScore_step normalizedQuery queryWords) rest next
                         == patternScore normalizedQuery queryWords p)%Q)) as Hstep.
  { intros next Hle Hnext Hhead.
    destruct (IH next ltac:(lra)) as (Hmono & Hupper & Hattained).
    split; [lra|]. split.
    - intros p [Hp|Hp]%elem_of_cons; [|by apply Hupper].
      specialize (Hhead p (eq_sym Hp)). lra.
    - destruct Hattained as [Hsame|(p & Hp & Heq)].
      + destruct Hnext as [Hnext|(p & -> & Hnext)].
        * left. lra.
        * right. exists p. split; [by left | lra].
      + right. exists p. split; [by right | done]. }
  destruct pattern as [| | | | |p| | |]; cbn [intentScore_step];
    try (apply Hstep; [lra | left; lra | by intros p' [=]]).
  destruct (Q.max_spec start (patternScore normalizedQuery queryWords p))
    as [[Hlt Hmax]|[Hle Hmax]].
  - apply Hstep; [lra | right; by exists p | intros p' [= <-]; lra].
  - apply Hstep; [lra | by left | intros p' [= <-]; lra].
Qed.

Lemma intentScore_unit_interval normalizedQuery queryWords patterns :
  queryWords ≠ [] → (0 <= intentScore normalizedQuery queryWords patterns <= 1)%Q.
Proof.
  intros Hwords.
  destruct (intentScore_from normalizedQuery queryWords patterns 0 Hwords ltac:(lra))
    as (Hmono & _ & [Hzero|(p & _ & Heq)]);
    fold (intentScore normalizedQuery queryWords patterns) in *.
  - lra.
  - pose proof (patternScore_unit_interval normalizedQuery queryWords p Hwords). lra.
Qed.

Lemma scan_intents_score_bound normalizedQuery queryWords entries bestMatch result :
  queryWords ≠ [] → (0 <= bm_score bestMatch <= 1)%Q →
  scan_intents normalizedQuery queryWords entries bestMatch = Normal result →
  (0 <= bm_score result <= 1)%Q.
Proof.
  intros Hwords. revert bestMatch.
  induction entries as [|intent rest IH]; intros bestMatch Hbound; simpl.
  { by intros [= <-]. }
  destruct (get_prop intent "patterns") as [patterns|]; simpl; [|done].
  destruct patterns as [| | | | | |elems| |]; try by apply IH.
  apply IH. destruct (Qgtb _ _); [|done]. simpl.
  by apply intentScore_unit_interval.
Qed.



(** ** Response facade *)

Lemma findMatchingIntent_in_catalog this query matchedIntent :
  findMatchingIntent this query = Normal matchedIntent →
  matchedIntent = JNull
  ∨ ∃ entries, intents this = JArr entries ∧ matchedIntent ∈ entries.
Proof.
  unfold findMatchingIntent, match_intent.
  destruct (truthy query); simpl; [|by intros [= <-]; left].
  destruct query as [| | | | |text| | |]; try done.
  destruct (intents this) as [| | | | | |entries| |]; try done.
  destruct (length entries =? 0); [done|].
  destruct (String.length _ =? 0); [by intros [= <-]; left|].
  destruct (scan_intents _ _ entries _) as [bestMatch|] eqn:Hscan; simpl; [|done].
  intros [= <-]. destruct (Qgeb _ _); [|by left].
  apply scan_intents_intent in Hscan as [->|Hin]; [by left|].
  right. by exists entries.
Qed.

Lemma get_prop_truthy v name : truthy v = true → ∃ w, get_prop v name = Normal w.
Proof. destruct v; simpl; try done; eauto. Qed.

(** Every run of [generateResponse] returns: one of the four fixed
    results, or a response of the matched intent with its tag. *)
Lemma generateResponse_returns query random this :
  ∃ this' result,
    generateResponse query random this = (this', Normal result)
    ∧ (result = EMPTY_QUERY_result ∨ result = NO_MATCH_result
       ∨ result = INTENT_MATCH_ERROR_result ∨ result = INTERNAL_ERROR_result
       ∨ ∃ matchedIntent tag response,
           findMatchingIntent this query = Normal matchedIntent
           ∧ truthy matchedIntent = true
           ∧ get_prop matchedIntent "tag" = Normal tag
           ∧ result = result_object response tag JNull).
Proof.
  destruct this as [catalog has_metrics events].
  unfold generateResponse, try_finally, try_catch, select_response,
    bind, lift, throw, ret, with_metrics, emit.
  destruct (truthy query) eqn:Htruthy; simpl;
    [|destruct has_metrics; simpl; eauto 10].
  destruct (is_string query) eqn:Hstring; simpl;
    [|destruct has_metrics; simpl; eauto 10].
  destruct (findMatchingIntent _ query) as [matchedIntent|error] eqn:Hmatch;
    [|destruct has_metrics, (instanceof_IntentMatchError error); simpl; eauto 10].
  destruct (truthy matchedIntent) eqn:Hmatched; simpl;
    [|destruct has_metrics; simpl; eauto 10].
  destruct (get_prop_truthy matchedIntent "responses" Hmatched) as [responses Hresponses].
  destruct (get_prop_truthy matchedIntent "tag" Hmatched) as [tag Htag].
  rewrite Hresponses, Htag. simpl.
  destruct responses as [| | | | | |elems| |];
    try solve [destruct has_metrics; simpl; eauto 10].
  destruct (length elems =? 0); [solve [destruct has_metrics; simpl; eauto 10]|].
  destruct (js_index elems _) as [| | | | |response| | |];
    try solve [destruct has_metrics; simpl; eauto 10].
  destruct (String.length (JsString.trim response) =? 0);
    destruct has_metrics; simpl; eauto 15.
Qed.

Lemma scan_intents_throws normalizedQuery queryWords entries bestMatch error :
  scan_intents normalizedQuery queryWords entries bestMatch = Throw error →
  err_class error = TypeError.
Proof.
  revert bestMatch. induction entries as [|intent rest IH]; intros bestMatch; simpl; [done|].
  destruct (get_prop intent "patterns") as [patterns|e] eqn:Hpatterns; simpl.
  - destruct patterns; apply IH.
  - intros [= <-]. by eapply get_prop_throws.
Qed.

Lemma findMatchingIntent_throws_IntentMatchError this query error :
  findMatchingIntent this query = Throw error → instanceof_IntentMatchError error = true.
Proof.
  unfold findMatchingIntent.
  destruct (match_intent this query) as [|e] eqn:Hbody; [done|]. intros [= <-].
  destruct (instanceof_ChatbotError e) eqn:Hclass; [|done].
  revert Hbody. unfold match_intent.
  destruct (truthy query); simpl; [|done].
  destruct query as [| | | | |text| | |]; try by intros [= <-].
  destruct (intents this) as [| | | | | |entries| |]; try by intros [= <-].
  destruct (length entries =? 0); [by intros [= <-]|].
  destruct (String.length _ =? 0); [done|].
  destruct (scan_intents _ _ entries _) as [|e'] eqn:Hscan; simpl; [done|].
  intros [= ->]. apply scan_intents_throws in Hscan.
  unfold instanceof_ChatbotError in Hclass. by rewrite Hscan in Hclass.
Qed.

Lemma generateResponse_resolver_failure this query random error :
  truthy query = true → is_string query = true →
  findMatchingIntent this query = Throw error →
  ∃ this', generateResponse query random this = (this', Normal INTENT_MATCH_ERROR_result).
Proof.
  intros Htruthy Hstring Hmatch.
  pose proof (findMatchingIntent_throws_IntentMatchError _ _ _ Hmatch) as Hclass.
  destruct this as [catalog has_metrics events].
  unfold generateResponse, try_finally, try_catch, bind, throw, ret, with_metrics, emit.
  rewrite Htruthy, Hstring. cbn [negb]. rewrite Hmatch, Hclass.
  destruct has_metrics; simpl; eauto.
Qed.




(** ** Selecting a response *)

Lemma random_index_spec (random : Q) (n : nat) :
  (0 <= random < 1)%Q → 0 < n →
  ∃ k, k < n ∧ random_index random n = Z.of_nat k
       ∧ (Qnat k / Qnat n <= random < Qnat (k + 1) / Qnat n)%Q.
Proof.
  intros [Hlo Hhi] Hn. unfold random_index.
  pose proof (Qnat_pos n Hn) as Hpos.
  pose proof (Qfloor_le (random * Qnat n)) as Hfloor_le.
  pose proof (Qlt_floor (random * Qnat n)) as Hfloor_lt.
  assert (0 <= random * Qnat n)%Q as Hx_lo by (by apply Qmult_le_0_compat; [|lra]).
  assert (random * Qnat n < Qnat n)%Q as Hx_hi.
  { rewrite <-(Qmult_1_l (Qnat n)) at 2. by apply Qmult_lt_compat_r. }
  assert (0 ≤ Qfloor (random * Qnat n) < Z.of_nat n)%Z as Hrange.
  { split.
    - assert (inject_Z 0 < inject_Z (Qfloor (random * Qnat n) + 1))%Q as Hlt
        by (change (inject_Z 0) with 0%Q; lra).
      rewrite <-Zlt_Qlt in Hlt. lia.
    - rewrite Zlt_Qlt. fold (Qnat n). lra. }
  exists (Z.to_nat (Qfloor (random * Qnat n))).
  split; [lia|]. split; [lia|].
  assert (Qnat (Z.to_nat (Qfloor (random * Qnat n)))
          = inject_Z (Qfloor (random * Qnat n))) as Hk.
  { apply Qnat_to_nat. lia. }
  split.
  - apply Qle_shift_div_r; [done|]. by rewrite Hk.
  - apply Qlt_shift_div_l; [done|].
    rewrite Qnat_S, Hk. rewrite inject_Z_plus in Hfloor_lt. done.
Qed.

Lemma js_index_lookup elems k :
  k < length elems → ∃ v, elems !! k = Some v ∧ js_index elems (Z.of_nat k) = v.
Proof.
  intros Hk. destruct (lookup_lt_is_Some_2 elems k Hk) as [v Hv].
  exists v. split; [done|]. unfold js_index.
  destruct (Z.ltb_spec (Z.of_nat k) 0); [lia|]. by rewrite Nat2Z.id, Hv.
Qed.

(** ** The expectations of the test suite, evaluated on the model *)

Example distance_kitten_sitting : _calculateLevenshteinDistance "kitten" "sitting" = 3.
Proof. reflexivity. Qed.

Example loads_sample_catalog :
  new_ChatbotService (catalog_of sample_intents) false = (sample_service, Normal tt).
Proof. reflexivity. Qed.

Example finds_exact_match :
  (let! intent := findMatchingIntent sample_service (JStr "What to do if Cuts?") in
   get_prop intent "tag")%outcome = Normal (JStr "Cuts").
Proof. vm_compute. reflexivity. Qed.

Example finds_partial_match :
  (let! intent := findMatchingIntent sample_service (JStr "I have cuts on my hand") in
   get_prop intent "tag")%outcome = Normal (JStr "Cuts").
Proof. vm_compute. reflexivity. Qed.

Example matches_case_insensitively :
  (let! intent := findMatchingIntent sample_service (JStr "how to cure CUTS?") in
   get_prop intent "tag")%outcome = Normal (JStr "Cuts").
Proof. vm_compute. reflexivity. Qed.

Example returns_null_for_no_match :
  findMatchingIntent sample_service (JStr "something completely unrelated") = Normal JNull.
Proof. vm_compute. reflexivity. Qed.

Example skips_invalid_patterns :
  findMatchingIntent
    (mkService
       (JArr [intent_entry "Test" [JNull; JStr "valid pattern"; JNum 123]
                [JStr "Test response"]]) false [])
    (JStr "valid pattern")
  = Normal (intent_entry "Test" [JNull; JStr "valid pattern"; JNum 123]
              [JStr "Test response"]).
Proof. vm_compute. reflexivity. Qed.

Example generates_response_for_matching_intent :
  (generateResponse (JStr "What to do if Cuts?") 0 sample_service).2
  = Normal (result_object "Clean the cut and apply pressure to stop bleeding."
              (JStr "Cuts") JNull).
Proof. vm_compute. reflexivity. Qed.

Example generates_default_response :
  (generateResponse (JStr "something completely unrelated") 0 sample_service).2
  = Normal NO_MATCH_result.
Proof. vm_compute. reflexivity. Qed.

Example rejects_non_string_query :
  (generateResponse (JNum 123) 0 sample_service).2 = Normal INTERNAL_ERROR_result.
Proof. vm_compute. reflexivity. Qed.

Example empty_responses_give_internal_error :
  (generateResponse (JStr "test pattern") 0
     (mkService (JArr [intent_entry "Test" [JStr "test pattern"] []]) false [])).2
  = Normal INTERNAL_ERROR_result.
Proof. vm_compute. reflexivity. Qed.

(** * Further properties of the service *)

(** ** The edit distance as a metric *)

Module LevenshteinMetric.
Import Levenshtein.
Section WithAlphabet.
Context {A : Type} `{EqDecision A}.
Implicit Types (a b t : list A).

Lemma edits_0_eq a b : edits 0 a b → a = b.
Proof. by inversion 1. Qed.

Lemma edits_trans (n k : nat) a b t : edits n a b → edits k b t → edits (n + k) a t.
Proof.
  induction 1 as [|n a b b' Hstep _ IH]; intros Hrest; simpl; [done|].
  eapply edits_step; [done | by apply IH].
Qed.

Lemma edit1_length a b : edit1 a b → length b ≤ length a + 1 ∧ length a ≤ length b + 1.
Proof.
  intros [pre x post|pre x post|pre x y post]; rewrite !length_app; simpl; lia.
Qed.

Lemma edits_length (n : nat) a b :
  edits n a b → length b ≤ length a + n ∧ length a ≤ length b + n.
Proof.
  induction 1 as [|n a b t Hstep%edit1_length _ IH]; lia.
Qed.

Lemma distance_0_iff a b : _calculateLevenshteinDistance a b = 0 ↔ a = b.
Proof.
  split.
  - intros Hzero. destruct (LevenshteinFacts.distance_min_edits a b) as [Hedits _].
    rewrite Hzero in Hedits. by apply edits_0_eq.
  - intros ->. apply LevenshteinFacts.distance_refl.
Qed.

Lemma distance_triangle a b t :
  _calculateLevenshteinDistance a t
  ≤ _calculateLevenshteinDistance a b + _calculateLevenshteinDistance b t.
Proof.
  destruct (LevenshteinFacts.distance_min_edits a b) as [Hab _].
  destruct (LevenshteinFacts.distance_min_edits b t) as [Hbt _].
  destruct (LevenshteinFacts.distance_min_edits a t) as [_ Hmin].
  apply Hmin. by eapply edits_trans.
Qed.

Lemma distance_ge_length_gap a b :
  length a - length b ≤ _calculateLevenshteinDistance a b
  ∧ length b - length a ≤ _calculateLevenshteinDistance a b.
Proof.
  destruct (LevenshteinFacts.distance_min_edits a b) as [Hedits%edits_length _]. lia.
Qed.
End WithAlphabet.
End LevenshteinMetric.

Lemma chars_inj s1 s2 : JsString.chars s1 = JsString.chars s2 → s1 = s2.
Proof.
  revert s2. induction s1 as [|c s1 IH]; intros [|d s2] Heq; simplify_eq/=; [done|].
  f_equal. by apply IH.
Qed.

Lemma distance_ge_length_difference a b :
  String.length a - String.length b ≤ _calculateLevenshteinDistance a b
  ∧ String.length b - String.length a ≤ _calculateLevenshteinDistance a b.
Proof.
  unfold _calculateLevenshteinDistance. rewrite <-!length_chars.
  apply LevenshteinMetric.distance_ge_length_gap.
Qed.

Lemma distance_0_iff_equal a b : _calculateLevenshteinDistance a b = 0 ↔ a = b.
Proof.
  unfold _calculateLevenshteinDistance. rewrite LevenshteinMetric.distance_0_iff.
  split; [apply chars_inj | by intros ->].
Qed.

(** [X1] The edit distance is a metric on strings: it is [0] exactly
    between equal strings, it is symmetric, and it satisfies the
    triangle inequality. *)
Theorem editDistance_is_a_metric :
  (∀ a b, _calculateLevenshteinDistance a b = 0 ↔ a = b)
  ∧ (∀ a b, _calculateLevenshteinDistance a b = _calculateLevenshteinDistance b a)
  ∧ (∀ a b c,
       _calculateLevenshteinDistance a c
       ≤ _calculateLevenshteinDistance a b + _calculateLevenshteinDistance b c).
Proof.
  split; [apply distance_0_iff_equal|].
  unfold _calculateLevenshteinDistance. split.
  - intros a b. apply LevenshteinFacts.distance_sym.
  - intros a b c. apply LevenshteinMetric.distance_triangle.
Qed.

(** [X2] The edit distance lies between the difference and the maximum
    of the two lengths; against the empty string it is the length of
    the other string. *)
Theorem editDistance_length_bounds :
  (∀ a b,
     Nat.max (String.length a) (String.length b) - Nat.min (String.length a) (String.length b)
     ≤ _calculateLevenshteinDistance a b
     ≤ Nat.max (String.length a) (String.length b))
  ∧ (∀ a, _calculateLevenshteinDistance a "" = String.length a)
  ∧ (∀ b, _calculateLevenshteinDistance "" b = String.length b).
Proof.
  assert (∀ a b,
            Nat.max (String.length a) (String.length b)
            - Nat.min (String.length a) (String.length b)
            ≤ _calculateLevenshteinDistance a b
            ≤ Nat.max (String.length a) (String.length b)) as Hbounds.
  { intros a b. split; [|apply distance_le_max].
    pose proof (distance_ge_length_difference a b). lia. }
  split; [done|]. split.
  - intros a. specialize (Hbounds a ""). simpl in Hbounds. lia.
  - intros b. specialize (Hbounds "" b). simpl in Hbounds. lia.
Qed.

(** [X3] Two non-empty strings have similarity [1] exactly when they are
    equal. *)
Theorem similarity_1_iff_equal a b :
  a ≠ "" → b ≠ "" → (_calculateStringSimilarity a b == 1)%Q ↔ a = b.
Proof.
  intros Ha Hb. split; [|intros <-; by apply similarity_refl].
  rewrite similarity_nonempty by done. intros Hsim.
  apply length_pos_nonempty in Ha.
  assert (0 < Qnat (Nat.max (String.length a) (String.length b)))%Q as Hmax
    by (apply Qnat_pos; lia).
  assert (Qnat (_calculateLevenshteinDistance a b) == 0)%Q as Hzero.
  { assert (Qnat (_calculateLevenshteinDistance a b)
            / Qnat (Nat.max (String.length a) (String.length b)) == 0)%Q as Hdiv by lra.
    apply (Qmult_inj_r _ _ (/ Qnat (Nat.max (String.length a) (String.length b)))).
    - intros Hinv. apply Qinv_lt_0_compat in Hmax. lra.
    - rewrite Qmult_0_l. exact Hdiv. }
  unfold Qnat in Hzero. change 0%Q with (inject_Z 0) in Hzero.
  apply (proj1 (inject_Z_injective _ _)) in Hzero.
  apply distance_0_iff_equal. lia.
Qed.

Lemma similarity_1_iff_equal_witness :
  (_calculateStringSimilarity "fever" "fever" == 1)%Q ↔ "fever" = "fever".
Proof. apply (similarity_1_iff_equal "fever" "fever"); discriminate. Defined.

(** ** The words the scorer compares *)

Lemma split_space_no_space s w :
  w ∈ JsString.split_space s → JsString.includes w " " = false.
Proof.
  revert w. induction s as [|c s IH]; intros w; simpl.
  { intros ->%list_elem_of_singleton. reflexivity. }
  destruct (Ascii.eqb c " ") eqn:Hc.
  { intros [->|Hw]%elem_of_cons; [reflexivity | by apply IH]. }
  destruct (JsString.split_space s) as [|piece pieces] eqn:Hsplit.
  { by apply split_space_not_nil in Hsplit. }
  intros [->|Hw]%elem_of_cons.
  - simpl. rewrite Hc. simpl. apply IH. by left.
  - apply IH. by right.
Qed.

Lemma words_spec s w :
  w ∈ JsString.words s ↔ w ∈ JsString.split_space s ∧ w ≠ "".
Proof.
  unfold JsString.words. rewrite list_elem_of_filter. split.
  - intros [Hlen Hin]. split; [done|]. intros ->. simpl in Hlen. lia.
  - intros [Hin Hne]. split; [by apply length_pos_nonempty | done].
Qed.

(** [X4] Every word the scorer works with is non-empty and has no space
    in it; so the similarity of a query word and a pattern word is always
    given by the formula, never by the empty-string guard. *)
Theorem word_similarity_uses_the_formula s1 s2 word1 word2 :
  word1 ∈ JsString.words s1 → word2 ∈ JsString.words s2 →
  word1 ≠ "" ∧ word2 ≠ ""
  ∧ JsString.includes word1 " " = false ∧ JsString.includes word2 " " = false
  ∧ _calculateStringSimilarity word1 word2
    = (1 - Qnat (_calculateLevenshteinDistance word1 word2)
           / Qnat (Nat.max (String.length word1) (String.length word2)))%Q.
Proof.
  intros [Hsplit1 Hne1]%words_spec [Hsplit2 Hne2]%words_spec.
  split; [done|]. split; [done|].
  split; [by eapply split_space_no_space|]. split; [by eapply split_space_no_space|].
  by apply similarity_nonempty.
Qed.

Lemma word_similarity_uses_the_formula_witness :
  "cuts" ≠ "" ∧ "cure" ≠ ""
  ∧ JsString.includes "cuts" " " = false ∧ JsString.includes "cure" " " = false
  ∧ _calculateStringSimilarity "cuts" "cure"
    = (1 - Qnat (_calculateLevenshteinDistance "cuts" "cure")
           / Qnat (Nat.max (String.length "cuts") (String.length "cure")))%Q.
Proof.
  apply (word_similarity_uses_the_formula "i have cuts" "how to cure cuts?");
    vm_compute; set_solver.
Defined.

(** ** The best matching pattern word *)

Lemma word_at_lookup (words : list string) (j : nat) (w : string) :
  words !! j = Some w → word_at words (Z.of_nat j) = w.
Proof.
  intros Hw. unfold word_at.
  destruct (Z.ltb_spec (Z.of_nat j) 0); [lia|]. by rewrite Nat2Z.id, Hw.
Qed.

Lemma best_match_invariant queryWord patternWords :
  best_so_far queryWord patternWords (length patternWords)
    (best_match queryWord patternWords).
Proof.
  unfold best_match.
  apply (for_loop_invariant (best_so_far queryWord patternWords)
           (length patternWords) 0).
  { left. split; [done|]. intros i w Hi. lia. }
  intros k [bestMatchScore bestMatchIndex] Hk Hst.
  destruct (lookup_lt_is_Some_2 patternWords k) as [wk Hwk]; [lia|].
  rewrite (word_at_lookup _ _ _ Hwk).
  destruct (Qgtb _ _) eqn:Hgt.
  - apply Qgtb_true in Hgt. right. exists k, wk.
    split; [lia|]. split; [done|]. split; [done|].
    assert (∀ i w', i < k → patternWords !! i = Some w' →
                    (_calculateStringSimilarity queryWord w'
                     < _calculateStringSimilarity queryWord wk)%Q) as Hbefore.
    { intros i w' Hi Hw'.
      destruct Hst as [[[= -> ->] Hzero]|(j & w & Hj & Hw & [= -> ->] & Hall & _)].
      - specialize (Hzero i w' Hi Hw'). lra.
      - specialize (Hall i w' Hi Hw'). lra. }
    split; [|done].
    intros i w' Hi Hw'. destruct (decide (i = k)) as [->|Hne].
    + rewrite Hwk in Hw'. injection Hw' as <-. lra.
    + apply Qlt_le_weak, (Hbefore i); [lia | done].
  - apply Qgtb_false in Hgt.
    destruct Hst as [[[= -> ->] Hzero]|(j & w & Hj & Hw & [= -> ->] & Hall & Hfirst)].
    + left. split; [done|].
      intros i w' Hi Hw'. destruct (decide (i = k)) as [->|Hne].
      * rewrite Hwk in Hw'. by injection Hw' as <-.
      * apply (Hzero i); [lia | done].
    + right. exists j, w. split; [lia|]. split; [done|]. split; [done|].
      split; [|done].
      intros i w' Hi Hw'. destruct (decide (i = k)) as [->|Hne].
      * rewrite Hwk in Hw'. by injection Hw' as <-.
      * apply (Hall i); [lia | done].
Qed.

(** [X5] When the inner loop of [_calculateWordOrderSimilarity] ends
    with a positive [bestMatchScore] (in particular when
    [bestMatchScore > 0.6], the only case in which
    [patternWords[bestMatchIndex]] is read), [bestMatchIndex] is the index
    of a pattern word: the first one whose similarity to the query word is
    the largest, and [bestMatchScore] is that similarity. *)
Theorem best_match_is_first_most_similar queryWord patternWords :
  (0 < (best_match queryWord patternWords).1)%Q →
  ∃ j w,
    (best_match queryWord patternWords).2 = Z.of_nat j
    ∧ patternWords !! j = Some w
    ∧ word_at patternWords (best_match queryWord patternWords).2 = w
    ∧ (best_match queryWord patternWords).1 = _calculateStringSimilarity queryWord w
    ∧ (∀ i w', patternWords !! i = Some w' →
               (_calculateStringSimilarity queryWord w'
                <= _calculateStringSimilarity queryWord w)%Q)
    ∧ (∀ i w', i < j → patternWords !! i = Some w' →
               (_calculateStringSimilarity queryWord w'
                < _calculateStringSimilarity queryWord w)%Q).
Proof.
  intros Hpositive.
  destruct (best_match_invariant queryWord patternWords)
    as [[Hst _]|(j & w & Hj & Hw & Hst & Hall & Hfirst)];
    rewrite Hst in *; simpl in *; [lra|].
  exists j, w. split; [done|]. split; [done|].
  split; [by apply word_at_lookup|]. split; [done|]. split; [|done].
  intros i w' Hw'. apply (Hall i); [by eapply lookup_lt_Some | done].
Qed.

Lemma best_match_is_first_most_similar_witness :
  ∃ j w,
    (best_match "cuts" ["how"; "to"; "cure"; "cuts?"]).2 = Z.of_nat j
    ∧ ["how"; "to"; "cure"; "cuts?"] !! j = Some w
    ∧ word_at ["how"; "to"; "cure"; "cuts?"]
        (best_match "cuts" ["how"; "to"; "cure"; "cuts?"]).2 = w
    ∧ (best_match "cuts" ["how"; "to"; "cure"; "cuts?"]).1
      = _calculateStringSimilarity "cuts" w
    ∧ (∀ i w', ["how"; "to"; "cure"; "cuts?"] !! i = Some w' →
               (_calculateStringSimilarity "cuts" w'
                <= _calculateStringSimilarity "cuts" w)%Q)
    ∧ (∀ i w', i < j → ["how"; "to"; "cure"; "cuts?"] !! i = Some w' →
               (_calculateStringSimilarity "cuts" w'
                < _calculateStringSimilarity "cuts" w)%Q).
Proof.
  apply (best_match_is_first_most_similar "cuts" ["how"; "to"; "cure"; "cuts?"]).
  vm_compute. reflexivity.
Defined.

(** ** Normalizing the query *)

Lemma lower_char_idemp c : JsString.lower_char (JsString.lower_char c) = JsString.lower_char c.
Proof. by destruct c as [[] [] [] [] [] [] [] []]. Qed.

Lemma lower_char_white_space c :
  JsString.is_white_space (JsString.lower_char c) = JsString.is_white_space c.
Proof. by destruct c as [[] [] [] [] [] [] [] []]. Qed.

Lemma toLowerCase_idemp s :
  JsString.toLowerCase (JsString.toLowerCase s) = JsString.toLowerCase s.
Proof. induction s as [|c s IH]; simpl; [done|]. by rewrite lower_char_idemp, IH. Qed.

Lemma toLowerCase_trimStart s :
  JsString.toLowerCase (JsString.trimStart s) = JsString.trimStart (JsString.toLowerCase s).
Proof.
  induction s as [|c s IH]; simpl; [done|]. rewrite lower_char_white_space.
  by destruct (JsString.is_white_space c).
Qed.

Lemma toLowerCase_trimEnd s :
  JsString.toLowerCase (JsString.trimEnd s) = JsString.trimEnd (JsString.toLowerCase s).
Proof.
  induction s as [|c s IH]; simpl; [done|]. rewrite <-IH, lower_char_white_space.
  destruct (JsString.trimEnd s); simpl; [|done].
  by destruct (JsString.is_white_space c).
Qed.

Lemma toLowerCase_trim s :
  JsString.toLowerCase (JsString.trim s) = JsString.trim (JsString.toLowerCase s).
Proof. unfold JsString.trim. by rewrite toLowerCase_trimEnd, toLowerCase_trimStart. Qed.

Lemma trimStart_fixed s :
  (∀ c r, s = String c r → JsString.is_white_space c = false) →
  JsString.trimStart s = s.
Proof.
  destruct s as [|c r]; simpl; [done|]. intros Hhead. by rewrite (Hhead c r eq_refl).
Qed.

Lemma trimEnd_idemp s : JsString.trimEnd (JsString.trimEnd s) = JsString.trimEnd s.
Proof.
  induction s as [|c s IH]; simpl; [done|].
  destruct (JsString.trimEnd s) as [|d r] eqn:Hend.
  - destruct (JsString.is_white_space c) eqn:Hc; simpl; [done|]. by rewrite Hc.
  - simpl in *. rewrite IH. done.
Qed.

Lemma trim_idemp s : JsString.trim (JsString.trim s) = JsString.trim s.
Proof.
  unfold JsString.trim. rewrite (trimStart_fixed (JsString.trimEnd _)).
  - apply trimEnd_idemp.
  - intros c r [r' Hstart]%trimEnd_head. by eapply trimStart_head.
Qed.

Lemma normalize_idemp text :
  JsString.trim (JsString.toLowerCase (JsString.trim (JsString.toLowerCase text)))
  = JsString.trim (JsString.toLowerCase text).
Proof. by rewrite toLowerCase_trim, toLowerCase_idemp, trim_idemp. Qed.

Lemma match_intent_normalized this text1 text2 :
  text1 ≠ "" → text2 ≠ "" →
  JsString.trim (JsString.toLowerCase text1) = JsString.trim (JsString.toLowerCase text2) →
  findMatchingIntent this (JStr text1) = findMatchingIntent this (JStr text2).
Proof.
  intros H1 H2 Heq. unfold findMatchingIntent, match_intent.
  rewrite !truthy_JStr by done. simpl. by rewrite Heq.
Qed.

(** [X6] [findMatchingIntent] depends on a string query only through
    its normalized form: queries that differ in letter case or in
    surrounding white space get the same result, and a query gets the
    same result as its own lower-cased, trimmed form (normalizing twice
    changes nothing). *)
Theorem findMatchingIntent_factors_through_normalization this text :
  JsString.trim (JsString.toLowerCase text) ≠ "" →
  findMatchingIntent this (JStr (JsString.trim (JsString.toLowerCase text)))
  = findMatchingIntent this (JStr text)
  ∧ findMatchingIntent this (JStr (JsString.toLowerCase text))
    = findMatchingIntent this (JStr text)
  ∧ findMatchingIntent this (JStr (JsString.trim text))
    = findMatchingIntent this (JStr text)
  ∧ ∀ other,
      JsString.trim (JsString.toLowerCase other) = JsString.trim (JsString.toLowerCase text) →
      findMatchingIntent this (JStr other) = findMatchingIntent this (JStr text).
Proof.
  intros Hquery. pose proof (normalized_nonempty text Hquery) as Htext.
  split; [|split; [|split]].
  - apply match_intent_normalized; [done | done | apply normalize_idemp].
  - apply match_intent_normalized; [by destruct text | done | by rewrite toLowerCase_idemp].
  - apply match_intent_normalized; [|done|].
    + intros Htrim. apply Hquery. by rewrite <-toLowerCase_trim, Htrim.
    + by rewrite <-toLowerCase_trim, trim_idemp, toLowerCase_trim.
  - intros other Hother. apply match_intent_normalized; [|done|done].
    intros ->. by rewrite <-Hother in Hquery.
Qed.

Lemma findMatchingIntent_factors_through_normalization_witness :
  findMatchingIntent sample_service (JStr (JsString.toLowerCase "  How to cure CUTS?  "))
  = findMatchingIntent sample_service (JStr "  How to cure CUTS?  ").
Proof.
  assert (JsString.trim (JsString.toLowerCase "  How to cure CUTS?  ") ≠ "") as Hquery
    by (vm_compute; discriminate).
  destruct (findMatchingIntent_factors_through_normalization
              sample_service "  How to cure CUTS?  " Hquery) as (_ & Hlower & _).
  exact Hlower.
Defined.

(** ** A query that is a pattern of the catalog *)

Lemma fold_max_ge {X : Type} (f : X → Q) (l : list X) (start : Q) :
  (start <= fold_left (λ best x, Qmax best (f x)) l start)%Q
  ∧ ∀ x, x ∈ l → (f x <= fold_left (λ best x, Qmax best (f x)) l start)%Q.
Proof.
  revert start. induction l as [|y l IH]; intros start; simpl.
  { split; [lra|]. intros x Hx. by apply elem_of_nil in Hx. }
  destruct (IH (Qmax start (f y))) as [Hmono Hupper].
  pose proof (Q.le_max_l start (f y)). pose proof (Q.le_max_r start (f y)).
  split; [lra|]. intros x [->|Hx]%elem_of_cons; [lra | by apply Hupper].
Qed.

Lemma bestWordScore_of_member word patternWords :
  word ≠ "" → word ∈ patternWords → (bestWordScore word patternWords == 1)%Q.
Proof.
  intros Hword Hin.
  pose proof (bestWordScore_unit_interval word patternWords) as [_ Hle].
  destruct (fold_max_ge (_calculateStringSimilarity word) patternWords 0) as [_ Hupper].
  specialize (Hupper word Hin). fold (bestWordScore word patternWords) in Hupper.
  pose proof (similarity_refl word Hword). lra.
Qed.

Lemma word_level_of_members patternWords queryWords (sum : Q) (matched : nat) :
  (∀ w, w ∈ queryWords → w ≠ "" ∧ w ∈ patternWords) →
  ((fold_left (word_level_step patternWords) queryWords (sum, matched)).1
   == sum + Qnat (length queryWords))%Q
  ∧ (fold_left (word_level_step patternWords) queryWords (sum, matched)).2
    = matched + length queryWords.
Proof.
  revert sum matched. induction queryWords as [|w rest IH]; intros sum matched Hmembers.
  { simpl. change (Qnat 0) with 0%Q. split; [lra | lia]. }
  destruct (Hmembers w) as [Hw Hin]; [by left|].
  pose proof (bestWordScore_of_member w patternWords Hw Hin) as Hbest.
  cbn [fold_left length].
  replace (word_level_step patternWords (sum, matched) w)
    with ((sum + bestWordScore w patternWords)%Q, matched + 1).
  2:{ unfold word_level_step.
      assert (Qgtb (bestWordScore w patternWords) 0.6 = true) as ->; [|done].
      apply Qgtb_true. lra. }
  destruct (IH (sum + bestWordScore w patternWords)%Q (matched + 1)) as [-> ->].
  { intros w' Hw'. apply Hmembers. by right. }
  assert (Qnat (Datatypes.S (length rest)) == Qnat (length rest) + 1)%Q as ->.
  { rewrite <-Qnat_S. by rewrite Nat.add_1_r. }
  split; [lra | lia].
Qed.

Lemma patternScore_of_pattern text pattern :
  JsString.trim (JsString.toLowerCase text) ≠ "" →
  JsString.toLowerCase pattern = JsString.trim (JsString.toLowerCase text) →
  (13 # 16 <= patternScore (JsString.trim (JsString.toLowerCase text))
                (JsString.words (JsString.trim (JsString.toLowerCase text))) pattern)%Q.
Proof.
  intros Hquery Hpattern. pose proof (words_of_trimmed_not_nil _ Hquery) as Hwords.
  unfold patternScore. rewrite Hpattern, String.eqb_refl.
  set (queryWords := JsString.words (JsString.trim (JsString.toLowerCase text))) in *.
  pose proof (wordOrderSimilarity_unit_interval queryWords queryWords) as [Horder _].
  destruct (word_level_of_members queryWords queryWords 0 0) as [Hsum Hmatched].
  { intros w Hw. split; [|done]. by apply words_spec in Hw as [_ ?]. }
  fold (word_level queryWords queryWords) in Hsum, Hmatched.
  destruct (word_level queryWords queryWords) as [wordSimilarityScore matchedWords].
  simpl in Hsum, Hmatched. subst matchedWords. rewrite Nat.max_id, Hsum, Qplus_0_l.
  assert (0 < Qnat (length queryWords))%Q as Hlen.
  { apply Qnat_pos. destruct queryWords; [done | simpl; lia]. }
  assert (Qnat (length queryWords) / Qnat (length queryWords) == 1)%Q as ->.
  { field. lra. }
  apply Qle_shift_div_l; [lra|]. lra.
Qed.



(** ** The runs of [generateResponse] *)

Ltac finish_run has_metrics :=
  destruct has_metrics; simpl; rewrite <-?(assoc_L (++)); simpl.

(** The six ways a call can go, with the result and the calls made to
    the metrics collaborator in each. *)
Lemma generateResponse_runs query random this :
  (truthy query = false
   ∧ generateResponse query random this
     = (after_recording this [RecordResponseTime], Normal EMPTY_QUERY_result))
  ∨ (truthy query = true ∧ is_string query = false
     ∧ generateResponse query random this
       = (after_recording this
            [RecordError "INTERNAL_ERROR" (Text "Query must be a string");
             RecordResponseTime],
          Normal INTERNAL_ERROR_result))
  ∨ (truthy query = true ∧ is_string query = true
     ∧ ∃ error,
         findMatchingIntent this query = Throw error
         ∧ generateResponse query random this
           = (after_recording this
                [RecordError "INTENT_MATCH_ERROR" (err_message error); RecordResponseTime],
              Normal INTENT_MATCH_ERROR_result))
  ∨ (truthy query = true ∧ is_string query = true
     ∧ ∃ matchedIntent,
         findMatchingIntent this query = Normal matchedIntent
         ∧ truthy matchedIntent = false
         ∧ generateResponse query random this
           = (after_recording this [RecordIntentMatch JNull; RecordResponseTime],
              Normal NO_MATCH_result))
  ∨ (truthy query = true ∧ is_string query = true
     ∧ ∃ matchedIntent tag responses response,
         findMatchingIntent this query = Normal matchedIntent
         ∧ truthy matchedIntent = true
         ∧ get_prop matchedIntent "tag" = Normal tag
         ∧ get_prop matchedIntent "responses" = Normal (JArr responses)
         ∧ js_index responses (random_index random (length responses)) = JStr response
         ∧ JsString.trim response ≠ ""
         ∧ generateResponse query random this
           = (after_recording this
                [RecordIntentMatch tag; RecordResponseTime; RecordResponseTime],
              Normal (result_object response tag JNull)))
  ∨ (truthy query = true ∧ is_string query = true
     ∧ ∃ matchedIntent message,
         findMatchingIntent this query = Normal matchedIntent
         ∧ truthy matchedIntent = true
         ∧ (∀ responses,
              get_prop matchedIntent "responses" = Normal (JArr responses) →
              responses = []
              ∨ ¬ valid_response
                    (js_index responses (random_index random (length responses))))
         ∧ generateResponse query random this
           = (after_recording this
                [RecordError "INTERNAL_ERROR" message; RecordResponseTime],
              Normal INTERNAL_ERROR_result)).
Proof.
  destruct this as [catalog has_metrics events].
  unfold generateResponse, try_finally, try_catch, select_response,
    bind, lift, throw, ret, with_metrics, emit, after_recording.
  destruct (truthy query) eqn:Htruthy; cbn [negb];
    [|left; split; [done|]; by destruct has_metrics].
  destruct (is_string query) eqn:Hstring; cbn [negb];
    [|right; left; split; [done|]; split; [done|]; by finish_run has_metrics].
  destruct (findMatchingIntent _ query) as [matchedIntent|error] eqn:Hmatch.
  2:{ right; right; left. split; [done|]. split; [done|]. exists error. split; [done|].
      rewrite (findMatchingIntent_throws_IntentMatchError _ _ _ Hmatch).
      by finish_run has_metrics. }
  destruct (truthy matchedIntent) eqn:Hmatched; cbn [negb].
  2:{ right; right; right; left. split; [done|]. split; [done|].
      exists matchedIntent. split; [done|]. split; [done|]. by finish_run has_metrics. }
  destruct (get_prop_truthy matchedIntent "responses" Hmatched) as [responses Hresponses].
  destruct (get_prop_truthy matchedIntent "tag" Hmatched) as [tag Htag].
  rewrite Hresponses, Htag.
  destruct (isArray responses) eqn:Harray.
  2:{ do 5 right. split; [done|]. split; [done|].
      exists matchedIntent, (Template "No responses available for intent: " tag).
      split; [done|]. split; [done|]. split.
      - intros elems Helems. rewrite Hresponses in Helems. injection Helems as ->. done.
      - destruct responses; try done; by finish_run has_metrics. }
  destruct responses as [| | | | | |elems| |]; try done.
  destruct (Nat.eqb_spec (length elems) 0) as [Hlen|Hlen].
  { do 5 right. split; [done|]. split; [done|].
    exists matchedIntent, (Template "No responses available for intent: " tag).
    split; [done|]. split; [done|]. split.
    - intros elems' Helems. rewrite Hresponses in Helems. injection Helems as <-.
      left. by destruct elems.
    - by finish_run has_metrics. }
  destruct (js_index elems (random_index random (length elems))) as [| | | | |response| | |]
    eqn:Hindex.
  6:{ destruct (Nat.eqb_spec (String.length (JsString.trim response)) 0) as [Hblank|Hvalid].
      - do 5 right. split; [done|]. split; [done|].
        exists matchedIntent, (Template "Invalid response for intent: " tag).
        split; [done|]. split; [done|]. split.
        + intros elems' Helems. rewrite Hresponses in Helems. injection Helems as <-.
          right. rewrite Hindex. intros (r & [= <-] & Hr).
          by destruct (JsString.trim response).
        + by finish_run has_metrics.
      - do 4 right. left. split; [done|]. split; [done|].
        exists matchedIntent, tag, elems, response.
        split; [done|]. split; [done|]. split; [done|]. split; [done|]. split; [done|].
        split; [by intros Hblank; rewrite Hblank in Hvalid|].
        by finish_run has_metrics. }
  all: do 5 right; split; [done|]; split; [done|];
    exists matchedIntent, (Template "Invalid response for intent: " tag);
    (split; [done|]); (split; [done|]); split;
    [intros elems' Helems; rewrite Hresponses in Helems; injection Helems as <-;
     right; rewrite Hindex; by intros (r & ? & ?)
    |by finish_run has_metrics].
Qed.

Lemma js_index_elem elems index v :
  js_index elems index = v → v ≠ JUndefined → v ∈ elems.
Proof.
  unfold js_index. destruct (index <? 0)%Z; [by intros <-|].
  destruct (elems !! Z.to_nat index) as [w|] eqn:Hw; simpl; [|by intros <-].
  intros <- _. by eapply list_elem_of_lookup_2.
Qed.

Lemma findMatchingIntent_blank this text entries :
  text ≠ "" → intents this = JArr entries → entries ≠ [] →
  JsString.trim (JsString.toLowerCase text) = "" →
  findMatchingIntent this (JStr text) = Normal JNull.
Proof.
  intros Htext Hintents Hentries Hblank. unfold findMatchingIntent, match_intent.
  rewrite truthy_JStr, Hintents, Hblank by done. simpl. by destruct entries.
Qed.

Lemma findMatchingIntent_no_intents this text :
  text ≠ "" → no_intents_available this →
  findMatchingIntent this (JStr text)
  = Throw (match_error "No intents available for matching").
Proof.
  intros Htext Hnone. unfold findMatchingIntent, match_intent.
  rewrite truthy_JStr by done. simpl.
  destruct (intents this) as [| | | | | |entries| |] eqn:Hintents; try done.
  by rewrite (Hnone entries Hintents).
Qed.

Lemma findMatchingIntent_well_formed_returns this text entries :
  intents this = JArr entries → entries ≠ [] → Forall well_formed_intent entries →
  ∃ result, findMatchingIntent this (JStr text) = Normal result.
Proof.
  intros Hintents Hentries Hwf.
  destruct (decide (text = "")) as [->|Htext]; [by exists JNull|].
  destruct (decide (JsString.trim (JsString.toLowerCase text) = "")) as [Hblank|Hquery].
  { exists JNull. by eapply findMatchingIntent_blank. }
  rewrite (findMatchingIntent_scan this text entries) by done.
  destruct (scan_intents_spec (JsString.trim (JsString.toLowerCase text))
              (JsString.words (JsString.trim (JsString.toLowerCase text)))
              entries (mkBestMatch JNull 0) Hwf) as (result & -> & _).
  eauto.
Qed.

(** [X8] [generateResponse] never changes the installed catalog or the
    metrics collaborator; what it leaves behind is a longer trace of
    calls to the metrics collaborator, and nothing at all when no metrics
    collaborator was injected. *)
Theorem generateResponse_keeps_the_service query random this :
  intents (generateResponse query random this).1 = intents this
  ∧ metrics (generateResponse query random this).1 = metrics this
  ∧ (∃ events, trace (generateResponse query random this).1 = trace this ++ events)
  ∧ (metrics this = false → (generateResponse query random this).1 = this).
Proof.
  assert (∀ events,
            intents (after_recording this events) = intents this
            ∧ metrics (after_recording this events) = metrics this
            ∧ (∃ events', trace (after_recording this events) = trace this ++ events')
            ∧ (metrics this = false → after_recording this events = this)) as Hafter.
  { intros events. unfold after_recording. split; [done|]. split; [done|]. split.
    - destruct (metrics this); simpl; [by eexists | exists []; by rewrite app_nil_r].
    - intros Hnone. destruct this; simpl in *. by subst. }
  destruct (generateResponse_runs query random this)
    as [(_ & ->)|[(_ & _ & ->)|[(_ & _ & ? & _ & ->)|[(_ & _ & ? & _ & _ & ->)
       |[(_ & _ & ? & ? & ? & ? & _ & _ & _ & _ & _ & _ & ->)
        |(_ & _ & ? & ? & _ & _ & _ & ->)]]]]]; apply Hafter.
Qed.

Lemma generateResponse_keeps_the_service_witness :
  (generateResponse (JStr "How to cure Cuts?") 0 sample_service).1 = sample_service.
Proof.
  destruct (generateResponse_keeps_the_service (JStr "How to cure Cuts?") 0 sample_service)
    as (_ & _ & _ & Hsame).
  apply Hsame. reflexivity.
Defined.




(** [X11] The guards of [generateResponse]: a falsy query gives the
    [EMPTY_QUERY] result; a truthy query that is not a string the
    [INTERNAL_ERROR] result; a non-empty string the [INTENT_MATCH_ERROR]
    result when the catalog is empty or missing, and the [NO_MATCH]
    result when it is blank and a catalog is installed. *)
Theorem generateResponse_guards :
  (∀ this query random,
     truthy query = false →
     (generateResponse query random this).2 = Normal EMPTY_QUERY_result)
  ∧ (∀ this query random,
       truthy query = true → is_string query = false →
       (generateResponse query random this).2 = Normal INTERNAL_ERROR_result)
  ∧ (∀ this text random,
       text ≠ "" → no_intents_available this →
       (generateResponse (JStr text) random this).2 = Normal INTENT_MATCH_ERROR_result)
  ∧ (∀ this text random entries,
       text ≠ "" → intents this = JArr entries → entries ≠ [] →
       JsString.trim (JsString.toLowerCase text) = "" →
       (generateResponse (JStr text) random this).2 = Normal NO_MATCH_result).
Proof.
  split; [|split; [|split]].
  - intros this query random Hfalsy.
    destruct (generateResponse_runs query random this)
      as [(_ & ->)|[(? & _)|[(? & _)|[(? & _)|[(? & _)|(? & _)]]]]]; [done|congruence..].
  - intros this query random Htruthy Hstring.
    destruct (generateResponse_runs query random this)
      as [(? & _)|[(_ & _ & ->)|[(_ & ? & _)|[(_ & ? & _)|[(_ & ? & _)|(_ & ? & _)]]]]];
      [congruence|done|congruence..].
  - intros this text random Htext Hnone.
    pose proof (findMatchingIntent_no_intents this text Htext Hnone) as Hthrow.
    destruct (generateResponse_runs (JStr text) random this)
      as [(? & _)|[(_ & ? & _)|[(_ & _ & ? & _ & ->)|[(_ & _ & ? & ? & _)
         |[(_ & _ & ? & ? & ? & ? & ? & _)|(_ & _ & ? & ? & ? & _)]]]]];
      [by rewrite truthy_JStr in * | done | done | congruence..].
  - intros this text random entries Htext Hintents Hentries Hblank.
    pose proof (findMatchingIntent_blank this text entries Htext Hintents Hentries Hblank)
      as Hnull.
    destruct (generateResponse_runs (JStr text) random this)
      as [(? & _)|[(_ & ? & _)|[(_ & _ & ? & ? & _)|[(_ & _ & ? & _ & _ & ->)
         |[(_ & _ & ? & ? & ? & ? & Hmatch & Htruthy & _)
          |(_ & _ & ? & ? & Hmatch & Htruthy & _)]]]]];
      [by rewrite truthy_JStr in * | done | congruence | done | |];
      rewrite Hnull in Hmatch; by injection Hmatch as <-.
Qed.

Lemma generateResponse_guards_witness :
  (generateResponse JNull 0 sample_service).2 = Normal EMPTY_QUERY_result
  ∧ (generateResponse (JBool true) 0 sample_service).2 = Normal INTERNAL_ERROR_result
  ∧ (generateResponse (JStr "fever") 0 fresh_service).2 = Normal INTENT_MATCH_ERROR_result
  ∧ (generateResponse (JStr "  ") 0 sample_service).2 = Normal NO_MATCH_result.
Proof.
  destruct generateResponse_guards as (Hempty & Hinternal & Hnone & Hblank).
  split; [by apply Hempty|]. split; [by apply Hinternal|]. split.
  - apply Hnone; [discriminate|]. intros entries [= <-]. reflexivity.
  - apply (Hblank sample_service "  " 0%Q sample_intents);
      [discriminate | reflexivity | discriminate | reflexivity].
Defined.



(** ** More on the resolver *)



Lemma get_prop_throws_nullish v name error :
  get_prop v name = Throw error →
  (v = JNull ∨ v = JUndefined)
  ∧ ∃ message, err_message error = Text message.
Proof.
  destruct v; simpl; try done; intros [= <-]; (split; [auto|]); by eexists.
Qed.

Lemma scan_intents_throws_nullish normalizedQuery queryWords entries bestMatch error :
  scan_intents normalizedQuery queryWords entries bestMatch = Throw error →
  (JNull ∈ entries ∨ JUndefined ∈ entries)
  ∧ ∃ message, err_message error = Text message.
Proof.
  revert bestMatch. induction entries as [|intent rest IH]; intros bestMatch; simpl; [done|].
  destruct (get_prop intent "patterns") as [patterns|e] eqn:Hpatterns; simpl.
  - intros Hrest.
    assert (∃ bm, scan_intents normalizedQuery queryWords rest bm = Throw error)
      as [bm Hbm] by (destruct patterns; eauto).
    destruct (IH bm Hbm) as [[Hnull|Hundef] Hmessage];
      (split; [|done]); [left | right]; by right.
  - intros [= <-]. destruct (get_prop_throws_nullish _ _ _ Hpatterns) as [[->| ->] Hmessage];
      (split; [|done]); [left | right]; by left.
Qed.



(** ** More on the catalog loader *)

Lemma validate_intentsData_throws intentsData error :
  validate_intentsData intentsData = Throw error →
  err_class error = IntentLoadError ∨ err_class error = TypeError.
Proof.
  unfold validate_intentsData.
  destruct (truthy intentsData) eqn:Htruthy; simpl; [|by intros [= <-]; left].
  destruct (get_prop_truthy intentsData "intents" Htruthy) as [entries ->]. simpl.
  destruct (truthy entries); simpl; [|by intros [= <-]; left].
  destruct entries as [| | | | | |elems| |]; try (by intros [= <-]; left).
  destruct (length elems =? 0); [by intros [= <-]; left|].
  destruct (validate_all elems) as [[]|e] eqn:Hall; simpl; [done|].
  intros [= <-]. by eapply validate_all_throws.
Qed.

Lemma validate_intentsData_returns intentsData :
  (∃ v, validate_intentsData intentsData = Normal v)
  ↔ truthy intentsData = true
    ∧ ∃ entries,
        get_prop intentsData "intents" = Normal (JArr entries)
        ∧ entries ≠ [] ∧ Forall well_formed_intent entries.
Proof.
  unfold validate_intentsData. split.
  - intros [v Hv]. destruct (truthy intentsData) eqn:Htruthy; simpl in Hv; [|done].
    split; [done|].
    destruct (get_prop intentsData "intents") as [entries|]; simpl in Hv; [|done].
    destruct (truthy entries); simpl in Hv; [|done].
    destruct entries as [| | | | | |elems| |]; try done.
    destruct (Nat.eqb_spec (length elems) 0) as [|Hlen]; [done|].
    destruct (validate_all elems) as [[]|] eqn:Hall; [|done].
    exists elems. split; [done|]. split; [by destruct elems|].
    by apply validate_all_well_formed.
  - intros (-> & entries & -> & Hne & Hwf). simpl.
    destruct (Nat.eqb_spec (length entries) 0) as [Hlen|_]; [by destruct entries|].
    apply validate_all_well_formed in Hwf. rewrite Hwf. simpl. eauto.
Qed.

(** [X15] [loadIntents] succeeds exactly when [intentsData] is truthy
    and its [intents] property is a non-empty array of well-formed
    entries; it then installs that very array and calls neither the
    logger nor the metrics collaborator. *)
Theorem loadIntents_succeeds_iff intentsData this this' :
  loadIntents intentsData this = (this', Normal tt)
  ↔ truthy intentsData = true
    ∧ ∃ entries,
        get_prop intentsData "intents" = Normal (JArr entries)
        ∧ entries ≠ [] ∧ Forall well_formed_intent entries
        ∧ this' = mkService (JArr entries) (metrics this) (trace this).
Proof.
  rewrite loadIntents_unfold. split.
  - destruct (validate_intentsData intentsData) as [v|] eqn:Hvalid; [|done].
    intros [= <-].
    destruct (proj1 (validate_intentsData_returns intentsData))
      as (Htruthy & entries & Hprop & Hne & Hwf); [by eexists|].
    split; [done|]. exists entries. repeat (split; [done|]).
    revert Hvalid. unfold validate_intentsData. rewrite Htruthy, Hprop. simpl.
    destruct (length entries =? 0); [done|].
    destruct (validate_all entries) as [[]|]; simpl; [|done]. by intros [= <-].
  - intros (Htruthy & entries & Hprop & Hne & Hwf & ->).
    unfold validate_intentsData. rewrite Htruthy, Hprop. simpl.
    destruct (Nat.eqb_spec (length entries) 0) as [Hlen|_]; [by destruct entries|].
    apply validate_all_well_formed in Hwf. by rewrite Hwf.
Qed.

Lemma loadIntents_succeeds_iff_witness :
  loadIntents (catalog_of sample_intents) fresh_service = (sample_service, Normal tt).
Proof.
  apply (loadIntents_succeeds_iff (catalog_of sample_intents) fresh_service sample_service).
  split; [reflexivity|]. exists sample_intents.
  split; [reflexivity|]. split; [discriminate|]. split; [|reflexivity].
  unfold sample_intents.
  repeat (constructor; [eexists _, _, _; repeat split; reflexivity|]). constructor.
Defined.

Lemma loadIntents_unfold_success intentsData this this' :
  loadIntents intentsData this = (this', Normal tt) →
  ∃ entries,
    get_prop intentsData "intents" = Normal (JArr entries)
    ∧ entries ≠ [] ∧ Forall well_formed_intent entries
    ∧ this' = mkService (JArr entries) (metrics this) (trace this).
Proof.
  rewrite loadIntents_unfold. unfold validate_intentsData.
  destruct (truthy intentsData); simpl; [|done].
  destruct (get_prop intentsData "intents") as [entries|]; simpl; [|done].
  destruct (truthy entries); simpl; [|done].
  destruct entries as [| | | | | |elems| |]; simpl; try done.
  destruct (Nat.eqb_spec (length elems) 0) as [|Hlen]; simpl; [done|].
  destruct (validate_all elems) as [[]|] eqn:Hall; simpl; [|done].
  intros [= <-]. exists elems. split; [done|].
  split; [by destruct elems|]. split; [by apply validate_all_well_formed | done].
Qed.

Lemma loadIntents_failure intentsData this this' error :
  loadIntents intentsData this = (this', Throw error) →
  ∃ original,
    validate_intentsData intentsData = Throw original
    ∧ error = (if instanceof_ChatbotError original then original
               else mkError IntentLoadError
                      (prepend "Failed to load intent data: " (err_message original)))
    ∧ err_class error = IntentLoadError
    ∧ this' = mkService (intents this) (metrics this)
                (trace this
                 ++ LoggerCall "Error loading intents:" original
                    :: (if metrics this
                        then [RecordError "INTENT_LOAD_ERROR" (err_message error)]
                        else [])).
Proof.
  rewrite loadIntents_unfold.
  destruct (validate_intentsData intentsData) as [|original] eqn:Hvalid; [done|].
  intros [= <- <-]. exists original. split; [done|]. split; [done|]. split.
  - destruct (validate_intentsData_throws _ _ Hvalid) as [Hclass|Hclass];
      unfold instanceof_ChatbotError; by rewrite Hclass.
  - f_equal. destruct (metrics this); [by rewrite <-(assoc_L (++))|done].
Qed.

(** [X16] A failed [loadIntents] always throws an [IntentLoadError]: the
    error of the failed check itself, or, when the failure was a
    [TypeError] on a [null] or [undefined] entry, a new error whose
    message is "Failed to load intent data: " followed by the original
    message.  It calls the logger exactly once, with the original error,
    and then the metrics collaborator, if there is one, exactly once,
    with the kind "INTENT_LOAD_ERROR" and the message of the error
    thrown. *)
Theorem loadIntents_failure_is_reported intentsData this this' error :
  loadIntents intentsData this = (this', Throw error) →
  err_class error = IntentLoadError
  ∧ metrics this' = metrics this
  ∧ ∃ original,
      trace this'
      = trace this
        ++ LoggerCall "Error loading intents:" original
           :: (if metrics this
               then [RecordError "INTENT_LOAD_ERROR" (err_message error)] else [])
      ∧ (err_class original = IntentLoadError ∧ error = original
         ∨ err_class original = TypeError
           ∧ error = mkError IntentLoadError
                       (prepend "Failed to load intent data: " (err_message original))).
Proof.
  intros (original & Hvalid & Herror & Hclass & ->)%loadIntents_failure.
  split; [done|]. split; [done|]. exists original. split; [done|].
  destruct (validate_intentsData_throws _ _ Hvalid) as [Horiginal|Horiginal];
    unfold instanceof_ChatbotError in Herror; rewrite Horiginal in Herror; auto.
Qed.

Lemma loadIntents_failure_is_reported_witness :
  err_class (mkError IntentLoadError
               (Text "Failed to load intent data: Cannot read properties of null (reading 'tag')"))
  = IntentLoadError.
Proof.
  apply (loadIntents_failure_is_reported (catalog_of [JNull])
           (mkService (JArr []) true [])
           (mkService (JArr []) true
              [LoggerCall "Error loading intents:"
                 (mkError TypeError (Text "Cannot read properties of null (reading 'tag')"));
               RecordError "INTENT_LOAD_ERROR"
                 (Text "Failed to load intent data: Cannot read properties of null (reading 'tag')")])).
  reflexivity.
Defined.

(** [X17] The checks of [loadIntents] in the order they fail: missing
    data, missing [intents] property, [intents] not an array, empty
    array; then, entry by entry, a missing required property before a
    [patterns] or [responses] that is not an array. *)
Theorem loadIntents_validation_order this :
  (∀ intentsData,
     truthy intentsData = false →
     (loadIntents intentsData this).2 = Throw (load_error "Intent data is missing"))
  ∧ (∀ intentsData entries,
       truthy intentsData = true →
       get_prop intentsData "intents" = Normal entries → truthy entries = false →
       (loadIntents intentsData this).2
       = Throw (load_error "Invalid intent data structure: missing intents property"))
  ∧ (∀ intentsData entries,
       truthy intentsData = true →
       get_prop intentsData "intents" = Normal entries →
       truthy entries = true → isArray entries = false →
       (loadIntents intentsData this).2
       = Throw (load_error "Invalid intent data structure: intents must be an array"))
  ∧ (∀ intentsData,
       truthy intentsData = true →
       get_prop intentsData "intents" = Normal (JArr []) →
       (loadIntents intentsData this).2 = Throw (load_error "Intent data is empty"))
  ∧ (∀ intentsData before intent after tag patterns responses,
       truthy intentsData = true →
       get_prop intentsData "intents" = Normal (JArr (before ++ intent :: after)) →
       Forall well_formed_intent before →
       get_prop intent "tag" = Normal tag →
       get_prop intent "patterns" = Normal patterns →
       get_prop intent "responses" = Normal responses →
       truthy tag = true → truthy patterns = true → truthy responses = true →
       isArray patterns = false ∨ isArray responses = false →
       (loadIntents intentsData this).2
       = Throw (load_error
                  "Invalid intent structure: patterns and responses must be arrays")).
Proof.
  split; [|split; [|split; [|split]]].
  - intros intentsData Hfalsy. rewrite loadIntents_unfold.
    unfold validate_intentsData. by rewrite Hfalsy.
  - intros intentsData entries Htruthy Hprop Hfalsy. rewrite loadIntents_unfold.
    unfold validate_intentsData. rewrite Htruthy, Hprop. simpl. by rewrite Hfalsy.
  - intros intentsData entries Htruthy Hprop Hentries Harray. rewrite loadIntents_unfold.
    unfold validate_intentsData. rewrite Htruthy, Hprop. simpl. rewrite Hentries. simpl.
    by destruct entries.
  - intros intentsData Htruthy Hprop. rewrite loadIntents_unfold.
    unfold validate_intentsData. by rewrite Htruthy, Hprop.
  - intros intentsData before intent after tag patterns responses
      Htruthy Hprop Hbefore Htag Hpatterns Hresponses Ht Hp Hr Harray.
    rewrite loadIntents_unfold. unfold validate_intentsData. rewrite Htruthy, Hprop. simpl.
    destruct (Nat.eqb_spec (length (before ++ intent :: after)) 0) as [Hlen|_].
    { rewrite length_app in Hlen. simpl in Hlen. lia. }
    assert (validate_all (before ++ intent :: after)
            = Throw (load_error
                       "Invalid intent structure: patterns and responses must be arrays"))
      as ->; [|done].
    clear Hprop. induction Hbefore as [|first before Hfirst _ IH]; simpl.
    + unfold validate_intent. rewrite Htag, Hpatterns, Hresponses. simpl.
      rewrite Ht, Hp, Hr. simpl. by destruct Harray as [-> | ->]; [|rewrite orb_true_r].
    + apply validate_intent_well_formed in Hfirst. by rewrite Hfirst.
Qed.

Lemma loadIntents_validation_order_witness :
  (loadIntents JNull fresh_service).2 = Throw (load_error "Intent data is missing")
  ∧ (loadIntents (JObj []) fresh_service).2
    = Throw (load_error "Invalid intent data structure: missing intents property")
  ∧ (loadIntents (JObj [("intents", JStr "not an array")]) fresh_service).2
    = Throw (load_error "Invalid intent data structure: intents must be an array")
  ∧ (loadIntents (catalog_of []) fresh_service).2
    = Throw (load_error "Intent data is empty")
  ∧ (loadIntents
       (catalog_of [JObj [("tag", JStr "Test"); ("patterns", JStr "test");
                          ("responses", JArr [])]]) fresh_service).2
    = Throw (load_error "Invalid intent structure: patterns and responses must be arrays").
Proof.
  destruct (loadIntents_validation_order fresh_service)
    as (Hmissing & Hproperty & Harray & Hempty & Hentry).
  split; [by apply Hmissing|].
  split; [by apply (Hproperty (JObj []) JUndefined)|].
  split; [by apply (Harray (JObj [("intents", JStr "not an array")]) (JStr "not an array"))|].
  split; [by apply Hempty|].
  apply (Hentry
           (catalog_of [JObj [("tag", JStr "Test"); ("patterns", JStr "test");
                              ("responses", JArr [])]])
           [] (JObj [("tag", JStr "Test"); ("patterns", JStr "test");
                     ("responses", JArr [])]) []
           (JStr "Test") (JStr "test") (JArr []));
    try reflexivity; [constructor | by left].
Defined.

(** ** The constructor *)

(** [X18] [new ChatbotService(...)]: without intent data the service is
    built with an empty catalog, and every non-empty string query is then
    answered with the [INTENT_MATCH_ERROR] result; with intent data the
    constructor either installs a non-empty array of well-formed entries
    or throws an [IntentLoadError], leaving the catalog empty. *)
Theorem constructor_outcomes intentsData has_metrics :
  (truthy intentsData = false
   ∧ new_ChatbotService intentsData has_metrics
     = (mkService (JArr []) has_metrics [], Normal tt)
   ∧ ∀ text random,
       text ≠ "" →
       (generateResponse (JStr text) random (mkService (JArr []) has_metrics [])).2
       = Normal INTENT_MATCH_ERROR_result)
  ∨ (truthy intentsData = true
     ∧ ∃ entries,
         get_prop intentsData "intents" = Normal (JArr entries)
         ∧ entries ≠ [] ∧ Forall well_formed_intent entries
         ∧ new_ChatbotService intentsData has_metrics
           = (mkService (JArr entries) has_metrics [], Normal tt))
  ∨ (truthy intentsData = true
     ∧ ∃ this error,
         new_ChatbotService intentsData has_metrics = (this, Throw error)
         ∧ err_class error = IntentLoadError
         ∧ intents this = JArr []).
Proof.
  unfold new_ChatbotService.
  destruct (truthy intentsData) eqn:Htruthy.
  - right.
    destruct (loadIntents intentsData (mkService (JArr []) has_metrics []))
      as [this [[]|error]] eqn:Hload.
    + left. split; [done|].
      apply loadIntents_unfold_success in Hload as (entries & Hprop & Hne & Hwf & ->).
      exists entries. by repeat split.
    + right. split; [done|]. exists this, error. split; [done|].
      apply loadIntents_failure in Hload as (original & _ & _ & Hclass & ->). by split.
  - left. split; [done|]. split; [done|].
    intros text random Htext.
    assert (findMatchingIntent (mkService (JArr []) has_metrics []) (JStr text)
            = Throw (match_error "No intents available for matching")) as Hthrow.
    { apply findMatchingIntent_no_intents; [done|]. by intros entries [= <-]. }
    destruct (generateResponse_runs (JStr text) random (mkService (JArr []) has_metrics []))
      as [(? & _)|[(_ & ? & _)|[(_ & _ & ? & _ & ->)|[(_ & _ & ? & ? & _)
         |[(_ & _ & ? & ? & ? & ? & ? & _)|(_ & _ & ? & ? & ? & _)]]]]];
      [by rewrite truthy_JStr in * | done | done | congruence..].
Qed.


(** * The scorer, the resolver and the facade in double precision *)

(** ** The order of the numbers *)

Module NumberFacts.
Import PrimFloat SpecFloat FloatOps FloatAxioms Number.

Lemma SFcompare_rank x y :
  SFcompare x y
  = match rank x, rank y with
    | Some kx, Some ky => Some (lex_compare kx ky)
    | _, _ => None
    end.
Proof.
  destruct x as [[]|[]| |[] m1 e1], y as [[]|[]| |[] m2 e2]; try reflexivity.
  unfold SFcompare, rank, lex_compare; cbn [fst snd].
  rewrite Z.compare_opp, (Z.compare_antisym e1 e2).
  change (Z.neg m1 ?= Z.neg m2)%Z with (CompOpp (Pos.compare_cont Eq m1 m2)).
  by destruct (e1 ?= e2)%Z.
Qed.

Lemma ltb_rank x y :
  (x <? y)%float = match rank_compare x y with Some Lt => true | _ => false end.
Proof.
  rewrite ltb_spec. unfold SFltb, rank_compare. rewrite SFcompare_rank.
  by destruct (rank (Prim2SF x)), (rank (Prim2SF y)).
Qed.

Lemma leb_rank x y :
  (x <=? y)%float = match rank_compare x y with Some (Lt | Eq) => true | _ => false end.
Proof.
  rewrite leb_spec. unfold SFleb, rank_compare. rewrite SFcompare_rank.
  by destruct (rank (Prim2SF x)), (rank (Prim2SF y)).
Qed.

Lemma eqb_rank x y :
  (x =? y)%float = match rank_compare x y with Some Eq => true | _ => false end.
Proof.
  rewrite eqb_spec. unfold SFeqb, rank_compare. rewrite SFcompare_rank.
  by destruct (rank (Prim2SF x)), (rank (Prim2SF y)).
Qed.

Lemma lex_compare_spec k1 k2 :
  match lex_compare k1 k2 with
  | Lt => (k1.1.1 < k2.1.1
           ∨ k1.1.1 = k2.1.1 ∧ (k1.1.2 < k2.1.2 ∨ k1.1.2 = k2.1.2 ∧ k1.2 < k2.2))%Z
  | Eq => (k1.1.1 = k2.1.1 ∧ k1.1.2 = k2.1.2 ∧ k1.2 = k2.2)%Z
  | Gt => (k2.1.1 < k1.1.1
           ∨ k1.1.1 = k2.1.1 ∧ (k2.1.2 < k1.1.2 ∨ k1.1.2 = k2.1.2 ∧ k2.2 < k1.2))%Z
  end.
Proof.
  unfold lex_compare.
  destruct (Z.compare_spec k1.1.1 k2.1.1); [|lia..].
  destruct (Z.compare_spec k1.1.2 k2.1.2); [|lia..].
  destruct (Z.compare_spec k1.2 k2.2); lia.
Qed.

Lemma lex_compare_refl k : lex_compare k k = Eq.
Proof. unfold lex_compare. by rewrite !Z.compare_refl. Qed.

(** Decides a goal about the order of numbers from hypotheses about
    their order. *)
Ltac number_order :=
  unfold is_nan, is_zero, zero in *;
  rewrite ?ltb_rank, ?leb_rank, ?eqb_rank in *; unfold rank_compare in *;
  repeat match goal with
         | H : context [rank (Prim2SF ?x)] |- _ =>
             let k := fresh "k" in
             generalize dependent (rank (Prim2SF x)); intros [k|]
         | |- context [rank (Prim2SF ?x)] =>
             let k := fresh "k" in
             generalize dependent (rank (Prim2SF x)); intros [k|]
         end;
  intros;
  repeat match goal with
         | H : context [lex_compare ?a ?b] |- _ =>
             pose proof (lex_compare_spec a b); destruct (lex_compare a b)
         | |- context [lex_compare ?a ?b] =>
             pose proof (lex_compare_spec a b); destruct (lex_compare a b)
         end;
  try done; try (exfalso; lia).

Lemma is_nan_Prim2SF x : is_nan x = false ↔ Prim2SF x ≠ S754_nan.
Proof.
  unfold is_nan. rewrite eqb_rank. unfold rank_compare.
  destruct (Prim2SF x) as [[]|[]| |[] m e]; simpl; rewrite ?lex_compare_refl; done.
Qed.

(** [Math.max] keeps its first argument unless the second is greater,
    when the first is [0] or positive and the second is a number. *)
Lemma Math_max_keeps x y :
  x = 0%float ∨ (0 <? x)%float = true → is_nan y = false →
  Math_max x y = if (x <? y)%float then y else x.
Proof.
  intros Hx Hy. unfold Math_max. rewrite Hy.
  assert (is_nan x = false) as ->.
  { destruct Hx as [->|Hx]; [done|]. clear Hy. number_order. }
  simpl. destruct (x <? y)%float eqn:Hxy; [done|].
  destruct (y <? x)%float eqn:Hyx; [done|].
  destruct Hx as [->|Hx]; [done|].
  assert (is_zero x = false) as ->; [|done].
  clear Hy Hxy Hyx. number_order.
Qed.

Lemma Math_max_positive x y :
  x = 0%float ∨ (0 <? x)%float = true → is_nan y = false →
  Math_max x y = 0%float ∨ (0 <? Math_max x y)%float = true.
Proof.
  intros Hx Hy. rewrite Math_max_keeps by done.
  destruct (x <? y)%float eqn:Hxy; [|done].
  right. destruct Hx as [->|Hx]; [done|]. clear Hy. number_order.
Qed.

(** *** Rounding a non-negative mantissa does not give [NaN] *)

Lemma shr_1_nonneg mrs : (0 ≤ shr_m mrs)%Z → (0 ≤ shr_m (shr_1 mrs))%Z.
Proof. destruct mrs as [[|[p|p|]|p] r s]; simpl; lia. Qed.

Lemma iter_pos_shr_1_nonneg n mrs :
  (0 ≤ shr_m mrs)%Z → (0 ≤ shr_m (iter_pos shr_1 n mrs))%Z.
Proof.
  revert mrs. induction n as [n IH|n IH|]; intros mrs Hm; simpl.
  - apply IH, IH. by apply shr_1_nonneg.
  - by apply IH, IH.
  - by apply shr_1_nonneg.
Qed.

Lemma shr_fexp_nonneg m e l :
  (0 ≤ m)%Z → (0 ≤ shr_m (shr_fexp prec emax m e l).1)%Z.
Proof.
  intros Hm. unfold shr_fexp, shr.
  assert (shr_m (shr_record_of_loc m l) = m) as Hrec by (by destruct l as [|[]]).
  destruct (_ - e)%Z; simpl; rewrite ?Hrec; try done.
  apply iter_pos_shr_1_nonneg. by rewrite Hrec.
Qed.

Lemma round_nearest_even_nonneg m l : (0 ≤ m)%Z → (0 ≤ round_nearest_even m l)%Z.
Proof. intros Hm. destruct l as [|[]]; simpl; try done; [destruct (Z.even m)|]; lia. Qed.

Lemma binary_round_aux_not_nan s m e l :
  (0 ≤ m)%Z → binary_round_aux prec emax s m e l ≠ S754_nan.
Proof.
  intros Hm. unfold binary_round_aux.
  pose proof (shr_fexp_nonneg m e l Hm) as H1.
  destruct (shr_fexp prec emax m e l) as [mrs' e']. simpl in H1.
  pose proof (shr_fexp_nonneg (round_nearest_even (shr_m mrs') (loc_of_shr_record mrs'))
                e' loc_Exact (round_nearest_even_nonneg _ _ H1)) as H2.
  destruct (shr_fexp prec emax _ e' loc_Exact) as [mrs'' e'']. simpl in H2.
  destruct (shr_m mrs''); [done| |lia].
  by destruct (_ <=? _)%Z.
Qed.

Lemma binary_normalize_not_nan m e szero : binary_normalize prec emax m e szero ≠ S754_nan.
Proof.
  destruct m as [|p|p]; simpl; [done| |];
    unfold binary_round; destruct (shl_align _ _ _); by apply binary_round_aux_not_nan.
Qed.

Lemma SFsub_not_nan m e y :
  y ≠ S754_nan → SFsub prec emax (S754_finite false m e) y ≠ S754_nan.
Proof.
  intros Hy. destruct y as [sy|sy| |sy my ey]; simpl; try done.
  apply binary_normalize_not_nan.
Qed.

Lemma SFdiv_not_nan x sy my ey :
  x ≠ S754_nan → (∀ s, x ≠ S754_infinity s) →
  SFdiv prec emax x (S754_finite sy my ey) ≠ S754_nan.
Proof.
  intros Hx Hinf. destruct x as [sx|sx| |sx mx ex]; simpl; try done.
  unfold SFdiv_core_binary.
  set (s := (_ - _ - _)%Z).
  set (m' := match s with
             | Z0 => Z.pos mx
             | Z.pos _ => Z.shiftl (Z.pos mx) s
             | Z.neg _ => 0%Z
             end).
  assert (0 ≤ m')%Z as Hm'.
  { subst m'. destruct s; [lia| |lia]. apply Z.shiftl_nonneg. lia. }
  pose proof (Z.div_eucl_eq m' (Z.pos my) ltac:(lia)) as Heq.
  pose proof (Z.mod_pos_bound m' (Z.pos my) ltac:(lia)) as Hmod.
  unfold Z.modulo in Hmod.
  destruct (Z.div_eucl m' (Z.pos my)) as [q r].
  apply binary_round_aux_not_nan. nia.
Qed.

(** *** The number that an integer is *)

Lemma digits2_pos_iter_xO p k :
  digits2_pos (Pos.iter xO p k) = (digits2_pos p + k)%positive.
Proof.
  induction k as [|k IH] using Pos.peano_ind; simpl; [lia|].
  rewrite Pos.iter_succ. simpl. rewrite IH. lia.
Qed.

Lemma digits2_pos_lower p : (2 ^ (Z.pos (digits2_pos p) - 1) ≤ Z.pos p)%Z.
Proof.
  induction p as [p IH|p IH|]; simpl; [| |done].
  - replace (Z.pos (Pos.succ (digits2_pos p)) - 1)%Z
      with (Z.succ (Z.pos (digits2_pos p) - 1)) by lia.
    rewrite Z.pow_succ_r by lia. lia.
  - replace (Z.pos (Pos.succ (digits2_pos p)) - 1)%Z
      with (Z.succ (Z.pos (digits2_pos p) - 1)) by lia.
    rewrite Z.pow_succ_r by lia. lia.
Qed.

Lemma digits2_pos_le p k : (0 ≤ k)%Z → (Z.pos p < 2 ^ k)%Z → (Z.pos (digits2_pos p) ≤ k)%Z.
Proof.
  intros Hk Hp. pose proof (digits2_pos_lower p) as Hlow.
  destruct (Z.le_gt_cases (Z.pos (digits2_pos p)) k) as [|Hgt]; [done|].
  assert (2 ^ k ≤ 2 ^ (Z.pos (digits2_pos p) - 1))%Z by (apply Z.pow_le_mono_r; lia).
  lia.
Qed.

(** A mantissa of 53 bits with an exponent in range is not rounded. *)
Lemma binary_round_aux_exact s m e :
  Z.pos (digits2_pos m) = 53%Z → (-1074 ≤ e ≤ 971)%Z →
  binary_round_aux prec emax s (Z.pos m) e loc_Exact = S754_finite s m e.
Proof.
  intros Hd He.
  assert (∀ m', Z.pos (digits2_pos m') = 53%Z →
                shr_fexp prec emax (Z.pos m') e loc_Exact
                = ({| shr_m := Z.pos m'; shr_r := false; shr_s := false |}, e)) as Hshr.
  { intros m' Hd'. unfold shr_fexp, fexp, SpecFloat.emin, prec, emax. simpl Zdigits2.
    rewrite Hd'. replace (Z.max (53 + e - 53) (3 - 1024 - 53) - e)%Z with 0%Z by lia.
    reflexivity. }
  unfold binary_round_aux. rewrite Hshr by done. simpl. rewrite Hshr by done. simpl.
  unfold emax, prec. destruct (Z.leb_spec e (1024 - 53)); [done|lia].
Qed.

(** An integer below [2^53] is a number: it is not rounded; [mantissa]
    and [exponent] are its 53-bit mantissa and its exponent. *)
Lemma binary_normalize_integer p :
  (Z.pos p < 2 ^ 53)%Z →
  ∃ m e, binary_normalize prec emax (Z.pos p) 0 false = S754_finite false m e.
Proof.
  intros Hp. pose proof (digits2_pos_le p 53 ltac:(lia) Hp) as Hd.
  simpl. unfold binary_round, shl_align, fexp, SpecFloat.emin, prec, emax.
  replace (Z.max (Z.pos (digits2_pos p) + 0 - 53) (3 - 1024 - 53) - 0)%Z
    with (Z.pos (digits2_pos p) - 53)%Z by lia.
  destruct (Z.pos (digits2_pos p) - 53)%Z as [|k|k] eqn:Hk; [|lia|].
  - eexists _, _. apply binary_round_aux_exact; lia.
  - eexists _, _. apply binary_round_aux_exact; [|lia].
    rewrite digits2_pos_iter_xO. lia.
Qed.

Lemma of_nat_0 : Prim2SF (of_nat 0) = S754_zero false.
Proof. reflexivity. Qed.

Lemma of_nat_pos n : 0 < n → ∃ m e, Prim2SF (of_nat n) = S754_finite false m e.
Proof.
  intros Hn. unfold of_nat. rewrite of_uint63_spec, Uint63.of_Z_spec.
  unfold MAX_SAFE_INTEGER.
  rewrite Z.mod_small.
  2:{ change Uint63Axioms.wB with (2 ^ 63)%Z. lia. }
  destruct (Z.min (Z.of_nat n) 9007199254740991) as [|p|p] eqn:Hmin; [lia| |lia].
  apply binary_normalize_integer. lia.
Qed.

Lemma of_nat_class n :
  Prim2SF (of_nat n) = S754_zero false ∨ ∃ m e, Prim2SF (of_nat n) = S754_finite false m e.
Proof. destruct n; [left; apply of_nat_0 | right; apply of_nat_pos; lia]. Qed.

(** [1 - d / n] is a number when [n] is not [0]. *)
Lemma ratio_complement_not_nan d n :
  0 < n → is_nan (1 - of_nat d / of_nat n)%float = false.
Proof.
  intros Hn. apply is_nan_Prim2SF.
  rewrite sub_spec, div_spec.
  destruct (of_nat_pos n Hn) as (m & e & ->).
  change (Prim2SF 1) with (S754_finite false 4503599627370496 (-52)).
  apply SFsub_not_nan, SFdiv_not_nan.
  - destruct (of_nat_class d) as [->|(? & ? & ->)]; done.
  - intros s. destruct (of_nat_class d) as [->|(? & ? & ->)]; done.
Qed.
End NumberFacts.

(** ** The classic recurrence is the edit distance of the code *)

Lemma editDistance_unfold c a d b :
  PatternScorer.editDistance (c :: a) (d :: b)
  = Nat.min (Nat.min (PatternScorer.editDistance a (d :: b) + 1)
                     (PatternScorer.editDistance (c :: a) b + 1))
            (PatternScorer.editDistance a b + (if decide (c = d) then 0 else 1)).
Proof. reflexivity. Qed.

Lemma editDistance_cheapest (a b : list ascii) :
  Levenshtein.cheapest_alignment a b (PatternScorer.editDistance a b).
Proof.
  revert b. induction a as [|c a IHa]; intros b.
  { split; [apply LevenshteinFacts.align_nil_l|].
    intros k Hk. apply LevenshteinFacts.align_length_r in Hk. simpl. lia. }
  induction b as [|d b IHb].
  { split; [apply (LevenshteinFacts.align_nil_r (c :: a))|].
    intros k Hk. apply LevenshteinFacts.align_length_l in Hk. simpl in *. lia. }
  rewrite editDistance_unfold.
  destruct (IHa (d :: b)) as [Hdelete Mdelete], IHb as [Hinsert Minsert],
    (IHa b) as [Hdiagonal Mdiagonal].
  split.
  - destruct (Nat.min_spec
                (Nat.min (PatternScorer.editDistance a (d :: b) + 1)
                   (PatternScorer.editDistance (c :: a) b + 1))
                (PatternScorer.editDistance a b + (if decide (c = d) then 0 else 1)))
      as [[_ ->]|[_ ->]].
    + destruct (Nat.min_spec (PatternScorer.editDistance a (d :: b) + 1)
                  (PatternScorer.editDistance (c :: a) b + 1)) as [[_ ->]|[_ ->]];
        rewrite Nat.add_1_r.
      * by apply Levenshtein.align_delete.
      * by apply Levenshtein.align_insert.
    + destruct (decide (c = d)) as [->|_].
      * rewrite Nat.add_0_r. by apply Levenshtein.align_keep.
      * rewrite Nat.add_1_r. by apply Levenshtein.align_subst.
  - intros k Hk. inversion Hk as [|? ? ? n Hn|? ? ? ? n Hn|? ? ? n Hn|? ? ? n Hn]; subst.
    + apply Mdiagonal in Hn. rewrite decide_True by done. lia.
    + apply Mdiagonal in Hn. destruct (decide (c = d)); lia.
    + apply Mdelete in Hn. lia.
    + apply Minsert in Hn. lia.
Qed.

Lemma editDistance_is_the_distance (a b : string) :
  PatternScorer.editDistance (JsString.chars a) (JsString.chars b)
  = _calculateLevenshteinDistance a b.
Proof.
  eapply LevenshteinFacts.min_edits_unique; [|apply LevenshteinFacts.distance_min_edits].
  apply LevenshteinFacts.cheapest_alignment_min_edits, editDistance_cheapest.
Qed.

(** ** The words of a string without tabs and line breaks *)

Lemma lower_char_space c : Ascii.eqb (JsString.lower_char c) " " = Ascii.eqb c " ".
Proof. by destruct c as [[] [] [] [] [] [] [] []]. Qed.

Lemma spaces_only_toLowerCase s : spaces_only (JsString.toLowerCase s) = spaces_only s.
Proof.
  induction s as [|c s IH]; simpl; [done|].
  by rewrite lower_char_white_space, lower_char_space, IH.
Qed.

Lemma spaces_only_trimStart s :
  spaces_only s = true → spaces_only (JsString.trimStart s) = true.
Proof.
  induction s as [|c s IH]; [done|]. intros Hs. cbn [JsString.trimStart].
  destruct (JsString.is_white_space c); [|exact Hs].
  apply IH. cbn [spaces_only] in Hs. by apply andb_prop in Hs as [_ ?].
Qed.

Lemma spaces_only_trimEnd s :
  spaces_only s = true → spaces_only (JsString.trimEnd s) = true.
Proof.
  induction s as [|c s IH]; [done|]. cbn [spaces_only JsString.trimEnd].
  intros [Hc Hs]%andb_prop. specialize (IH Hs).
  destruct (JsString.trimEnd s) as [|d rest].
  - destruct (JsString.is_white_space c) eqn:Hws; [done|].
    cbn [spaces_only]. by rewrite Hws.
  - change (spaces_only (String c (String d rest)))
      with ((negb (JsString.is_white_space c) || Ascii.eqb c " ")
            && spaces_only (String d rest)).
    by rewrite Hc, IH.
Qed.

Lemma spaces_only_normalized text :
  spaces_only text = true → spaces_only (JsString.trim (JsString.toLowerCase text)) = true.
Proof.
  intros Htext. apply spaces_only_trimEnd, spaces_only_trimStart.
  by rewrite spaces_only_toLowerCase.
Qed.

Lemma pieces_split_space s :
  spaces_only s = true → PatternScorer.pieces s = JsString.split_space s.
Proof.
  induction s as [|c s IH]; [done|].
  cbn [spaces_only PatternScorer.pieces JsString.split_space].
  intros [Hc Hs]%andb_prop. rewrite IH by done.
  destruct (Ascii.eqb c " ") eqn:Hspace.
  - apply Ascii.eqb_eq in Hspace as ->. reflexivity.
  - rewrite orb_false_r in Hc. apply negb_true_iff in Hc. by rewrite Hc.
Qed.

Lemma filter_nonempty (l : list string) :
  filter (λ word, 0 < String.length word) l
  = List.filter (λ piece, negb (String.eqb piece "")) l.
Proof.
  induction l as [|[|c w] l IH]; [done| |].
  - rewrite filter_cons_False by (simpl; lia). done.
  - rewrite filter_cons_True by (simpl; lia). simpl. by rewrite IH.
Qed.

Lemma words_word_sequence s :
  spaces_only s = true → JsString.words s = PatternScorer.word_sequence s.
Proof.
  intros Hs. unfold JsString.words, PatternScorer.word_sequence.
  by rewrite pieces_split_space, filter_nonempty.
Qed.

Lemma split_space_lower s w :
  JsString.toLowerCase s = s → w ∈ JsString.split_space s → JsString.toLowerCase w = w.
Proof.
  revert w. induction s as [|c s IH]; intros w; simpl.
  { by intros _ ->%list_elem_of_singleton. }
  intros [= Hc Hs].
  destruct (Ascii.eqb c " ").
  { intros [->|Hw]%elem_of_cons; [done | by apply IH]. }
  destruct (JsString.split_space s) as [|piece rest] eqn:Hsplit.
  { by apply split_space_not_nil in Hsplit. }
  intros [->|Hw]%elem_of_cons.
  - simpl. rewrite Hc, (IH piece); [done..|by left].
  - apply IH; [done | by right].
Qed.

Lemma words_are_scorer_words s :
  JsString.toLowerCase s = s → Forall scorer_word (JsString.words s).
Proof.
  intros Hs. apply Forall_forall. intros w [Hw Hne]%words_spec.
  split; [done | by apply (split_space_lower s)].
Qed.

Lemma normalized_words text :
  Forall scorer_word (JsString.words (JsString.trim (JsString.toLowerCase text))).
Proof.
  apply words_are_scorer_words. by rewrite toLowerCase_trim, toLowerCase_idemp.
Qed.

Lemma pattern_words pattern :
  Forall scorer_word (JsString.words (JsString.toLowerCase pattern)).
Proof. apply words_are_scorer_words, toLowerCase_idemp. Qed.

Lemma plain_pattern_normalized pattern :
  plain_pattern pattern = true →
  spaces_only (JsString.toLowerCase pattern) = true
  ∧ PatternScorer.normalized pattern = JsString.toLowerCase pattern.
Proof.
  intros [Hspaces Htrim%String.eqb_eq]%andb_prop. split.
  - by rewrite spaces_only_toLowerCase.
  - unfold PatternScorer.normalized. by rewrite <-toLowerCase_trim, Htrim.
Qed.

(** ** The scorer of the code is the Pattern Scorer *)

Section DoublePrecision.
Import PrimFloat Number NumberFacts.

Lemma ltb_trans x y z : (x <? y)%float = true → (y <? z)%float = true → (x <? z)%float = true.
Proof. intros Hxy Hyz. number_order. Qed.

Lemma ltb_irrefl x : (x <? x)%float = false.
Proof. number_order. Qed.

Lemma ltb_is_number x y : (x <? y)%float = true → is_nan x = false ∧ is_nan y = false.
Proof. intros Hxy. split; number_order. Qed.

Lemma ltb_not_eqb x y : (x <? y)%float = true → (x =? y)%float = false.
Proof. intros Hxy. number_order. Qed.

Lemma eqb_refl_number x : is_nan x = false → (x =? x)%float = true.
Proof. unfold is_nan. by intros ->%negb_false_iff. Qed.

(** What is not above the lower of two numbers is below the higher. *)
Lemma below_the_higher s x y :
  (s <? x)%float = false → is_nan x = false → (s <? y)%float = true →
  (x <? y)%float = true.
Proof. intros Hsx Hx Hsy. number_order. Qed.

Lemma not_above_the_higher s x y :
  (s <? x)%float = false → (s <? y)%float = true → (y <? x)%float = false.
Proof. intros Hsx Hsy. number_order. Qed.

Lemma not_reached_by_the_lower s x y :
  (s <? x)%float = false → (s <? y)%float = true → (y <=? x)%float = false.
Proof. intros Hsx Hsy. number_order. Qed.

Lemma ltb_not_leb x y : (x <? y)%float = true → (y <=? x)%float = false.
Proof. intros Hxy. number_order. Qed.

Lemma leb_not_above s x y :
  (s <? y)%float = false → (x <=? s)%float = false → is_nan s = false →
  (x <=? y)%float = false.
Proof. intros Hsy Hxs Hs. number_order. Qed.

Lemma similarity_is_the_similarity (a b : string) :
  a ≠ "" → b ≠ "" →
  Binary64._calculateStringSimilarity a b = PatternScorer.similarity a b.
Proof.
  intros Ha Hb. unfold Binary64._calculateStringSimilarity, PatternScorer.similarity.
  rewrite !eqb_empty_false by done. cbn [orb].
  rewrite editDistance_is_the_distance.
  destruct a as [|c a]; [done|]. destruct b as [|d b]; [done|]. reflexivity.
Qed.

Lemma similarity_is_a_number (a b : string) :
  a ≠ "" → b ≠ "" → is_nan (PatternScorer.similarity a b) = false.
Proof.
  destruct a as [|c a]; [done|]. destruct b as [|d b]; [done|]. intros _ _.
  apply ratio_complement_not_nan. simpl. lia.
Qed.

Lemma bestWordScore_is_bestSimilarity queryWord patternWords :
  scorer_word queryWord → Forall scorer_word patternWords →
  Binary64.bestWordScore queryWord patternWords
  = PatternScorer.bestSimilarity queryWord patternWords.
Proof.
  intros [Hq _] Hp.
  unfold Binary64.bestWordScore, PatternScorer.bestSimilarity, PatternScorer.maximum.
  generalize 0%float. induction Hp as [|w ws [Hw _] _ IH]; intros start; simpl; [done|].
  by rewrite similarity_is_the_similarity, IH.
Qed.

Lemma word_level_is_the_word_level queryWords patternWords :
  Forall scorer_word queryWords → Forall scorer_word patternWords →
  Binary64.word_level queryWords patternWords
  = (PatternScorer.sum
       (map (λ queryWord, PatternScorer.bestSimilarity queryWord patternWords) queryWords),
     PatternScorer.matchedWordCount queryWords patternWords).
Proof.
  intros Hq Hp.
  unfold Binary64.word_level, PatternScorer.sum, PatternScorer.matchedWordCount.
  enough (∀ s m,
            fold_left (Binary64.word_level_step patternWords) queryWords (s, m)
            = (fold_left add
                 (map (λ queryWord, PatternScorer.bestSimilarity queryWord patternWords)
                    queryWords) s,
               m + length (List.filter
                             (λ queryWord, PatternScorer.has_match queryWord patternWords)
                             queryWords))) as -> by done.
  induction Hq as [|w ws Hw _ IH]; intros s m; cbn [fold_left map List.filter].
  { simpl. f_equal. lia. }
  unfold Binary64.word_level_step at 2. cbn [fst snd].
  rewrite bestWordScore_is_bestSimilarity, IH by done.
  unfold PatternScorer.has_match at 2.
  destruct (0.6 <? _)%float; simpl; f_equal; lia.
Qed.

(** The inner loop of [_calculateWordOrderSimilarity] finds the best
    similarity, and for a query word with a match the index of the
    pattern word it is matched with. *)
Lemma best_match_is_the_matched_word queryWord patternWords :
  scorer_word queryWord → Forall scorer_word patternWords →
  (Binary64.best_match queryWord patternWords).1
  = PatternScorer.bestSimilarity queryWord patternWords
  ∧ (PatternScorer.has_match queryWord patternWords = true →
     ∃ j w, PatternScorer.matched_word queryWord patternWords = Some (j, w)
            ∧ (Binary64.best_match queryWord patternWords).2 = Z.of_nat j).
Proof.
  intros [Hq _] Hp.
  set (sim := PatternScorer.similarity queryWord).
  assert (∀ i w, patternWords !! i = Some w → is_nan (sim w) = false) as Hnumber.
  { intros i w Hw. apply similarity_is_a_number; [done|].
    by apply (Forall_lookup_1 _ _ _ _ Hp Hw). }
  pose proof (for_loop_invariant
    (λ k st,
       st.1 = fold_left Math_max (map sim (take k patternWords)) 0%float
       ∧ (∀ i w, i < k → patternWords !! i = Some w → (st.1 <? sim w)%float = false)
       ∧ (st = (0%float, (-1)%Z)
          ∨ (0 <? st.1)%float = true
            ∧ ∃ j w, patternWords !! j = Some w ∧ st = (sim w, Z.of_nat j)
                     ∧ ∀ i w', i < j → patternWords !! i = Some w' →
                               (sim w' <? sim w)%float = true))
    (length patternWords) 0 (Binary64.best_match_step queryWord patternWords)
    (0%float, (-1)%Z)) as Hloop.
  simpl in Hloop. fold (Binary64.best_match queryWord patternWords) in Hloop.
  destruct Hloop as (Hbest & Hall & Hfound).
  { split; [done|]. split; [intros; lia | by left]. }
  { intros k [s index] [_ Hk] (Hmax & Hall & Hfound). cbn [fst snd] in *.
    destruct (lookup_lt_is_Some_2 patternWords k Hk) as [w Hw].
    unfold Binary64.best_match_step. cbn [fst snd].
    rewrite (word_at_lookup _ _ _ Hw).
    rewrite similarity_is_the_similarity
      by (done || by eapply (Forall_lookup_1 _ _ _ _ Hp Hw)).
    fold sim.
    assert (s = 0%float ∨ (0 <? s)%float = true) as Hs.
    { destruct Hfound as [[= -> _]|[? _]]; [by left | by right]. }
    rewrite (take_S_r _ _ _ Hw), map_app, fold_left_app. cbn [map fold_left].
    rewrite <-Hmax, (Math_max_keeps s (sim w) Hs (Hnumber _ _ Hw)).
    destruct (s <? sim w)%float eqn:Hlt; cbn [fst snd].
    - split; [done|]. split.
      + intros i w' Hi Hw'. destruct (decide (i = k)) as [->|Hne].
        * replace w' with w by congruence. apply ltb_irrefl.
        * eapply not_above_the_higher; [|done]. apply (Hall i); [lia | done].
      + right. split.
        { destruct Hs as [->|Hs]; [done | by eapply ltb_trans]. }
        exists k, w. split; [done|]. split; [done|].
        intros i w' Hi Hw'. eapply below_the_higher; [by apply (Hall i)| |done].
        by eapply Hnumber.
    - split; [done|]. split; [|done].
      intros i w' Hi Hw'. destruct (decide (i = k)) as [->|Hne].
      + by replace w' with w by congruence.
      + apply (Hall i); [lia | done]. }
  rewrite firstn_all in Hbest.
  split; [done|].
  unfold PatternScorer.has_match, PatternScorer.matched_word.
  unfold PatternScorer.has_match.
  fold sim. unfold PatternScorer.bestSimilarity, PatternScorer.maximum. fold sim.
  rewrite <-Hbest. intros Hmatch. rewrite Hmatch.
  destruct Hfound as [Hnone|(Hpositive & j & w & Hw & Hst & Hfirst)].
  { rewrite Hnone in Hmatch. done. }
  exists j, w. rewrite Hst. split; [|done]. cbn [fst].
  apply list_find_Some. split; [done|]. split.
  - apply eqb_refl_number. by eapply Hnumber.
  - intros i w' Hw' Hi. rewrite (ltb_not_eqb _ _ (Hfirst i w' Hi Hw')). done.
Qed.

Lemma matched_pairs_snoc queryWords queryWord patternWords :
  PatternScorer.matched_pairs (queryWords ++ [queryWord]) patternWords
  = PatternScorer.matched_pairs queryWords patternWords
    ++ match PatternScorer.matched_word queryWord patternWords with
       | Some matched => [((length queryWords, queryWord), matched)]
       | None => []
       end.
Proof.
  unfold PatternScorer.matched_pairs. rewrite imap_app, omap_app. f_equal.
  simpl. rewrite Nat.add_0_r. by destruct (PatternScorer.matched_word _ _).
Qed.

Lemma matched_pairs_none queryWords patternWords :
  (∀ queryWord, PatternScorer.matched_word queryWord patternWords = None) →
  PatternScorer.matched_pairs queryWords patternWords = [].
Proof.
  intros Hnone. induction queryWords as [|queryWord queryWords IH] using rev_ind; [done|].
  by rewrite matched_pairs_snoc, IH, Hnone.
Qed.

Lemma existsb_orb {X : Type} (f g : X → bool) (l : list X) :
  existsb (λ x, f x || g x) l = existsb f l || existsb g l.
Proof.
  induction l as [|x l IH]; simpl; [done|]. rewrite IH.
  destruct (f x), (g x), (existsb f l); done.
Qed.

Lemma is_keyword_match_has_keyword i queryWord j patternWord :
  scorer_word queryWord → scorer_word patternWord →
  is_keyword_match queryWord patternWord
  = PatternScorer.has_keyword medicalKeywords ((i, queryWord), (j, patternWord)).
Proof.
  intros [_ Hq] [_ Hp]. unfold is_keyword_match, PatternScorer.has_keyword,
    PatternScorer.contains_keyword. cbn [fst snd]. rewrite Hq, Hp. apply existsb_orb.
Qed.

Lemma wordOrderSimilarity_is_the_wordOrderScore queryWords patternWords :
  Forall scorer_word queryWords → Forall scorer_word patternWords →
  Binary64._calculateWordOrderSimilarity queryWords patternWords
  = PatternScorer.wordOrderScore medicalKeywords queryWords patternWords.
Proof.
  intros Hq Hp. unfold Binary64._calculateWordOrderSimilarity.
  destruct ((length queryWords =? 0) || (length patternWords =? 0)) eqn:Hempty.
  { unfold PatternScorer.wordOrderScore.
    assert (PatternScorer.matched_pairs queryWords patternWords = []) as ->; [|reflexivity].
    apply orb_prop in Hempty as [Hlen|Hlen]; apply Nat.eqb_eq in Hlen.
    - by destruct queryWords.
    - destruct patternWords; [|done]. by apply matched_pairs_none. }
  set (longest := Nat.max (length queryWords) (length patternWords)).
  pose proof (for_loop_invariant
    (λ k st,
       Binary64.matchCount st
       = length (PatternScorer.matched_pairs (take k queryWords) patternWords)
       ∧ Binary64.orderScore st
         = PatternScorer.sum
             (map (PatternScorer.positionScore longest)
                (PatternScorer.matched_pairs (take k queryWords) patternWords))
       ∧ Binary64.keywordMatches st
         = length (List.filter (PatternScorer.has_keyword medicalKeywords)
                     (PatternScorer.matched_pairs (take k queryWords) patternWords)))
    (length queryWords) 0 (Binary64.word_order_step queryWords patternWords)
    (Binary64.mkOrderState 0 0%float 0)) as Hloop.
  simpl in Hloop. destruct Hloop as (Hcount & Horder & Hkeywords).
  { done. }
  { intros k st [_ Hk] (Hcount & Horder & Hkeywords).
    destruct (lookup_lt_is_Some_2 queryWords k Hk) as [queryWord Hword].
    pose proof (Forall_lookup_1 _ _ _ _ Hq Hword) as Hscorer.
    rewrite (take_S_r _ _ _ Hword), matched_pairs_snoc.
    rewrite length_take, Nat.min_l by lia.
    unfold Binary64.word_order_step. rewrite (word_at_lookup _ _ _ Hword).
    destruct (best_match_is_the_matched_word queryWord patternWords Hscorer Hp)
      as [Hbest Hmatched].
    destruct (Binary64.best_match queryWord patternWords) as [bestMatchScore bestMatchIndex].
    cbn [fst snd] in Hbest, Hmatched. subst bestMatchScore.
    fold (PatternScorer.has_match queryWord patternWords).
    destruct (PatternScorer.has_match queryWord patternWords) eqn:Hmatch.
    - destruct (Hmatched eq_refl) as (j & w & Hfound & ->). rewrite Hfound.
      assert (patternWords !! j = Some w) as Hw.
      { unfold PatternScorer.matched_word in Hfound. rewrite Hmatch in Hfound.
        by apply list_find_Some in Hfound as [? _]. }
      rewrite (word_at_lookup _ _ _ Hw).
      rewrite (is_keyword_match_has_keyword k queryWord j w)
        by (done || by eapply (Forall_lookup_1 _ _ _ _ Hp Hw)).
      cbn [Binary64.matchCount Binary64.orderScore Binary64.keywordMatches].
      rewrite !length_app, map_app, List.filter_app, length_app. cbn [length map List.filter].
      split; [lia|]. split.
      + unfold PatternScorer.sum. rewrite fold_left_app. cbn [fold_left].
        fold (PatternScorer.sum
                (map (PatternScorer.positionScore longest)
                   (PatternScorer.matched_pairs (take k queryWords) patternWords))).
        rewrite <-Horder. unfold PatternScorer.positionScore. cbn [fst snd].
        by rewrite Zabs2Nat.abs_nat_spec.
      + destruct (PatternScorer.has_keyword _ _); simpl; lia.
    - assert (PatternScorer.matched_word queryWord patternWords = None) as ->.
      { unfold PatternScorer.matched_word. by rewrite Hmatch. }
      by rewrite app_nil_r. }
  rewrite firstn_all in Hcount, Horder, Hkeywords.
  unfold PatternScorer.wordOrderScore. fold longest.
  rewrite Hcount, Horder, Hkeywords.
  by destruct (PatternScorer.matched_pairs queryWords patternWords).
Qed.

Lemma patternScore_is_the_patternScore text pattern :
  spaces_only text = true → plain_pattern pattern = true →
  Binary64.patternScore (JsString.trim (JsString.toLowerCase text))
    (JsString.words (JsString.trim (JsString.toLowerCase text))) pattern
  = PatternScorer.patternScore medicalKeywords text pattern.
Proof.
  intros Htext Hpattern.
  destruct (plain_pattern_normalized pattern Hpattern) as [Hspaces Hnormalized].
  unfold Binary64.patternScore, PatternScorer.patternScore.
  rewrite Hnormalized. unfold PatternScorer.normalized.
  rewrite <-!words_word_sequence by (done || by apply spaces_only_normalized).
  rewrite wordOrderSimilarity_is_the_wordOrderScore, word_level_is_the_word_level
    by (apply normalized_words || apply pattern_words).
  unfold PatternScorer.exactMatchScore, PatternScorer.wordSimilarityScore,
    PatternScorer.matchedWordCoverage.
  destruct (String.eqb_spec (JsString.trim (JsString.toLowerCase text))
              (JsString.toLowerCase pattern));
    [rewrite decide_True by done | rewrite decide_False by done]; reflexivity.
Qed.

Lemma intentScore_is_the_intentScore text patterns :
  spaces_only text = true →
  forallb (λ pattern, match pattern with JStr p => plain_pattern p | _ => true end)
    patterns = true →
  Binary64.intentScore (JsString.trim (JsString.toLowerCase text))
    (JsString.words (JsString.trim (JsString.toLowerCase text))) patterns
  = PatternScorer.intentScore medicalKeywords text patterns.
Proof.
  intros Htext.
  unfold Binary64.intentScore, PatternScorer.intentScore, PatternScorer.maximum.
  generalize 0%float.
  induction patterns as [|pattern rest IH]; intros start; [done|].
  cbn [forallb]. intros [Hpattern Hrest]%andb_prop.
  destruct pattern; cbn [fold_left Binary64.intentScore_step PatternScorer.string_patterns
                           omap list_omap map];
    try (by apply IH).
  rewrite patternScore_is_the_patternScore by done. by apply IH.
Qed.

Lemma entry_score_is_the_score text intent patterns :
  spaces_only text = true → plain_patterns intent = true →
  get_prop intent "patterns" = Normal (JArr patterns) →
  Binary64.intentScore (JsString.trim (JsString.toLowerCase text))
    (JsString.words (JsString.trim (JsString.toLowerCase text))) patterns
  = PatternScorer.score medicalKeywords text intent.
Proof.
  intros Htext Hplain Hpatterns. unfold plain_patterns, PatternScorer.score in *.
  rewrite Hpatterns in *. by apply intentScore_is_the_intentScore.
Qed.
End DoublePrecision.

(** ** Intent resolver *)

Section Resolver.
Import PrimFloat Number NumberFacts.

Lemma scan_intents_first_highest text entries bestMatch :
  spaces_only text = true →
  Forall well_formed_intent entries →
  forallb plain_patterns entries = true →
  ∃ result,
    Binary64.scan_intents (JsString.trim (JsString.toLowerCase text))
      (JsString.words (JsString.trim (JsString.toLowerCase text))) entries bestMatch
    = Normal result
    ∧ ((result = bestMatch
        ∧ ∀ e, e ∈ entries →
               (Binary64.bm_score bestMatch
                <? PatternScorer.score medicalKeywords text e)%float = false)
       ∨ ∃ i e,
           entries !! i = Some e
           ∧ result = Binary64.mkBestMatch e (PatternScorer.score medicalKeywords text e)
           ∧ (Binary64.bm_score bestMatch
              <? PatternScorer.score medicalKeywords text e)%float = true
           ∧ (∀ k e', k < i → entries !! k = Some e' →
                      (PatternScorer.score medicalKeywords text e
                       <=? PatternScorer.score medicalKeywords text e')%float = false)
           ∧ ∀ e', e' ∈ entries →
                   (PatternScorer.score medicalKeywords text e
                    <? PatternScorer.score medicalKeywords text e')%float = false).
Proof.
  intros Htext Hwf. revert bestMatch.
  set (score := PatternScorer.score medicalKeywords text).
  induction Hwf as [|intent rest Hintent _ IH]; intros bestMatch Hplain.
  { exists bestMatch. split; [done|]. left. split; [done|].
    intros e He. by apply elem_of_nil in He. }
  cbn [forallb] in Hplain. apply andb_prop in Hplain as [Hplain Hrest].
  destruct Hintent as (tag & patterns & responses & _ & _ & Hpatterns & _).
  cbn [Binary64.scan_intents]. rewrite Hpatterns. cbn [obind].
  rewrite (entry_score_is_the_score text intent patterns) by done. fold score.
  destruct (Binary64.bm_score bestMatch <? score intent)%float eqn:Hlt.
  - destruct (IH (Binary64.mkBestMatch intent (score intent)) Hrest)
      as (result & -> & [[-> Hall]|(i & e & Hi & -> & Hhigher & Hbefore & Hall)]);
      cbn [Binary64.bm_score] in *.
    + eexists. split; [done|]. right. exists 0, intent.
      split; [done|]. split; [done|]. split; [done|]. split; [intros k e' Hk; lia|].
      intros e' [->|He']%elem_of_cons; [apply ltb_irrefl | by apply Hall].
    + eexists. split; [done|]. right. exists (Datatypes.S i), e.
      split; [done|]. split; [done|]. split; [by eapply ltb_trans|]. split.
      * intros [|k] e' Hk Hlook; simpl in Hlook.
        -- injection Hlook as <-. by apply ltb_not_leb.
        -- apply (Hbefore k); [lia | done].
      * intros e' [->|He']%elem_of_cons; [|by apply Hall].
        destruct (ltb_is_number _ _ Hhigher) as [_ Hnumber].
        destruct (score e <? score intent)%float eqn:Hback; [|done].
        pose proof (ltb_trans _ _ _ Hhigher Hback) as Hcycle.
        by rewrite ltb_irrefl in Hcycle.
  - destruct (IH bestMatch Hrest)
      as (result & -> & [[-> Hall]|(i & e & Hi & -> & Hhigher & Hbefore & Hall)]).
    + eexists. split; [done|]. left. split; [done|].
      intros e' [->|He']%elem_of_cons; [done | by apply Hall].
    + eexists. split; [done|]. right. exists (Datatypes.S i), e.
      split; [done|]. split; [done|]. split; [done|]. split.
      * intros [|k] e' Hk Hlook; simpl in Hlook.
        -- injection Hlook as <-. by eapply not_reached_by_the_lower.
        -- apply (Hbefore k); [lia | done].
      * intros e' [->|He']%elem_of_cons; [|by apply Hall].
        by eapply not_above_the_higher.
Qed.

Lemma findMatchingIntent_is_the_scan this text entries :
  intents this = JArr entries → entries ≠ [] →
  JsString.trim (JsString.toLowerCase text) ≠ "" →
  Binary64.findMatchingIntent this (JStr text)
  = match Binary64.scan_intents (JsString.trim (JsString.toLowerCase text))
            (JsString.words (JsString.trim (JsString.toLowerCase text)))
            entries (Binary64.mkBestMatch JNull 0%float) with
    | Normal bestMatch =>
        Normal (if (0.25 <=? Binary64.bm_score bestMatch)%float
                then Binary64.bm_intent bestMatch else JNull)
    | Throw error =>
        Throw (if instanceof_ChatbotError error then error
               else mkError IntentMatchError
                      (prepend "Failed to match intent: " (err_message error)))
    end.
Proof.
  intros Hintents Hentries Hquery.
  unfold Binary64.findMatchingIntent, Binary64.match_intent.
  rewrite truthy_JStr, Hintents by (by apply normalized_nonempty). simpl.
  destruct (Nat.eqb_spec (length entries) 0) as [Hlen|_].
  { by destruct entries. }
  apply length_eqb_0 in Hquery. rewrite Hquery.
  by destruct (Binary64.scan_intents _ _ entries _).
Qed.

Lemma below_the_threshold x : (0 <? x)%float = false → (0.25 <=? x)%float = false.
Proof.
  intros Hx. pose proof (eq_refl : (0 <? 0.25)%float = true) as Hconstants.
  number_order.
Qed.

Lemma all_below_the_threshold s x :
  (0.25 <=? s)%float = false → is_nan s = false → (s <? x)%float = false →
  (0.25 <=? x)%float = false.
Proof. intros Hs Hnumber Hx. number_order. Qed.




(** ** The pattern score is the weighted sum of its components *)

Lemma intentScore_skips_binary64 normalizedQuery queryWords before v after :
  is_string v = false →
  Binary64.intentScore normalizedQuery queryWords (before ++ v :: after)
  = Binary64.intentScore normalizedQuery queryWords (before ++ after).
Proof.
  intros Hv. unfold Binary64.intentScore. rewrite !fold_left_app. simpl. by destruct v.
Qed.



End Resolver.

(** ** Selecting a response *)

Section Selection.
Import PrimFloat Number NumberFacts.

(** What [generateResponse] returns once the resolver has matched an
    intent with at least one response. *)
Lemma generateResponse_of_matched_intent this text random matchedIntent tag elems :
  Binary64.findMatchingIntent this (JStr text) = Normal matchedIntent →
  truthy matchedIntent = true →
  get_prop matchedIntent "tag" = Normal tag →
  get_prop matchedIntent "responses" = Normal (JArr elems) →
  elems ≠ [] →
  ∃ this',
    Binary64.generateResponse (JStr text) random this
    = (this',
       Normal match Binary64.element elems (Binary64.random_index random (length elems)) with
              | JStr response =>
                  if String.length (JsString.trim response) =? 0
                  then INTERNAL_ERROR_result
                  else result_object response tag JNull
              | _ => INTERNAL_ERROR_result
              end).
Proof.
  intros Hmatch Hmatched Htag Hresponses Helems.
  assert (truthy (JStr text) = true) as Htruthy.
  { destruct (truthy (JStr text)) eqn:Htext; [done|].
    unfold Binary64.findMatchingIntent, Binary64.match_intent in Hmatch.
    rewrite Htext in Hmatch. injection Hmatch as <-. done. }
  destruct this as [catalog has_metrics events].
  unfold Binary64.generateResponse, try_finally, try_catch, Binary64.select_response,
    bind, lift, throw, ret, with_metrics, emit.
  rewrite Htruthy. cbn [negb is_string]. rewrite Hmatch, Hmatched. cbn [negb].
  rewrite Hresponses, Htag.
  destruct (Nat.eqb_spec (length elems) 0) as [Hlen|_]; [by destruct elems|].
  destruct (Binary64.element elems _) as [| | | | |response| | |];
    try solve [destruct has_metrics; simpl; eauto].
  destruct (String.length (JsString.trim response) =? 0);
    destruct has_metrics; simpl; eauto.
Qed.

Lemma random_index_of_zero n : 0 < n → Binary64.random_index 0 n = Some 0%Z.
Proof.
  intros Hn. unfold Binary64.random_index, Math_floor. rewrite FloatAxioms.mul_spec.
  destruct (of_nat_pos n Hn) as (m & e & ->). reflexivity.
Qed.



End Selection.
(** * The chat history *)

Lemma loadChatHistory_unfold `{JSON} env :
  loadChatHistory env
  = match storage_denied env with
    | Some reason =>
        rethrown "Error loading chat history:" "Failed to load chat history: "
          (DOMException "SecurityError" reason) env
    | None =>
        match localStorage env !! CHAT_HISTORY_KEY with
        | Some text =>
            if String.eqb text "" then (env, Normal (JsonArr []))
            else match JSON_parse text with
                 | inl v => (env, Normal v)
                 | inr message =>
                     rethrown "Error loading chat history:" "Failed to load chat history: "
                       (SyntaxError message) env
                 end
        | None => (env, Normal (JsonArr []))
        end
    end.
Proof.
  unfold loadChatHistory, guarded, sbind, the_localStorage, getItem.
  destruct (storage_denied env); [done|].
  destruct (localStorage env !! CHAT_HISTORY_KEY) as [text|]; [|done].
  destruct (String.eqb text ""); [done|]. by destruct (JSON_parse text).
Qed.

Lemma loadChatHistory_returns `{JSON} env history :
  (loadChatHistory env).2 = Normal history →
  loadChatHistory env = (env, Normal history).
Proof.
  rewrite loadChatHistory_unfold. destruct (storage_denied env); [done|].
  destruct (localStorage env !! CHAT_HISTORY_KEY) as [text|]; [|by intros [= <-]].
  destruct (String.eqb text ""); [by intros [= <-]|].
  destruct (JSON_parse text); [by intros [= <-] | done].
Qed.

Lemma loadChatHistory_allowed `{JSON} env history :
  (loadChatHistory env).2 = Normal history → storage_denied env = None.
Proof. rewrite loadChatHistory_unfold. by destruct (storage_denied env). Qed.

Lemma loadChatHistory_throws `{JSON} env error :
  (loadChatHistory env).2 = Throw error →
  ∃ cause,
    error = mkError ChatHistoryError
              (prepend "Failed to load chat history: " (message_of cause))
    ∧ loadChatHistory env
      = (console_error "Error loading chat history:" cause env, Throw error)
    ∧ ((∃ reason,
          storage_denied env = Some reason ∧ cause = DOMException "SecurityError" reason)
       ∨ (∃ text diagnostic,
            storage_denied env = None
            ∧ localStorage env !! CHAT_HISTORY_KEY = Some text ∧ text ≠ ""
            ∧ JSON_parse text = inr diagnostic
            ∧ cause = SyntaxError diagnostic)).
Proof.
  rewrite loadChatHistory_unfold.
  destruct (storage_denied env) as [reason|] eqn:Hdenied.
  { intros [= <-]. exists (DOMException "SecurityError" reason).
    split; [done|]. split; [done|]. left. by exists reason. }
  destruct (localStorage env !! CHAT_HISTORY_KEY) as [text|] eqn:Hitem; [|done].
  destruct (String.eqb_spec text "") as [|Htext]; [done|].
  destruct (JSON_parse text) as [|diagnostic] eqn:Hparse; [done|].
  intros [= <-]. exists (SyntaxError diagnostic).
  split; [done|]. split; [done|]. right. by exists text, diagnostic.
Qed.

Lemma saveMessageToHistory_unfold `{JSON} message env :
  saveMessageToHistory message env
  = match loadChatHistory env with
    | (env', Normal history) =>
        match push history message with
        | Normal pushed =>
            match storage_denied env' with
            | Some reason =>
                rethrown "Error saving message to history:"
                  "Failed to save message to history: "
                  (DOMException "SecurityError" reason) env'
            | None =>
                match JSON_stringify (JArr (slice_from_end MAX_HISTORY_LENGTH pushed)) with
                | Normal text =>
                    match storage_full env' (<[CHAT_HISTORY_KEY := text]> (localStorage env'))
                    with
                    | Some reason =>
                        rethrown "Error saving message to history:"
                          "Failed to save message to history: "
                          (DOMException "QuotaExceededError" reason) env'
                    | None =>
                        (set_localStorage
                           (<[CHAT_HISTORY_KEY := text]> (localStorage env')) env',
                         Normal tt)
                    end
                | Throw error =>
                    rethrown "Error saving message to history:"
                      "Failed to save message to history: " (Raised error) env'
                end
            end
        | Throw error =>
            rethrown "Error saving message to history:"
              "Failed to save message to history: " (Raised error) env'
        end
    | (env', Throw error) =>
        rethrown "Error saving message to history:"
          "Failed to save message to history: " (Raised error) env'
    end.
Proof.
  unfold saveMessageToHistory, guarded, sbind, call, the_localStorage, setItem.
  destruct (loadChatHistory env) as [env' [history|error]]; [|done].
  destruct (push history message) as [pushed|error]; [|done].
  destruct (storage_denied env'); [done|].
  assert ((if MAX_HISTORY_LENGTH <? length pushed
           then slice_from_end MAX_HISTORY_LENGTH pushed else pushed)
          = slice_from_end MAX_HISTORY_LENGTH pushed) as ->.
  { destruct (Nat.ltb_spec MAX_HISTORY_LENGTH (length pushed)) as [|Hshort]; [done|].
    unfold slice_from_end. by replace (length pushed - MAX_HISTORY_LENGTH) with 0 by lia. }
  destruct (JSON_stringify _); [|done]. by destruct (storage_full env' _).
Qed.

Lemma slice_from_end_pushed {A : Type} (old : list A) message :
  let recent := slice_from_end MAX_HISTORY_LENGTH (old ++ [message]) in
  recent = drop (length old + 1 - 50) (old ++ [message])
  ∧ length recent = (length old + 1) `min` 50
  ∧ last recent = Some message
  ∧ recent `suffix_of` (old ++ [message]).
Proof.
  unfold slice_from_end, MAX_HISTORY_LENGTH. rewrite length_app. simpl.
  split; [done|]. split; [rewrite length_drop, length_app; simpl; lia|].
  split; [|apply suffix_drop].
  rewrite drop_app_le by lia. by rewrite last_snoc.
Qed.

Lemma saveMessageToHistory_array `{JSON} message env old :
  (loadChatHistory env).2 = Normal (JsonArr old) →
  saveMessageToHistory message env
  = match JSON_stringify
            (JArr (drop (length old + 1 - 50) (map of_json old ++ [message]))) with
    | Normal text =>
        match storage_full env (<[CHAT_HISTORY_KEY := text]> (localStorage env)) with
        | Some reason =>
            rethrown "Error saving message to history:"
              "Failed to save message to history: "
              (DOMException "QuotaExceededError" reason) env
        | None =>
            (set_localStorage (<[CHAT_HISTORY_KEY := text]> (localStorage env)) env,
             Normal tt)
        end
    | Throw error =>
        rethrown "Error saving message to history:"
          "Failed to save message to history: " (Raised error) env
    end.
Proof.
  intros Hresult.
  pose proof (loadChatHistory_allowed _ _ Hresult) as Hallowed.
  apply loadChatHistory_returns in Hresult as Hload.
  rewrite saveMessageToHistory_unfold, Hload, Hallowed. simpl.
  destruct (slice_from_end_pushed (map of_json old) message) as [-> _].
  by rewrite length_map.
Qed.

(** [X19] Saving a message when the stored history is an array and
    [JSON.stringify] returns: the array to be written under the key of
    the chat history is the stored one with the message added at the
    end, cut down to its last 50 elements; it has at most 50 elements
    and the message is the last one.  If the storage takes the item, it
    is written and nothing goes to the console; if the storage is full,
    nothing is written, the [QuotaExceededError] is written to the
    console and a [ChatHistoryError] with its message is thrown. *)
Theorem saveMessageToHistory_stores_last_50 `{JSON} message env old stored text :
  (loadChatHistory env).2 = Normal (JsonArr old) →
  stored = drop (length old + 1 - 50) (map of_json old ++ [message]) →
  JSON_stringify (JArr stored) = Normal text →
  length stored = (length old + 1) `min` 50
  ∧ last stored = Some message
  ∧ (length old < 50 → stored = map of_json old ++ [message])
  ∧ (storage_full env (<[CHAT_HISTORY_KEY := text]> (localStorage env)) = None →
     saveMessageToHistory message env
     = (set_localStorage (<[CHAT_HISTORY_KEY := text]> (localStorage env)) env, Normal tt))
  ∧ (∀ reason,
       storage_full env (<[CHAT_HISTORY_KEY := text]> (localStorage env)) = Some reason →
       saveMessageToHistory message env
       = (console_error "Error saving message to history:"
            (DOMException "QuotaExceededError" reason) env,
          Throw (mkError ChatHistoryError
                   (prepend "Failed to save message to history: " reason)))).
Proof.
  intros Hload -> Htext.
  rewrite (saveMessageToHistory_array message env old Hload), Htext.
  destruct (slice_from_end_pushed (map of_json old) message) as (Hdrop & Hlen & Hlast & _).
  rewrite length_map in Hdrop, Hlen. rewrite <-Hdrop.
  split; [done|]. split; [done|]. split.
  { intros Hshort. rewrite Hdrop. by replace (length old + 1 - 50) with 0 by lia. }
  split; [by intros ->|]. by intros reason ->.
Qed.

Lemma saveMessageToHistory_stores_last_50_witness :
  (@saveMessageToHistory sample_JSON
     (of_json (chat_message "thanks" "user" "2024-01-01T10:00:05.000Z"))
     (browser_with sample_history)).2
  = Normal tt.
Proof.
  pose proof (@saveMessageToHistory_stores_last_50 sample_JSON
                (of_json (chat_message "thanks" "user" "2024-01-01T10:00:05.000Z"))
                (browser_with sample_history) sample_history _ _
                eq_refl eq_refl eq_refl) as (_ & _ & _ & Hsave & _).
  exact (f_equal snd (Hsave eq_refl)).
Defined.

(** [X20] What is saved is what is loaded: when the stored history is
    the array [old], a message that is a JSON value is saved, and
    [JSON.parse] reads back the array that [JSON.stringify] wrote, then
    [loadChatHistory] returns [old] with the message at the end, cut
    down to its last 50 elements. *)
Theorem saved_history_is_loaded `{JSON} message env env' old recent :
  (loadChatHistory env).2 = Normal (JsonArr old) →
  saveMessageToHistory (of_json message) env = (env', Normal tt) →
  recent = drop (length old + 1 - 50) (old ++ [message]) →
  (∀ text, JSON_stringify (of_json (JsonArr recent)) = Normal text →
           text ≠ "" ∧ JSON_parse text = inl (JsonArr recent)) →
  loadChatHistory env' = (env', Normal (JsonArr recent))
  ∧ length recent ≤ 50
  ∧ last recent = Some message.
Proof.
  intros Hload Hsave -> Hcodec.
  pose proof (loadChatHistory_allowed _ _ Hload) as Hallowed.
  rewrite (saveMessageToHistory_array _ env old Hload) in Hsave.
  destruct (slice_from_end_pushed old message) as (Hdrop & Hlen & Hlast & _).
  rewrite <-Hdrop. rewrite <-Hdrop in Hcodec.
  split; [|split; [lia | done]].
  assert (drop (length old + 1 - 50) (map of_json old ++ [of_json message])
          = map of_json (slice_from_end MAX_HISTORY_LENGTH (old ++ [message]))) as Hmap.
  { rewrite Hdrop. change [of_json message] with (map of_json [message]).
    by rewrite <-map_app, skipn_map. }
  rewrite Hmap in Hsave.
  destruct (JSON_stringify (JArr (map of_json _))) as [text|] eqn:Htext; [|done].
  destruct (Hcodec text Htext) as [Hnonempty Hparse].
  destruct (storage_full env _); [done|].
  injection Hsave as <-.
  rewrite loadChatHistory_unfold. simpl. rewrite Hallowed, lookup_insert_eq.
  destruct (String.eqb_spec text "") as [|_]; [done|]. by rewrite Hparse.
Qed.

Lemma saved_history_is_loaded_witness :
  (@loadChatHistory sample_JSON
     (@saveMessageToHistory sample_JSON
        (of_json (chat_message "thanks" "user" "2024-01-01T10:00:05.000Z"))
        (browser_with sample_history)).1).2
  = Normal (JsonArr (sample_history
                     ++ [chat_message "thanks" "user" "2024-01-01T10:00:05.000Z"])).
Proof.
  assert (∀ text,
            SampleJSON.stringify
              (of_json (JsonArr (sample_history
                                 ++ [chat_message "thanks" "user" "2024-01-01T10:00:05.000Z"])))
            = Normal text →
            text ≠ ""
            ∧ SampleJSON.parse text
              = inl (JsonArr (sample_history
                              ++ [chat_message "thanks" "user" "2024-01-01T10:00:05.000Z"])))
    as Hcodec.
  { intros text [= <-]. split; [discriminate | reflexivity]. }
  pose proof (@saved_history_is_loaded sample_JSON
                (chat_message "thanks" "user" "2024-01-01T10:00:05.000Z")
                (browser_with sample_history) _ sample_history _
                eq_refl eq_refl eq_refl Hcodec) as [Hloaded _].
  exact (f_equal snd Hloaded).
Defined.

Lemma push_throws history message cause :
  push history message = Throw cause →
  (∀ elems, history ≠ JsonArr elems)
  ∧ cause = mkError TypeError
              (Text (match history with
                     | JsonNull => "Cannot read properties of null (reading 'push')"
                     | _ => "history.push is not a function"
                     end)).
Proof. destruct history; simpl; intros [= <-]; by split. Qed.

(** [X21] A failed [saveMessageToHistory] leaves the storage as it was,
    throws a [ChatHistoryError] whose message is "Failed to save message
    to history: " followed by the message of the cause, and writes the
    cause to the console last.  There are five causes: the page may not
    use the storage, or the stored text is not JSON, and then the cause
    is the [ChatHistoryError] of [loadChatHistory], which has written its
    own cause to the console before; the stored text is JSON but no
    array, and [push] throws a [TypeError]; [JSON.stringify] throws; or
    the storage is full. *)
Theorem saveMessageToHistory_failure `{JSON} message env env' error :
  saveMessageToHistory message env = (env', Throw error) →
  localStorage env' = localStorage env
  ∧ err_class error = ChatHistoryError
  ∧ ∃ cause,
      err_message error
      = prepend "Failed to save message to history: " (message_of cause)
      ∧ last (console env') = Some ("Error saving message to history:", cause)
      ∧ ((∃ reason,
            storage_denied env = Some reason
            ∧ cause = Raised (mkError ChatHistoryError
                                (prepend "Failed to load chat history: " reason))
            ∧ console env'
              = console env
                ++ [("Error loading chat history:", DOMException "SecurityError" reason);
                    ("Error saving message to history:", cause)])
         ∨ (∃ text diagnostic,
              storage_denied env = None
              ∧ localStorage env !! CHAT_HISTORY_KEY = Some text ∧ text ≠ ""
              ∧ JSON_parse text = inr diagnostic
              ∧ cause = Raised (mkError ChatHistoryError
                                  (prepend "Failed to load chat history: " diagnostic))
              ∧ console env'
                = console env
                  ++ [("Error loading chat history:", SyntaxError diagnostic);
                      ("Error saving message to history:", cause)])
         ∨ (∃ history,
              (loadChatHistory env).2 = Normal history
              ∧ (∀ elems, history ≠ JsonArr elems)
              ∧ cause
                = Raised (mkError TypeError
                            (Text (match history with
                                   | JsonNull =>
                                       "Cannot read properties of null (reading 'push')"
                                   | _ => "history.push is not a function"
                                   end)))
              ∧ console env'
                = console env ++ [("Error saving message to history:", cause)])
         ∨ (∃ old failure,
              (loadChatHistory env).2 = Normal (JsonArr old)
              ∧ JSON_stringify
                  (JArr (drop (length old + 1 - 50) (map of_json old ++ [message])))
                = Throw failure
              ∧ cause = Raised failure
              ∧ console env'
                = console env ++ [("Error saving message to history:", cause)])
         ∨ (∃ old text reason,
              (loadChatHistory env).2 = Normal (JsonArr old)
              ∧ JSON_stringify
                  (JArr (drop (length old + 1 - 50) (map of_json old ++ [message])))
                = Normal text
              ∧ storage_full env (<[CHAT_HISTORY_KEY := text]> (localStorage env))
                = Some reason
              ∧ cause = DOMException "QuotaExceededError" reason
              ∧ console env'
                = console env ++ [("Error saving message to history:", cause)])).
Proof.
  intros Hsave.
  destruct ((loadChatHistory env).2) as [history|failure] eqn:Hresult.
  - pose proof (loadChatHistory_returns _ _ Hresult) as Hload.
    pose proof (loadChatHistory_allowed _ _ Hresult) as Hallowed.
    destruct (push history message) as [pushed|cause] eqn:Hpush.
    + destruct history as [| | | |old|]; try discriminate Hpush.
      rewrite (saveMessageToHistory_array message env old Hresult) in Hsave.
      destruct (JSON_stringify _) as [text|failure] eqn:Htext.
      * destruct (storage_full env _) as [reason|] eqn:Hfull; [|done].
        injection Hsave as <- <-. split; [done|]. split; [done|].
        exists (DOMException "QuotaExceededError" reason).
        split; [done|]. split; [simpl; by rewrite last_snoc|].
        do 4 right. by exists old, text, reason.
      * injection Hsave as <- <-. split; [done|]. split; [done|].
        exists (Raised failure). split; [done|]. split; [simpl; by rewrite last_snoc|].
        do 3 right. left. by exists old, failure.
    + pose proof (push_throws _ _ _ Hpush) as [Hnot ->].
      rewrite saveMessageToHistory_unfold, Hload, Hpush in Hsave.
      injection Hsave as <- <-. split; [done|]. split; [done|].
      exists (Raised (mkError TypeError
                        (Text (match history with
                               | JsonNull =>
                                   "Cannot read properties of null (reading 'push')"
                               | _ => "history.push is not a function"
                               end)))).
      split; [done|]. split; [simpl; by rewrite last_snoc|].
      do 2 right. left. by exists history.
  - apply loadChatHistory_throws in Hresult as (cause & -> & Hload & Hcause).
    rewrite saveMessageToHistory_unfold, Hload in Hsave.
    injection Hsave as <- <-. split; [done|]. split; [done|].
    exists (Raised (mkError ChatHistoryError
                      (prepend "Failed to load chat history: " (message_of cause)))).
    split; [done|]. split; [simpl; by rewrite last_snoc|].
    destruct Hcause as [(reason & Hdenied & ->)|(text & diagnostic & ? & ? & ? & ? & ->)].
    + left. exists reason. split; [done|]. split; [done|].
      simpl. by rewrite <-(assoc_L (++)).
    + right; left. exists text, diagnostic. repeat (split; [done|]).
      simpl. by rewrite <-(assoc_L (++)).
Qed.

Lemma saveMessageToHistory_failure_witness :
  localStorage
    (@saveMessageToHistory sample_JSON (JStr "hello")
       (Build_Browser ∅ [] None (λ _, Some (Text "The quota has been exceeded.")))).1
  = ∅.
Proof.
  exact (proj1 (@saveMessageToHistory_failure sample_JSON (JStr "hello")
                  (Build_Browser ∅ [] None (λ _, Some (Text "The quota has been exceeded.")))
                  _ _ eq_refl)).
Defined.

(** [X22] [clearChatHistory] on a storage the page may use returns,
    removes the item of the chat history and nothing else, and writes
    nothing to the console; after it [loadChatHistory] returns the empty
    array, and [saveMessageToHistory] stores the array of the one
    message saved, if the storage takes it.  On a storage the page may
    not use, [clearChatHistory] changes nothing in the storage, writes
    the [SecurityError] to the console and throws a [ChatHistoryError]
    whose message is "Failed to clear chat history: " followed by the
    message of the [SecurityError]. *)
Theorem clearChatHistory_empties_the_history `{JSON} env :
  (storage_denied env = None →
   clearChatHistory env
   = (set_localStorage (delete CHAT_HISTORY_KEY (localStorage env)) env, Normal tt)
   ∧ loadChatHistory (clearChatHistory env).1
     = ((clearChatHistory env).1, Normal (JsonArr []))
   ∧ ∀ message text,
       JSON_stringify (JArr [message]) = Normal text →
       storage_full env (<[CHAT_HISTORY_KEY := text]> (localStorage env)) = None →
       saveMessageToHistory message (clearChatHistory env).1
       = (set_localStorage (<[CHAT_HISTORY_KEY := text]> (localStorage env)) env,
          Normal tt))
  ∧ (∀ reason,
       storage_denied env = Some reason →
       clearChatHistory env
       = (console_error "Error clearing chat history:"
            (DOMException "SecurityError" reason) env,
          Throw (mkError ChatHistoryError
                   (prepend "Failed to clear chat history: " reason)))).
Proof.
  split.
  - intros Hallowed.
    assert (clearChatHistory env
            = (set_localStorage (delete CHAT_HISTORY_KEY (localStorage env)) env,
               Normal tt)) as Hclear.
    { unfold clearChatHistory, guarded, sbind, the_localStorage, removeItem.
      by rewrite Hallowed. }
    rewrite Hclear. split; [done|]. cbn [fst].
    assert (loadChatHistory
              (set_localStorage (delete CHAT_HISTORY_KEY (localStorage env)) env)
            = (set_localStorage (delete CHAT_HISTORY_KEY (localStorage env)) env,
               Normal (JsonArr []))) as Hload.
    { rewrite loadChatHistory_unfold. simpl. by rewrite Hallowed, lookup_delete_eq. }
    split; [done|]. intros message text Htext Hfull.
    rewrite (saveMessageToHistory_array message _ []) by by rewrite Hload.
    simpl. rewrite Htext, insert_delete_eq, Hfull. done.
  - intros reason Hdenied.
    unfold clearChatHistory, guarded, sbind, the_localStorage, removeItem.
    by rewrite Hdenied.
Qed.

Lemma clearChatHistory_empties_the_history_witness :
  @clearChatHistory (browser_with sample_history) = (empty_browser, Normal tt)
  ∧ (@clearChatHistory
       (Build_Browser ∅ [] (Some (Text "The operation is insecure.")) (λ _, None))).2
    = Throw (mkError ChatHistoryError
               (Text "Failed to clear chat history: The operation is insecure.")).
Proof.
  split.
  - destruct (@clearChatHistory_empties_the_history sample_JSON
                (browser_with sample_history)) as [Hclear _].
    destruct (Hclear eq_refl) as [-> _]. reflexivity.
  - destruct (@clearChatHistory_empties_the_history sample_JSON
                (Build_Browser ∅ [] (Some (Text "The operation is insecure.")) (λ _, None)))
      as [_ Hdenied].
    rewrite (Hdenied _ eq_refl). reflexivity.
Defined.

(** [X23] The three methods use one item of the storage: every other
    key keeps its value, or stays absent, whatever the method does; and
    what was written to the console stays there. *)
Theorem chat_history_uses_one_key `{JSON} message env key :
  key ≠ CHAT_HISTORY_KEY →
  (localStorage (loadChatHistory env).1 !! key = localStorage env !! key
   ∧ console env `prefix_of` console (loadChatHistory env).1)
  ∧ (localStorage (saveMessageToHistory message env).1 !! key = localStorage env !! key
     ∧ console env `prefix_of` console (saveMessageToHistory message env).1)
  ∧ (localStorage (clearChatHistory env).1 !! key = localStorage env !! key
     ∧ console env `prefix_of` console (clearChatHistory env).1).
Proof.
  intros Hkey.
  assert (localStorage (loadChatHistory env).1 = localStorage env
          ∧ console env `prefix_of` console (loadChatHistory env).1) as [Hstorage Hconsole].
  { rewrite loadChatHistory_unfold.
    destruct (storage_denied env); [simpl; split; [done|]; by apply prefix_app_r|].
    destruct (localStorage env !! CHAT_HISTORY_KEY) as [text|]; [|done].
    destruct (String.eqb text ""); [done|].
    destruct (JSON_parse text); [done|]. simpl. split; [done|]. by apply prefix_app_r. }
  split; [by rewrite Hstorage|]. split.
  - rewrite saveMessageToHistory_unfold.
    destruct (loadChatHistory env) as [env1 [history|failure]]; simpl in *.
    + destruct (push history message) as [pushed|cause]; simpl.
      * destruct (storage_denied env1); simpl.
        { rewrite Hstorage. split; [done|]. by apply prefix_app_r. }
        destruct (JSON_stringify _) as [text|cause]; simpl.
        -- destruct (storage_full env1 _); simpl.
           ++ rewrite Hstorage. split; [done|]. by apply prefix_app_r.
           ++ by rewrite lookup_insert_ne, Hstorage.
        -- rewrite Hstorage. split; [done|]. by apply prefix_app_r.
      * rewrite Hstorage. split; [done|]. by apply prefix_app_r.
    + rewrite Hstorage. split; [done|]. by apply prefix_app_r.
  - unfold clearChatHistory, guarded, sbind, the_localStorage, removeItem.
    destruct (storage_denied env); simpl.
    + split; [done|]. by apply prefix_app_r.
    + by rewrite lookup_delete_ne.
Qed.

Lemma chat_history_uses_one_key_witness :
  localStorage
    (@saveMessageToHistory sample_JSON (JStr "hello")
       (mkBrowser {[ "theme" := "dark" ]} [])).1 !! "theme"
  = Some "dark".
Proof.
  destruct (@chat_history_uses_one_key sample_JSON (JStr "hello")
              (mkBrowser {[ "theme" := "dark" ]} []) "theme") as (_ & [Hsave _] & _).
  - discriminate.
  - exact Hsave.
Defined.

(** * The messages shown at first *)

Lemma get_prop_of_json j name :
  j ≠ JsonNull → ∃ v, get_prop (of_json j) name = Normal v.
Proof. destruct j; simpl; eauto. done. Qed.

Lemma same_message_returns m message :
  m ≠ JsonNull → message ≠ JsonNull → ∃ same, same_message m message = Normal same.
Proof.
  intros Hm Hmessage. unfold same_message.
  destruct (get_prop_of_json m "timestamp" Hm) as [a1 ->].
  destruct (get_prop_of_json message "timestamp" Hmessage) as [b1 ->].
  destruct (get_prop_of_json m "text" Hm) as [a2 ->].
  destruct (get_prop_of_json message "text" Hmessage) as [b2 ->].
  destruct (get_prop_of_json m "sender" Hm) as [a3 ->].
  destruct (get_prop_of_json message "sender" Hmessage) as [b3 ->].
  simpl. destruct (strict_equal a1 b1); [|eauto]. destruct (strict_equal a2 b2); eauto.
Qed.

Lemma same_message_throws m message :
  m = JsonNull ∨ message = JsonNull →
  same_message m message
  = Throw (mkError TypeError (Text "Cannot read properties of null (reading 'timestamp')")).
Proof.
  intros [-> | ->]; [done|]. unfold same_message.
  destruct m; try done; by simpl.
Qed.

Lemma isDuplicate_false acc message :
  isDuplicate acc message = Normal false
  ↔ Forall (λ m, same_message m message = Normal false) acc.
Proof.
  induction acc as [|m acc IH]; simpl; [done|]. rewrite Forall_cons, <-IH.
  destruct (same_message m message) as [[]|]; simpl; [| |]; split;
    (done || (by intros [? ?]) || (by split) || by intros [_ ?]).
Qed.

Lemma isDuplicate_true acc message :
  isDuplicate acc message = Normal true →
  ∃ m, m ∈ acc ∧ same_message m message = Normal true.
Proof.
  induction acc as [|m acc IH]; simpl; [done|].
  destruct (same_message m message) as [[]|] eqn:Hsame; simpl; [|  |done].
  - intros _. exists m. split; [left | done].
  - intros (m' & Hin & Hm')%IH. exists m'. split; [by right | done].
Qed.

Lemma isDuplicate_returns acc message :
  JsonNull ∉ acc → message ≠ JsonNull → ∃ duplicate, isDuplicate acc message = Normal duplicate.
Proof.
  intros Hacc Hmessage. induction acc as [|m acc IH]; simpl; [eauto|].
  apply not_elem_of_cons in Hacc as [Hm Hacc].
  destruct (same_message_returns m message) as [[] ->]; simpl; eauto.
Qed.

Lemma isDuplicate_throws acc message :
  acc ≠ [] → JsonNull ∈ acc ∧ length acc = 1 ∨ message = JsonNull →
  isDuplicate acc message
  = Throw (mkError TypeError (Text "Cannot read properties of null (reading 'timestamp')")).
Proof.
  destruct acc as [|m acc]; [done|]. intros _ Hnull. simpl.
  rewrite same_message_throws; [done|].
  destruct Hnull as [[Hin Hlen] | ->]; [|by right].
  destruct acc; [|done]. left. by apply list_elem_of_singleton in Hin.
Qed.

Lemma pairwise_different_snoc acc message :
  pairwise_different acc →
  Forall (λ m, same_message m message = Normal false) acc →
  pairwise_different (acc ++ [message]).
Proof.
  intros Hacc Hnew i j mi mj Hij Hi Hj.
  destruct (decide (j < length acc)) as [Hlt | Hge].
  - rewrite lookup_app_l in Hi, Hj by lia. exact (Hacc i j mi mj Hij Hi Hj).
  - assert (j = length acc) as ->.
    { apply lookup_lt_Some in Hj. rewrite length_app in Hj. simpl in Hj. lia. }
    rewrite lookup_app_l in Hi by lia.
    rewrite list_lookup_middle in Hj by done. injection Hj as <-.
    rewrite Forall_forall in Hnew. apply Hnew. by eapply list_elem_of_lookup_2.
Qed.

Lemma reduce_unique_spec elems acc msgs :
  reduce_unique elems acc = Normal msgs →
  ∃ kept,
    msgs = acc ++ kept
    ∧ kept `sublist_of` elems
    ∧ (pairwise_different acc → pairwise_different msgs)
    ∧ ∀ message, message ∈ elems →
        message ∈ kept ∨ ∃ m, m ∈ msgs ∧ same_message m message = Normal true.
Proof.
  revert acc. induction elems as [|message elems IH]; intros acc; simpl.
  - intros [= <-]. exists []. rewrite app_nil_r. split; [done|]. split; [done|].
    split; [done|]. by intros message Hin%elem_of_nil.
  - destruct (isDuplicate acc message) as [[]|] eqn:Hduplicate; simpl; [| |done].
    + intros (kept & -> & Hsub & Hdiff & Hcover)%IH. exists kept.
      split; [done|]. split; [by apply sublist_cons|]. split; [done|].
      intros message' [-> | Hin]%elem_of_cons; [|by apply Hcover].
      right. apply isDuplicate_true in Hduplicate as (m & Hm & Hsame).
      exists m. split; [|done]. apply elem_of_app. by left.
    + intros (kept & -> & Hsub & Hdiff & Hcover)%IH. exists (message :: kept).
      rewrite <-(assoc_L (++)). simpl. split; [done|]. split; [by apply sublist_skip|].
      split.
      * intros Hacc. rewrite <-(assoc_L (++)) in Hdiff. apply Hdiff.
        apply pairwise_different_snoc; [done|]. by apply isDuplicate_false.
      * intros message' [-> | Hin]%elem_of_cons; [left; left|].
        destruct (Hcover message' Hin) as [Hkept | Hsame]; [left; by right|].
        right. by rewrite <-(assoc_L (++)) in Hsame.
Qed.

Lemma pairwise_different_nil : pairwise_different [].
Proof. by intros i j mi mj _ Hi. Qed.

Lemma uniqueMessages_array history msgs :
  uniqueMessages history = Normal msgs →
  ∃ elems, history = JsonArr elems ∧ reduce_unique elems [] = Normal msgs.
Proof. destruct history as [| | | |elems|]; try done. intros Hrun. by exists elems. Qed.

(** [X24] The messages [uniqueMessages] keeps differ pairwise in their
    timestamp, their text or their sender. *)
Theorem uniqueMessages_has_no_duplicates history msgs :
  uniqueMessages history = Normal msgs →
  ∀ i j mi mj,
    i < j → msgs !! i = Some mi → msgs !! j = Some mj →
    same_message mi mj = Normal false.
Proof.
  intros (elems & -> & Hrun)%uniqueMessages_array.
  apply reduce_unique_spec in Hrun as (kept & -> & _ & Hdiff & _).
  apply Hdiff, pairwise_different_nil.
Qed.

Lemma uniqueMessages_has_no_duplicates_witness :
  same_message
    (chat_message "I have a fever" "user" "2024-01-01T10:00:00.000Z")
    (chat_message "Take rest and drink plenty of fluids." "bot" "2024-01-01T10:00:01.000Z")
  = Normal false.
Proof.
  apply (uniqueMessages_has_no_duplicates
           (JsonArr (sample_history ++ sample_history)) sample_history eq_refl 0 1);
    [lia | reflexivity | reflexivity].
Defined.

(** [X25] [uniqueMessages] keeps messages of the history in their order,
    the first one among them; a message it leaves out has the timestamp,
    the text and the sender of one it keeps. *)
Theorem uniqueMessages_keeps_first_occurrences elems msgs :
  uniqueMessages (JsonArr elems) = Normal msgs →
  msgs `sublist_of` elems
  ∧ head msgs = head elems
  ∧ ∀ message, message ∈ elems →
      message ∈ msgs ∨ ∃ m, m ∈ msgs ∧ same_message m message = Normal true.
Proof.
  simpl. intros Hrun. split; [|split].
  - by apply reduce_unique_spec in Hrun as (kept & -> & Hsub & _).
  - destruct elems as [|first rest]; simpl in Hrun; [by injection Hrun as <-|].
    by apply reduce_unique_spec in Hrun as (kept & -> & _).
  - by apply reduce_unique_spec in Hrun as (kept & -> & _ & _ & Hcover).
Qed.

Lemma uniqueMessages_keeps_first_occurrences_witness :
  sample_history `sublist_of` (sample_history ++ sample_history).
Proof.
  apply (uniqueMessages_keeps_first_occurrences
           (sample_history ++ sample_history) sample_history eq_refl).
Defined.

Lemma reduce_unique_different elems acc :
  pairwise_different (acc ++ elems) → reduce_unique elems acc = Normal (acc ++ elems).
Proof.
  revert acc. induction elems as [|message elems IH]; intros acc Hdiff; simpl.
  - by rewrite app_nil_r.
  - assert (isDuplicate acc message = Normal false) as ->.
    { apply isDuplicate_false, Forall_forall. intros m [i Hi]%list_elem_of_lookup_1.
      apply (Hdiff i (length acc)).
      - by apply lookup_lt_Some in Hi.
      - by apply lookup_app_l_Some.
      - by apply list_lookup_middle. }
    simpl. rewrite (IH (acc ++ [message])); rewrite <-(assoc_L (++)); done.
Qed.

(** [X26] The histories [uniqueMessages] returns as they are are those
    whose messages differ pairwise; so what [uniqueMessages] returns, it
    returns unchanged when applied again. *)
Theorem uniqueMessages_fixed_points elems :
  (uniqueMessages (JsonArr elems) = Normal elems ↔ pairwise_different elems)
  ∧ ∀ history,
      uniqueMessages history = Normal elems →
      uniqueMessages (JsonArr elems) = Normal elems.
Proof.
  assert (∀ history,
            uniqueMessages history = Normal elems → pairwise_different elems) as Hdiff.
  { intros history (elems' & -> & Hrun)%uniqueMessages_array.
    apply reduce_unique_spec in Hrun as (kept & -> & _ & Hdiff & _).
    apply Hdiff, pairwise_different_nil. }
  assert (pairwise_different elems → uniqueMessages (JsonArr elems) = Normal elems) as Hfix.
  { intros Hdifferent. simpl. by rewrite reduce_unique_different. }
  split; [split; [apply Hdiff | apply Hfix]|].
  intros history Hrun. by eapply Hfix, Hdiff.
Qed.

Lemma uniqueMessages_fixed_points_witness :
  uniqueMessages (JsonArr sample_history) = Normal sample_history.
Proof.
  destruct (uniqueMessages_fixed_points sample_history) as [_ Hagain].
  exact (Hagain (JsonArr (sample_history ++ sample_history)) eq_refl).
Defined.

Lemma json_null_dec (j : Json) : j = JsonNull ∨ j ≠ JsonNull.
Proof. destruct j; auto. Qed.

Lemma reduce_unique_clean elems acc :
  acc ≠ [] → JsonNull ∉ acc →
  (JsonNull ∈ elems →
   reduce_unique elems acc
   = Throw (mkError TypeError
              (Text "Cannot read properties of null (reading 'timestamp')")))
  ∧ (JsonNull ∉ elems → ∃ msgs, reduce_unique elems acc = Normal msgs).
Proof.
  revert acc. induction elems as [|message elems IH]; intros acc Hne Hclean; simpl.
  { split; [by intros ?%elem_of_nil | eauto]. }
  destruct (json_null_dec message) as [-> | Hmessage].
  - rewrite isDuplicate_throws by auto. split; [done|].
    intros Hnot. exfalso. apply Hnot. left.
  - destruct (isDuplicate_returns acc message Hclean Hmessage) as [duplicate ->]. simpl.
    assert ((if duplicate then acc else acc ++ [message]) ≠ []
            ∧ JsonNull ∉ (if duplicate then acc else acc ++ [message])) as [Hne' Hclean'].
    { destruct duplicate; [done|]. split; [by destruct acc|].
      rewrite not_elem_of_app, not_elem_of_cons. split; [done|]. split; [done|].
      apply not_elem_of_nil. }
    destruct (IH _ Hne' Hclean') as [Hthrows Hreturns]. split.
    + intros [Heq | Hin]%elem_of_cons; [done | auto].
    + intros [_ Hnot]%not_elem_of_cons. auto.
Qed.

(** [X27] [uniqueMessages] on an array throws exactly when the array has
    at least two elements and one of them is [null]; it is then the
    [TypeError] of reading [timestamp] of [null]. *)
Theorem uniqueMessages_throws_on_null elems :
  (JsonNull ∈ elems ∧ 2 ≤ length elems →
   uniqueMessages (JsonArr elems)
   = Throw (mkError TypeError
              (Text "Cannot read properties of null (reading 'timestamp')")))
  ∧ (JsonNull ∉ elems ∨ length elems < 2 →
     ∃ msgs, uniqueMessages (JsonArr elems) = Normal msgs).
Proof.
  simpl. destruct elems as [|first [|second rest]].
  - split; [simpl; lia | eauto].
  - split; [simpl; lia | simpl; eauto].
  - change (reduce_unique (first :: second :: rest) [])
      with (reduce_unique (second :: rest) [first]).
    destruct (json_null_dec first) as [-> | Hfirst].
    + split; [done|]. intros [Hnot | Hlen]; [|simpl in Hlen; lia].
      exfalso. apply Hnot. left.
    + destruct (reduce_unique_clean (second :: rest) [first]) as [Hthrows Hreturns];
        [done | by rewrite list_elem_of_singleton|].
      split.
      * intros [[Heq | Hin]%elem_of_cons _]; [done | auto].
      * intros [[_ Hnot]%not_elem_of_cons | Hlen]; [auto | simpl in Hlen; lia].
Qed.

Lemma uniqueMessages_throws_on_null_witness :
  uniqueMessages (JsonArr [chat_message "hello" "user" "2024-01-01T10:00:00.000Z"; JsonNull])
  = Throw (mkError TypeError (Text "Cannot read properties of null (reading 'timestamp')")).
Proof.
  apply (proj1 (uniqueMessages_throws_on_null
                  [chat_message "hello" "user" "2024-01-01T10:00:00.000Z"; JsonNull])).
  split; [right; left | simpl; lia].
Defined.

(** [X28] The effect that fills the chat window never throws and leaves
    the storage as it is.  Either it writes nothing to the console, the
    stored history is an array, and the messages shown are those
    [uniqueMessages] keeps of it; or something failed (the
    deduplication, [JSON.parse], or reading a storage the page may not
    use), the failure is written to the console, and no message is
    shown. *)
Theorem load_messages_outcomes `{JSON} env env' messages :
  load_messages env = (env', messages) →
  localStorage env' = localStorage env
  ∧ (console env' = console env
     ∧ (∃ elems,
          (loadChatHistory env).2 = Normal (JsonArr elems)
          ∧ uniqueMessages (JsonArr elems) = Normal messages)
     ∨ messages = []
       ∧ (∃ error history,
            (loadChatHistory env).2 = Normal history
            ∧ uniqueMessages history = Throw error
            ∧ console env'
              = console env ++ [("Error loading chat history:", Raised error)])
     ∨ messages = []
       ∧ (∃ error diagnostic,
            (loadChatHistory env).2 = Throw error
            ∧ console env'
              = console env
                ++ [("Error loading chat history:", SyntaxError diagnostic);
                    ("Error loading chat history:", Raised error)])
     ∨ messages = []
       ∧ (∃ error reason,
            storage_denied env = Some reason
            ∧ (loadChatHistory env).2 = Throw error
            ∧ console env'
              = console env
                ++ [("Error loading chat history:", DOMException "SecurityError" reason);
                    ("Error loading chat history:", Raised error)])).
Proof.
  unfold load_messages, call. intros Hrun.
  destruct ((loadChatHistory env).2) as [history|error] eqn:Hresult.
  - rewrite (loadChatHistory_returns _ _ Hresult) in Hrun.
    destruct (uniqueMessages history) as [msgs|error] eqn:Hunique.
    + injection Hrun as <- <-. split; [done|]. left. split; [done|].
      apply uniqueMessages_array in Hunique as Harray.
      destruct Harray as (elems & -> & _). by exists elems.
    + injection Hrun as <- <-. split; [done|]. right; left. split; [done|].
      by exists error, history.
  - apply loadChatHistory_throws in Hresult as (cause & -> & Hload & Hcause).
    rewrite Hload in Hrun. injection Hrun as <- <-. split; [done|].
    destruct Hcause as [(reason & Hdenied & ->)|(text & diagnostic & _ & _ & _ & _ & ->)].
    + do 3 right. split; [done|]. eexists _, reason. split; [done|]. split; [done|].
      simpl. by rewrite <-(assoc_L (++)).
    + do 2 right. left. split; [done|]. eexists _, diagnostic. split; [done|].
      simpl. by rewrite <-(assoc_L (++)).
Qed.

Lemma load_messages_outcomes_witness :
  localStorage (@load_messages sample_JSON (browser_with (sample_history ++ sample_history))).1
  = localStorage (browser_with (sample_history ++ sample_history)).
Proof.
  exact (proj1 (@load_messages_outcomes sample_JSON
                  (browser_with (sample_history ++ sample_history)) _ _ eq_refl)).
Defined.

